(** * repo-city: the force-directed city layout engine

    A shallow embedding of [src/utils/layoutEngine.ts] and the properties its
    specification states about it.

    JavaScript numbers are IEEE 754 binary64 values: they are modelled by the
    kernel's primitive floats, so every arithmetic step below rounds exactly as
    the engine does and the model can be run on concrete trees.  The host
    functions the engine calls but does not define ([Math.log], [Math.random],
    [Date.now]) are fields of a [Host] record; the two impure ones are indexed
    by the number of calls made so far.

    The development also embeds what surrounds the engine: the steps of
    [hooks/useRepoFetcher.ts] that read the address of a repository and build
    the input tree, and the district labels that [components/CityScene.tsx]
    computes from a layout. *)

From Stdlib Require Import ZArith Lia.
From Stdlib Require Uint63.
From Stdlib Require Import PrimFloat.
From Stdlib Require SpecFloat FloatOps FloatAxioms.
From Stdlib Require Import Ascii String.
From stdpp Require Import base list strings.

Set Warnings "-inexact-float,-register-all".

(** ** JavaScript values *)

Module JS.

(** [Boolean(x)] for a number: [0], [-0] and [NaN] are falsy. *)
Definition truthy_number (x : float) : bool := negb (is_zero x || is_nan x).

(** [Boolean(s)] for a string: only the empty string is falsy. *)
Definition truthy_string (s : string) : bool := negb (String.eqb s "").

(** [s || d] for strings. *)
Definition or_string (s d : string) : string := if truthy_string s then s else d.

(** The value of [if (s)] for [s : string | null]: the string when it is
    truthy. *)
Definition truthy_ref (s : option string) : option string :=
  match s with
  | Some p => if truthy_string p then Some p else None
  | None => None
  end.

(** An array length as a number. *)
Definition number_of_nat (n : nat) : float := of_uint63 (Uint63.of_Z (Z.of_nat n)).

(** [s.split(sep)] for a one-character separator; [cur] is the segment being
    read. *)
Fixpoint split_from (sep : ascii) (cur s : string) : list string :=
  match s with
  | EmptyString => [cur]
  | String c s' =>
      if Ascii.eqb c sep then cur :: split_from sep EmptyString s'
      else split_from sep (cur ++ String c EmptyString) s'
  end.

Definition split (sep : ascii) (s : string) : list string :=
  split_from sep EmptyString s.

(** [a.pop()]: the last element, [undefined] on an empty array. *)
Definition pop (a : list string) : option string := last a.

End JS.

Module Math.

(** [Math.max(a, b)]: [NaN] if either is, and [+0] above [-0]. *)
Definition max (a b : float) : float :=
  if is_nan a || is_nan b then nan
  else if (a <? b)%float then b
  else if (b <? a)%float then a
  else if get_sign a then b else a.

(** [Math.min(a, b)]: [NaN] if either is, and [-0] below [+0]. *)
Definition min (a b : float) : float :=
  if is_nan a || is_nan b then nan
  else if (a <? b)%float then a
  else if (b <? a)%float then b
  else if get_sign a then a else b.

End Math.

(** ** THREE.Vector3

    The methods of three.js mutate [this] and return it; here each returns the
    new value of [this], and a caller that keeps using the receiver uses the
    returned value. *)

Module Vector3.

Record t := mk { x : float; y : float; z : float }.

Definition new : t := mk 0 0 0.

Definition set (this : t) (x' y' z' : float) : t := mk x' y' z'.

Definition set_y (this : t) (y' : float) : t := mk (x this) y' (z this).

Definition copy (this v : t) : t := mk (x v) (y v) (z v).

Definition add (this v : t) : t :=
  mk (x this + x v) (y this + y v) (z this + z v).

Definition sub (this v : t) : t :=
  mk (x this - x v) (y this - y v) (z this - z v).

Definition subVectors (a b : t) : t :=
  mk (x a - x b) (y a - y b) (z a - z b).

Definition multiplyScalar (this : t) (s : float) : t :=
  mk (x this * s) (y this * s) (z this * s).

Definition divideScalar (this : t) (s : float) : t :=
  multiplyScalar this (1 / s).

Definition lengthSq (this : t) : float :=
  x this * x this + y this * y this + z this * z this.

Definition length (this : t) : float := sqrt (lengthSq this).

(** [divideScalar(this.length() || 1)] *)
Definition normalize (this : t) : t :=
  let l := length this in
  divideScalar this (if JS.truthy_number l then l else 1).

End Vector3.

(** ** Data model *)

Inductive NodeType := file | folder.

Definition NodeType_eqb (a b : NodeType) : bool :=
  match a, b with
  | file, file | folder, folder => true
  | _, _ => false
  end.

#[global] Instance NodeType_eq_dec : EqDecision NodeType.
Proof. solve_decision. Defined.

(** [interface FileNode]; an optional field is an [option]. *)
Inductive FileNode := mkFileNode {
  name : string;
  type : NodeType;
  children : option (list FileNode);
  loc : option float;
  content : option string;
  url : option string
}.

Module SimulationNode.

Record t := mk {
  id : string;
  type : NodeType;
  position : Vector3.t;
  velocity : Vector3.t;
  radius : float;
  targetHeight : float;
  parentId : option string;
  childrenIds : list string;
  codeSnippet : option string;
  loc : float;
  url : option string
}.

Definition with_position (p : Vector3.t) (n : t) : t :=
  mk (id n) (type n) p (velocity n) (radius n) (targetHeight n)
     (parentId n) (childrenIds n) (codeSnippet n) (loc n) (url n).

Definition with_velocity (v : Vector3.t) (n : t) : t :=
  mk (id n) (type n) (position n) v (radius n) (targetHeight n)
     (parentId n) (childrenIds n) (codeSnippet n) (loc n) (url n).

(** [n.childrenIds.push(c)] *)
Definition push_child (c : string) (n : t) : t :=
  mk (id n) (type n) (position n) (velocity n) (radius n) (targetHeight n)
     (parentId n) (childrenIds n ++ [c]) (codeSnippet n) (loc n) (url n).

End SimulationNode.

Module CityNode.

Record t := mk {
  id : string;
  position : float * float * float;
  size : float * float * float;
  type : NodeType;
  codeSnippet : option string;
  parentId : option string;
  loc : float;
  lastModified : float;
  extension : string;
  url : option string
}.

End CityNode.

(** ** The host *)

(** [Math_random k] is what the [k]-th call of [Math.random()] of a run
    returns, [Date_now k] what the [k]-th call of [Date.now()] returns. *)
Record Host := {
  Math_log : float → float;
  Math_random : nat → float;
  Date_now : nat → float
}.

(** The mutable state of one call of [generateCityLayout]: the [nodes] array
    and how many random numbers were drawn. *)
Record Store := {
  nodes : list SimulationNode.t;
  draws : nat
}.

Definition find_by_id (i : string) (ns : list SimulationNode.t)
  : option (nat * SimulationNode.t) :=
  list_find (λ n, SimulationNode.id n = i) ns.

Section Engine.

Variable host : Host.

Local Open Scope float_scope.

(** *** 1. Flatten the tree *)

Definition node_id (node : FileNode) (parentId : option string) : string :=
  match JS.truthy_ref parentId with
  | Some p => p ++ "/" ++ name node
  | None => name node
  end.

Definition node_radius (ty : NodeType) : float :=
  if NodeType_eqb ty file then 5 else 10.

(** [node.loc || 0] *)
Definition node_loc (node : FileNode) : float :=
  match loc node with
  | Some l => if JS.truthy_number l then l else 0
  | None => 0
  end.

Definition node_height (node : FileNode) : float :=
  if NodeType_eqb (type node) file
  then Math.max 2 (Math.min (node_loc node * 0.5) 100)
  else 1.

(** The initial position of a new record, and the number of draws after
    it. *)
Definition initial_position (parentId : option string) (st : Store)
  : Vector3.t * nat :=
  match JS.truthy_ref parentId with
  | Some p =>
      match find_by_id p (nodes st) with
      | Some (_, parentNode) =>
          let k := draws st in
          (Vector3.add
             (Vector3.copy Vector3.new (SimulationNode.position parentNode))
             (Vector3.mk ((Math_random host k - 0.5) * 100) 0
                         ((Math_random host (S k) - 0.5) * 100)),
           S (S k))
      | None => (Vector3.new, draws st)
      end
  | None => (Vector3.new, draws st)
  end.

(** [if (parentId) { parent = nodes.find(..); if (parent) parent.childrenIds.push(id) }] *)
Definition link_to_parent (parentId : option string) (id : string)
    (ns : list SimulationNode.t) : list SimulationNode.t :=
  match JS.truthy_ref parentId with
  | Some p =>
      match find_by_id p ns with
      | Some (i, _) => alter (SimulationNode.push_child id) i ns
      | None => ns
      end
  | None => ns
  end.

(** The body of [flatten] up to the recursive calls. *)
Definition visit (node : FileNode) (parentId : option string) (st : Store)
  : Store :=
  let id := node_id node parentId in
  let '(position, k) := initial_position parentId st in
  let simNode :=
    SimulationNode.mk id (type node) position Vector3.new
      (node_radius (type node)) (node_height node) parentId []
      (content node) (node_loc node) (url node) in
  {| nodes := link_to_parent parentId id (nodes st ++ [simNode]);
     draws := k |}.

Fixpoint flatten (node : FileNode) (parentId : option string) (st : Store)
  : Store :=
  if (400 <=? length (nodes st))%nat then st
  else
    let st' := visit node parentId st in
    match children node with
    | Some cs =>
        fold_left
          (λ s child, flatten child (Some (node_id node parentId)) s) cs st'
    | None => st'
    end.

(** *** 2. The force simulation *)

Definition spacingMultiplier (nodeCount : nat) : float :=
  Math.max 1 (Math_log host (JS.number_of_nat nodeCount) * 0.5).

Definition REPULSION_STRENGTH (sm : float) : float := 2000 * sm.
Definition ATTRACTION_STRENGTH (sm : float) : float := 0.01 / sm.
Definition PADDING (sm : float) : float := 15 * sm.
Definition DAMPING : float := 0.9.
Definition TIME_STEP : float := 0.1.

(** A. One step of the inner repulsion loop: [acc] is the force so far and
    the number of draws. *)
Definition repel (sm : float) (node : SimulationNode.t)
    (acc : Vector3.t * nat) (other : SimulationNode.t) : Vector3.t * nat :=
  let '(force, k) := acc in
  if decide (SimulationNode.id node = SimulationNode.id other) then acc
  else
    let diff :=
      Vector3.set_y
        (Vector3.subVectors (SimulationNode.position node)
                            (SimulationNode.position other)) 0 in
    let distSq := Vector3.lengthSq diff in
    let '(diff, k) :=
      if distSq <? 0.1
      then (Vector3.normalize
              (Vector3.set diff (Math_random host k - 0.5) 0
                                (Math_random host (S k) - 0.5)),
            S (S k))
      else (diff, k) in
    let minDist :=
      SimulationNode.radius node + SimulationNode.radius other + PADDING sm in
    if distSq <? minDist * minDist * 4
    then
      let strength := REPULSION_STRENGTH sm / (distSq + 0.1) in
      (Vector3.add force
         (Vector3.multiplyScalar (Vector3.normalize diff) strength), k)
    else (force, k).

(** B. Attraction of a child to its parent, of a root to the origin. *)
Definition attract (sm : float) (ns : list SimulationNode.t)
    (node : SimulationNode.t) (force : Vector3.t) : Vector3.t :=
  match JS.truthy_ref (SimulationNode.parentId node) with
  | Some p =>
      match find_by_id p ns with
      | Some (_, parent) =>
          let diff :=
            Vector3.set_y
              (Vector3.subVectors (SimulationNode.position parent)
                                  (SimulationNode.position node)) 0 in
          Vector3.add force
            (Vector3.multiplyScalar diff (ATTRACTION_STRENGTH sm))
      | None => force
      end
  | None =>
      let diff :=
        Vector3.set_y
          (Vector3.subVectors Vector3.new (SimulationNode.position node)) 0 in
      Vector3.add force
        (Vector3.multiplyScalar diff (ATTRACTION_STRENGTH sm))
  end.

(** The force on [node], and the number of draws after computing it. *)
Definition net_force (sm : float) (ns : list SimulationNode.t)
    (node : SimulationNode.t) (k : nat) : Vector3.t * nat :=
  let '(force, k') := fold_left (repel sm node) ns (Vector3.new, k) in
  (attract sm ns node force, k').

(** [node.velocity.add(force.multiplyScalar(TIME_STEP))] *)
Definition accelerate (force : Vector3.t) (n : SimulationNode.t)
  : SimulationNode.t :=
  SimulationNode.with_velocity
    (Vector3.add (SimulationNode.velocity n)
                 (Vector3.multiplyScalar force TIME_STEP)) n.

(** The body of the first [nodes.forEach] for the node at index [i]. *)
Definition apply_force (sm : float) (st : Store) (i : nat) : Store :=
  match nodes st !! i with
  | Some node =>
      let '(force, k) := net_force sm (nodes st) node (draws st) in
      {| nodes := alter (accelerate force) i (nodes st); draws := k |}
  | None => st
  end.

Definition apply_forces (sm : float) (st : Store) : Store :=
  fold_left (apply_force sm) (seq 0 (length (nodes st))) st.

(** The body of the second [nodes.forEach].  [multiplyScalar] rescales the
    vector it is called on, so the velocity that is added to the position,
    scaled by [TIME_STEP], is also the velocity the node keeps. *)
Definition integrate (n : SimulationNode.t) : SimulationNode.t :=
  let v1 := Vector3.multiplyScalar (SimulationNode.velocity n) DAMPING in
  let v2 := Vector3.multiplyScalar v1 TIME_STEP in
  let p := Vector3.add (SimulationNode.position n) v2 in
  SimulationNode.with_position (Vector3.set_y p 0)
    (SimulationNode.with_velocity v2 n).

Definition move_by (c : Vector3.t) (n : SimulationNode.t) : SimulationNode.t :=
  SimulationNode.with_position (Vector3.add (SimulationNode.position n) c) n.

Definition move_back (c : Vector3.t) (n : SimulationNode.t) : SimulationNode.t :=
  SimulationNode.with_position (Vector3.sub (SimulationNode.position n) c) n.

(** C. The body of the innermost collision loop for the nodes at [i] and
    [j]. *)
Definition resolve_pair (sm : float) (ns : list SimulationNode.t) (i j : nat)
  : list SimulationNode.t :=
  match ns !! i, ns !! j with
  | Some node, Some other =>
      if decide (SimulationNode.id node = SimulationNode.id other) then ns
      else
        let diff :=
          Vector3.set_y
            (Vector3.subVectors (SimulationNode.position node)
                                (SimulationNode.position other)) 0 in
        let dist := Vector3.length diff in
        let minDist :=
          SimulationNode.radius node + SimulationNode.radius other
          + PADDING sm in
        if dist <? minDist
        then
          let overlap := minDist - dist in
          let correction :=
            Vector3.multiplyScalar (Vector3.normalize diff) (overlap * 0.5) in
          alter (move_back correction) j (alter (move_by correction) i ns)
        else ns
  | _, _ => ns
  end.

Definition resolve_node (sm : float) (ns : list SimulationNode.t) (i : nat)
  : list SimulationNode.t :=
  fold_left (λ ns' j, resolve_pair sm ns' i j) (seq 0 (length ns)) ns.

Definition resolve_collisions (sm : float) (ns : list SimulationNode.t)
  : list SimulationNode.t :=
  fold_left (resolve_node sm) (seq 0 (length ns)) ns.

(** One iteration of the outer loop. *)
Definition iteration (sm : float) (st : Store) : Store :=
  let st1 := apply_forces sm st in
  let ns2 := integrate <$> nodes st1 in
  let ns3 := Nat.iter 2 (resolve_collisions sm) ns2 in
  {| nodes := ns3; draws := draws st1 |}.

Definition simulate (iterations : nat) (st : Store) : Store :=
  Nat.iter iterations (iteration (spacingMultiplier (length (nodes st)))) st.

(** *** 3. Convert to the output format *)

(** [node.id.split('.').pop() || 'txt'] *)
Definition extension_of_id (id : string) : string :=
  match JS.pop (JS.split "."%char id) with
  | Some s => JS.or_string s "txt"
  | None => "txt"
  end.

(** The record of the node at index [i], when [k] random numbers were drawn
    before the conversion started. *)
Definition toCityNode (k : nat) (i : nat) (node : SimulationNode.t)
  : CityNode.t :=
  let p := SimulationNode.position node in
  let r := SimulationNode.radius node in
  let h := SimulationNode.targetHeight node in
  CityNode.mk
    (SimulationNode.id node)
    (Vector3.x p, h / 2, Vector3.z p)
    (r * 1.5, h, r * 1.5)
    (SimulationNode.type node)
    (SimulationNode.codeSnippet node)
    (JS.truthy_ref (SimulationNode.parentId node))
    (SimulationNode.loc node)
    (Date_now host i - Math_random host (k + i) * 1000 * 60 * 60 * 24 * 30)
    (if NodeType_eqb (SimulationNode.type node) file
     then extension_of_id (SimulationNode.id node) else "folder")
    (SimulationNode.url node).

Definition empty_store : Store := {| nodes := []; draws := 0 |}.

(** The working records after the simulation. *)
Definition layout_state (root : FileNode) (iterations : nat) : Store :=
  simulate iterations (flatten root None empty_store).

Definition generateCityLayout (root : FileNode) (iterations : nat)
  : list CityNode.t :=
  let st := layout_state root iterations in
  imap (toCityNode (draws st)) (nodes st).

End Engine.

(** The default value of the [iterations] parameter. *)
Definition default_iterations : nat := 50.

(** ** The input tree as the specification sees it *)

Definition children_list (node : FileNode) : list FileNode :=
  default [] (children node).

(** Induction on a tree, with the property known of every child. *)
Section FileNode_induction.

Variable P : FileNode → Prop.
Hypothesis step : ∀ node, Forall P (children_list node) → P node.

Fixpoint FileNode_children_ind (node : FileNode) : P node :=
  step node
    (match node return Forall P (children_list node) with
     | mkFileNode _ _ cs _ _ _ =>
         match cs return Forall P (default [] cs) with
         | Some l =>
             (fix all (l : list FileNode) : Forall P l :=
                match l with
                | [] => @List.Forall_nil _ P
                | c :: l' =>
                    @List.Forall_cons _ P c l' (FileNode_children_ind c) (all l')
                end) l
         | None => @List.Forall_nil _ P
         end
     end).

End FileNode_induction.

(** The number of nodes of a tree. *)
Fixpoint totalNodes (node : FileNode) : nat :=
  S (match children node with
     | Some cs => list_sum (totalNodes <$> cs)
     | None => 0
     end).

(** One step of the depth-first traversal: the node, the id its parent was
    given, and the position of its parent in the traversal ([None] for the
    root). *)
Record Visit := {
  v_node : FileNode;
  v_parentId : option string;
  v_parent : option nat
}.

(** The id the engine gives the node of a visit: [node_id], which tests the
    id of the parent for truthiness.  The ids of the specification are
    [spec_ids] below. *)
Definition visit_id (v : Visit) : string := node_id (v_node v) (v_parentId v).

(** Depth-first preorder traversal, children in input order; [start] is the
    position of [node] in the whole traversal. *)
Fixpoint walk (node : FileNode) (parentId : option string) (parent : option nat)
    (start : nat) : list Visit :=
  {| v_node := node; v_parentId := parentId; v_parent := parent |}
  :: match children node with
     | Some cs =>
         (fix walk_children (cs : list FileNode) (next : nat) : list Visit :=
            match cs with
            | [] => []
            | c :: cs' =>
                let vs :=
                  walk c (Some (node_id node parentId)) (Some start) next in
                vs ++ walk_children cs' (next + length vs)
            end) cs (S start)
     | None => []
     end.

(** The traversal of the children [cs] of the node with id [id] at position
    [parent], the first of them at position [next]. *)
Fixpoint walk_all (id : string) (parent : nat) (cs : list FileNode) (next : nat)
  : list Visit :=
  match cs with
  | [] => []
  | c :: cs' =>
      let vs := walk c (Some id) (Some parent) next in
      vs ++ walk_all id parent cs' (next + length vs)
  end.

Definition preorder (root : FileNode) : list Visit := walk root None None 0.

(** What [flatten] stores for a visited node, the fields it computes later
    left blank. *)
Definition record_of_visit (v : Visit) : SimulationNode.t :=
  SimulationNode.mk (visit_id v) (type (v_node v)) Vector3.new Vector3.new
    (node_radius (type (v_node v))) (node_height (v_node v)) (v_parentId v) []
    (content (v_node v)) (node_loc (v_node v)) (url (v_node v)).

(** The fields of a working record that the simulation never writes. *)
Definition fixed (n : SimulationNode.t) : SimulationNode.t :=
  SimulationNode.with_position Vector3.new
    (SimulationNode.with_velocity Vector3.new n).

(** A working record without its position, velocity and list of children. *)
Definition static (n : SimulationNode.t) : SimulationNode.t :=
  SimulationNode.mk (SimulationNode.id n) (SimulationNode.type n)
    Vector3.new Vector3.new (SimulationNode.radius n)
    (SimulationNode.targetHeight n) (SimulationNode.parentId n) []
    (SimulationNode.codeSnippet n) (SimulationNode.loc n)
    (SimulationNode.url n).

(** [clamp(x, lo, hi)] *)
Definition clamp (x lo hi : float) : float := Math.max lo (Math.min x hi).

(** ** Properties of [flatten], node by node *)

(** The [forEach] over the children [cs] of the node with id [id]. *)
Definition flatten_all (host : Host) (id : string) (cs : list FileNode)
    (st : Store) : Store :=
  fold_left (λ s child, flatten host child (Some id) s) cs st.

(** The record a visit pushes. *)
Definition new_record (host : Host) (node : FileNode)
    (parentId : option string) (st : Store) : SimulationNode.t :=
  SimulationNode.mk (node_id node parentId) (type node)
    (initial_position host parentId st).1 Vector3.new
    (node_radius (type node)) (node_height node) parentId []
    (content node) (node_loc node) (url node).

(** What a call of [flatten] on [node] leaves in [nodes], as far as the
    static fields go. *)
Definition flatten_static_at (host : Host) (node : FileNode) : Prop :=
  ∀ parentId parent start st,
    length (nodes st) ≤ 400 →
    static <$> nodes (flatten host node parentId st)
    = take 400 ((static <$> nodes st)
                ++ (record_of_visit <$> walk node parentId parent start)).

(** [flatten] never moves a record it has placed. *)
Definition flatten_keeps_positions_at (host : Host) (node : FileNode) : Prop :=
  ∀ parentId st,
    (SimulationNode.position <$> nodes st)
    `prefix_of` (SimulationNode.position
                   <$> nodes (flatten host node parentId st)).

(** ** What the exported records show *)

(** What an exported record shows of a working record's static fields: every
    field but the horizontal position and [lastModified]. *)
Record Observable := {
  o_id : string;
  o_type : NodeType;
  o_parentId : option string;
  o_height : float;
  o_size : float * float * float;
  o_codeSnippet : option string;
  o_loc : float;
  o_extension : string;
  o_url : option string
}.

Definition observe (c : CityNode.t) : Observable :=
  {| o_id := CityNode.id c;
     o_type := CityNode.type c;
     o_parentId := CityNode.parentId c;
     o_height := snd (fst (CityNode.position c));
     o_size := CityNode.size c;
     o_codeSnippet := CityNode.codeSnippet c;
     o_loc := CityNode.loc c;
     o_extension := CityNode.extension c;
     o_url := CityNode.url c |}.

(** The horizontal coordinates (x, z) of an exported record. *)
Definition horizontal (c : CityNode.t) : float * float :=
  (fst (fst (CityNode.position c)), snd (CityNode.position c)).



(** The [loc] of an input node, taken as 0 when it is absent (or is not a
    number). *)
Definition given_loc (node : FileNode) : float :=
  match loc node with
  | Some l => if is_nan l then 0%float else l
  | None => 0%float
  end.

(** The height the specification gives a node. *)
Definition expected_height (node : FileNode) : float :=
  match type node with
  | file => clamp (given_loc node * 0.5) 2 100
  | folder => 1
  end.

(** The record [flatten] creates for a root. *)
Definition root_record (node : FileNode) : SimulationNode.t :=
  SimulationNode.mk (name node) (type node) Vector3.new Vector3.new
    (node_radius (type node)) (node_height node) None []
    (content node) (node_loc node) (url node).

(** ** The integration step in the words of the specification *)

(** The integration step as the specification words it: the velocity is
    damped, and the position moves by the damped velocity times the time
    step; the velocity kept is the damped one. *)
Definition integrate_as_specified (n : SimulationNode.t) : SimulationNode.t :=
  let v := Vector3.multiplyScalar (SimulationNode.velocity n) DAMPING in
  let p :=
    Vector3.add (SimulationNode.position n)
      (Vector3.multiplyScalar v TIME_STEP) in
  SimulationNode.with_position (Vector3.set_y p 0)
    (SimulationNode.with_velocity v n).

(** ** Parent references

    A record refers to its parent by id, and [nodes.find] resolves the
    reference to the first record with that id.  What the engine links
    depends on the ids and the parent references alone. *)

(** The id of a record and its reference to a parent. *)
Definition Link : Type := string * option string.

Definition link_of (r : SimulationNode.t) : Link :=
  (SimulationNode.id r, SimulationNode.parentId r).

Definition link_of_visit (v : Visit) : Link := (visit_id v, v_parentId v).

(** The index [nodes.find(n => n.id === p)] stops at. *)
Definition slot_of (ids : list string) (p : string) : option nat :=
  fst <$> list_find (λ i, i = p) ids.

(** The index of the record the engine takes for the parent of [e]. *)
Definition link_slot (L : list Link) (e : Link) : option nat :=
  JS.truthy_ref e.2 ≫= slot_of L.*1.

(** The ids of the records that take the one at index [k] for their
    parent, in the order of the sequence. *)
Definition children_of (L : list Link) (k : nat) : list string :=
  (filter (λ e, link_slot L e = Some k) L).*1.

(** Every reference is resolved, to an earlier record. *)
Definition anchored (L : list Link) : Prop :=
  ∀ k e p,
    L !! k = Some e → JS.truthy_ref e.2 = Some p →
    ∃ j, slot_of L.*1 p = Some j ∧ j < k.

(** Every record lists the records that take it for their parent. *)
Definition linked (ns : list SimulationNode.t) : Prop :=
  ∀ k r,
    ns !! k = Some r →
    SimulationNode.childrenIds r = children_of (link_of <$> ns) k.

(** A reference that [flatten] is called with is resolved. *)
Definition known (ids : list string) (parentId : option string) : Prop :=
  ∀ p, JS.truthy_ref parentId = Some p → is_Some (slot_of ids p).

(** The two facts about links that every call of [flatten] keeps. *)
Definition well_linked (ns : list SimulationNode.t) : Prop :=
  linked ns ∧ anchored (link_of <$> ns).

(** A call of [flatten] on [node] keeps the records well linked. *)
Definition flatten_well_linked_at (host : Host) (node : FileNode) : Prop :=
  ∀ parentId st,
    length (nodes st) ≤ 400 →
    well_linked (nodes st) →
    known (link_of <$> nodes st).*1 parentId →
    well_linked (nodes (flatten host node parentId st)).

(** A visit is the first of its walk, or its parent is an earlier visit of
    the walk, and its parent reference is the id of that visit. *)
Definition walk_parents_at (node : FileNode) : Prop :=
  ∀ parentId parent start i v,
    walk node parentId parent start !! i = Some v →
    (i = 0 ∧ v_parent v = parent ∧ v_parentId v = parentId ∧ v_node v = node)
    ∨ ∃ j vp,
        j < i ∧ walk node parentId parent start !! j = Some vp
        ∧ v_parent v = Some (start + j)
        ∧ v_parentId v = Some (visit_id vp).

(** ** Adjacency *)

(** Every record with a parent reference refers to the id of a record that
    occurs strictly earlier. *)
Definition parents_precede (ns : list SimulationNode.t) : Prop :=
  ∀ k r p,
    ns !! k = Some r → SimulationNode.parentId r = Some p →
    ∃ j rp, j < k ∧ ns !! j = Some rp ∧ SimulationNode.id rp = p.

(** The adjacency of the working records [ns] is that of the tree: the
    record at [k] has the id and the parent reference of the [k]-th visit, a
    record of a node with a parent refers to the earlier record of that
    parent, and it lists the ids of the visited children of its node, in
    input order. *)
Definition adjacency_consistent (root : FileNode)
    (ns : list SimulationNode.t) : Prop :=
  let vs := take 400 (preorder root) in
  link_of <$> ns = link_of_visit <$> vs
  ∧ ∀ k v r,
      vs !! k = Some v → ns !! k = Some r →
      (∀ j, v_parent v = Some j →
            j < k ∧ ∃ rp, ns !! j = Some rp
                          ∧ SimulationNode.parentId r
                            = Some (SimulationNode.id rp))
      ∧ SimulationNode.childrenIds r
        = visit_id <$> filter (λ c, v_parent c = Some k) vs.

(** ** Initial placement *)

(** The one-time offset of a new record from its parent, from the draws [d]
    and [d + 1]. *)
Definition jitter (host : Host) (d : nat) : Vector3.t :=
  Vector3.mk ((Math_random host d - 0.5) * 100) 0
             ((Math_random host (S d) - 0.5) * 100).

(** Where [flatten] puts the records with links [L]: a record without a
    resolved parent at the origin, the [k]-th record otherwise at the position
    of the record its reference resolves to, plus the jitter of the draws
    [2 (k - 1)] and [2 (k - 1) + 1]. *)
Definition placed_at (host : Host) (L : list Link) (P : list Vector3.t) : Prop :=
  ∀ k e pos,
    L !! k = Some e → P !! k = Some pos →
    pos = match link_slot L e with
          | Some j =>
              match P !! j with
              | Some pp =>
                  Vector3.add (Vector3.copy Vector3.new pp)
                    (jitter host (2 * (k - 1)))
              | None => Vector3.new
              end
          | None => Vector3.new
          end.

(** The records are where [placed_at] says, and two numbers were drawn for
    each of them but the first. *)
Definition placed (host : Host) (st : Store) : Prop :=
  placed_at host (link_of <$> nodes st) (SimulationNode.position <$> nodes st)
  ∧ draws st = 2 * (length (nodes st) - 1).

(** [flatten] is called on the root with no record yet, and on any other node
    with a truthy reference and some record. *)
Definition callable (ns : list SimulationNode.t) (parentId : option string)
  : Prop :=
  match JS.truthy_ref parentId with
  | Some _ => ns ≠ []
  | None => ns = []
  end.

(** A call of [flatten] on [node] keeps the records placed. *)
Definition flatten_placed_at (host : Host) (node : FileNode) : Prop :=
  ∀ parentId st,
    length (nodes st) ≤ 400 →
    well_linked (nodes st) →
    known (link_of <$> nodes st).*1 parentId →
    callable (nodes st) parentId →
    (JS.truthy_ref parentId = None → name node ≠ "") →
    placed host st → placed host (flatten host node parentId st).

(** The exported horizontal positions are the initial placement of the
    tree: the root at the origin, and the [k]-th record otherwise at the
    exported position of the record of its parent, plus the jitter of the
    draws [2 (k - 1)] and [2 (k - 1) + 1]. *)
Definition initial_placement (host : Host) (root : FileNode)
    (out : list CityNode.t) : Prop :=
  ∀ k v c,
    take 400 (preorder root) !! k = Some v → out !! k = Some c →
    match v_parent v with
    | None => horizontal c = (0, 0)%float
    | Some j =>
        ∃ pc,
          out !! j = Some pc
          ∧ horizontal c
            = ((fst (horizontal pc)
                + (Math_random host (2 * (k - 1)) - 0.5) * 100)%float,
               (snd (horizontal pc)
                + (Math_random host (S (2 * (k - 1))) - 0.5) * 100)%float)
    end.

(** ** Trees and hosts of the examples *)

(** Scenario A: a root folder "repo" and nothing else. *)
Definition repo_only : FileNode :=
  mkFileNode "repo" folder None None None None.

(** Scenario B: a root folder "repo" with one file "a.ts" of 100 lines. *)
Definition repo_with_a_ts : FileNode :=
  mkFileNode "repo" folder
    (Some [mkFileNode "a.ts" file None (Some 100%float) None None])
    None None None.

(** A root folder "repo" with one file "Makefile". *)
Definition repo_with_makefile : FileNode :=
  mkFileNode "repo" folder
    (Some [mkFileNode "Makefile" file None None None None]) None None None.

(** A root without a name, with one file. *)
Definition nameless_root : FileNode :=
  mkFileNode "" folder
    (Some [mkFileNode "a" file None None None None]) None None None.

(** Two folders of the same name under one root, the second with a file. *)
Definition twin_folders : FileNode :=
  mkFileNode "r" folder
    (Some [mkFileNode "a" folder None None None None;
           mkFileNode "a" folder
             (Some [mkFileNode "b" file None None None None])
             None None None])
    None None None.

(** A host whose logarithm is exact at 1 and correctly rounded at 2, and whose
    random source and clock are constant. *)
Definition constant_host (r now : float) : Host :=
  {| Math_log := λ x, if (x =? 1)%float then 0%float
                      else 0.6931471805599453%float;
     Math_random := λ _, r;
     Date_now := λ _, now |}.

(** A host whose [k]-th random number is [k / 64]. *)
Definition counting_host : Host :=
  {| Math_log := λ x, if (x =? 1)%float then 0%float
                      else 0.6931471805599453%float;
     Math_random := λ k, (JS.number_of_nat k / 64)%float;
     Date_now := λ _, 0%float |}.

(** The working records of [root] when the first iteration has applied the
    forces to the velocities and is about to integrate. *)
Definition before_first_integration (host : Host) (root : FileNode)
  : list SimulationNode.t :=
  let st := flatten host root None empty_store in
  nodes (apply_forces host (spacingMultiplier host (length (nodes st))) st).

(** The records of "repo" with "a.ts" when every draw is 0.5: the file is
    placed on the root. *)
Definition coincident_records : list SimulationNode.t :=
  Eval vm_compute in
    nodes (flatten (constant_host 0.5 0) repo_with_a_ts None empty_store).

(** ** Names and paths *)

(** The character [c] does not occur in [s]. *)
Fixpoint char_free (c : ascii) (s : string) : bool :=
  match s with
  | EmptyString => true
  | String a s' => negb (Ascii.eqb a c) && char_free c s'
  end.

(** A tree in which the children of every node have pairwise distinct names
    without a "/"; the name of the root is not constrained. *)
Fixpoint tidy (node : FileNode) : bool :=
  match children node with
  | Some cs =>
      bool_decide (NoDup (name <$> cs))
      && forallb (λ c, char_free "/" (name c) && tidy c) cs
  | None => true
  end.

(** The id the specification gives a node: the id of its parent, "/" and its
    name, and its own name for the root. *)
Definition path_id (parentId : option string) (node : FileNode) : string :=
  match parentId with
  | Some p => p ++ "/" ++ name node
  | None => name node
  end.

(** The ids as the specification gives them, in depth-first preorder with
    the children in input order: the name for the root, and for any other
    node the id of its parent, "/" and its name. *)
Fixpoint spec_ids (node : FileNode) (parentId : option string) : list string :=
  path_id parentId node
  :: match children node with
     | Some cs =>
         (fix below (cs : list FileNode) : list string :=
            match cs with
            | [] => []
            | c :: cs' =>
                spec_ids c (Some (path_id parentId node)) ++ below cs'
            end) cs
     | None => []
     end.

(** The id [i] is the path [p] or a path below it. *)
Definition under (p i : string) : Prop :=
  i = p ∨ ∃ rest, i = p +:+ "/" +:+ rest.

(** The ids of a walk of [node] are pairwise distinct paths under the id of
    [node]. *)
Definition walk_ids_distinct_at (node : FileNode) : Prop :=
  ∀ parentId parent start,
    tidy node = true →
    JS.truthy_string (node_id node parentId) = true →
    let ids := visit_id <$> walk node parentId parent start in
    NoDup ids ∧ Forall (under (node_id node parentId)) ids.

(** ** District labels

    The labels [DistrictLabels] of [components/CityScene.tsx] computes from a
    layout, one for each folder record. *)

Module Label.

Record t := mk {
  id : string;
  name : string;
  position : float * float * float
}.

End Label.

(** [layout.filter(n => n.parentId === folder.id)] *)
Definition district_children (layout : list CityNode.t) (folder : CityNode.t)
  : list CityNode.t :=
  filter (λ n, CityNode.parentId n = Some (CityNode.id folder)) layout.

(** The [reduce] that adds up the positions of the children. *)
Definition sum_positions (children : list CityNode.t) : float * float * float :=
  fold_left
    (λ acc child,
       let '(a0, a1, a2) := acc in
       let '(c0, c1, c2) := CityNode.position child in
       (a0 + c0, a1 + c1, a2 + c2)%float)
    children (0, 0, 0)%float.

(** The centroid of the children raised by 50, and the position of the
    folder raised by 50 when it has none. *)
Definition label_position (layout : list CityNode.t) (folder : CityNode.t)
  : float * float * float :=
  let children := district_children layout folder in
  if (0 <? length children)%nat
  then
    let '(s0, s1, s2) := sum_positions children in
    let n := JS.number_of_nat (length children) in
    ((s0 / n)%float, (s1 / n + 50)%float, (s2 / n)%float)
  else
    let '(x, y, z) := CityNode.position folder in (x, (y + 50)%float, z).

(** [folder.id.split('/').pop() || folder.id] *)
Definition label_name (id : string) : string :=
  match JS.pop (JS.split "/" id) with
  | Some s => JS.or_string s id
  | None => id
  end.

Definition district_label (layout : list CityNode.t) (folder : CityNode.t)
  : Label.t :=
  Label.mk (CityNode.id folder) (label_name (CityNode.id folder))
    (label_position layout folder).

Definition DistrictLabels (layout : list CityNode.t) : list Label.t :=
  district_label layout <$> filter (λ n, CityNode.type n = folder) layout.

(** The id and the parent of an exported record. *)
Definition exported_link (c : CityNode.t) : Link :=
  (CityNode.id c, CityNode.parentId c).

(** The link of a working record as it is exported. *)
Definition export_link (e : Link) : Link := (e.1, JS.truthy_ref e.2).

(** ** The repository fetcher

    The steps of [fetchRepo] in [hooks/useRepoFetcher.ts] that compute: the
    owner and the repository read off the URL, the cache key, and the tree
    built from the listing of the repository. *)

(** [s] without its prefix [pat], when it has that prefix. *)
Fixpoint strip_prefix (pat s : string) : option string :=
  match pat, s with
  | EmptyString, _ => Some s
  | String a pat', String b s' =>
      if Ascii.eqb a b then strip_prefix pat' s' else None
  | String _ _, EmptyString => None
  end.

(** [s.replace(pat, '')] for a string [pat]: the first occurrence goes. *)
Fixpoint remove_first (pat s : string) : string :=
  match strip_prefix pat s with
  | Some rest => rest
  | None =>
      match s with
      | EmptyString => EmptyString
      | String c s' => String c (remove_first pat s')
      end
  end.

(** [s.replace(/\/$/, '')]: a "/" at the very end goes. *)
Fixpoint strip_trailing_slash (s : string) : string :=
  match s with
  | EmptyString => EmptyString
  | String c s' =>
      if Ascii.eqb c "/" && String.eqb s' "" then EmptyString
      else String c (strip_trailing_slash s')
  end.

(** The message of the error step 1 throws. *)
Definition invalid_url : string := "Invalid Repository URL. Format: owner/repo".

(** Step 1: the owner and the repository, or the message of the error
    thrown. *)
Definition parse_repo (repoUrl : string) : string + (string * string) :=
  let cleanUrl :=
    strip_trailing_slash (remove_first "https://github.com/" repoUrl) in
  let parts := JS.split "/" cleanUrl in
  match JS.truthy_ref (parts !! 0), JS.truthy_ref (parts !! 1) with
  | Some owner, Some repo => inr (owner, repo)
  | _, _ => inl invalid_url
  end.

Definition cacheKey (owner repo : string) : string :=
  "repo-city-v1-" +:+ owner +:+ "-" +:+ repo.

Module GitHubTreeItem.

Record t := mk {
  path : string;
  mode : string;
  type : string;
  sha : string;
  size : option float;
  url : string
}.

End GitHubTreeItem.

(** [n.children = cs] *)
Definition with_children (cs : list FileNode) (n : FileNode) : FileNode :=
  mkFileNode (name n) (type n) (Some cs) (loc n) (content n) (url n).

(** [{ name, type: 'folder', children: [] }] *)
Definition new_folder (n : string) : FileNode :=
  mkFileNode n folder (Some []) None None None.

(** [c.name === name && c.type === 'folder'] *)
Definition is_folder_named (n : string) (c : FileNode) : Prop :=
  name c = n ∧ type c = folder.

#[global] Instance is_folder_named_dec n c : Decision (is_folder_named n c).
Proof. unfold is_folder_named. apply _. Defined.

(** [findOrCreateFolder(parent, name)], and the update [k] of the folder it
    returns: that folder is a child of [parent], so what is written to it
    later is written into [parent]. *)
Definition findOrCreateFolder (k : FileNode → FileNode) (parent : FileNode)
    (n : string) : FileNode :=
  let cs := children_list parent in
  match list_find (is_folder_named n) cs with
  | Some (i, found) => with_children (<[i := k found]> cs) parent
  | None => with_children (cs ++ [k (new_folder n)]) parent
  end.

(** [parts.forEach(part => { currentDir = findOrCreateFolder(currentDir, part) })]
    from [dir], and the update [k] of the last [currentDir]. *)
Fixpoint descend (k : FileNode → FileNode) (parts : list string)
    (dir : FileNode) : FileNode :=
  match parts with
  | [] => k dir
  | part :: parts' => findOrCreateFolder (descend k parts') dir part
  end.

(** [dir.children.push(f)], on an empty array when there was none. *)
Definition push_file (f : FileNode) (dir : FileNode) : FileNode :=
  with_children (children_list dir ++ [f]) dir.

(** [item.path.split('/')] *)
Definition segments (item : GitHubTreeItem.t) : list string :=
  JS.split "/" (GitHubTreeItem.path item).

Section Fetcher.

(** [Math.ceil] *)
Variable Math_ceil : float → float.

(** [item.size ? Math.ceil(item.size / 30) : 0] *)
Definition item_loc (item : GitHubTreeItem.t) : float :=
  match GitHubTreeItem.size item with
  | Some s => if JS.truthy_number s then Math_ceil (s / 30) else 0
  | None => 0
  end.

Definition file_of_item (fileName : string) (item : GitHubTreeItem.t)
  : FileNode :=
  mkFileNode fileName file None (Some (item_loc item)) None
    (Some (GitHubTreeItem.url item)).

(** What is done to the directory of an item once it is reached. *)
Definition place_item (fileName : string) (item : GitHubTreeItem.t)
    (currentDir : FileNode) : FileNode :=
  if String.eqb (GitHubTreeItem.type item) "blob"
  then push_file (file_of_item fileName item) currentDir
  else if String.eqb (GitHubTreeItem.type item) "tree"
  then findOrCreateFolder id currentDir fileName
  else currentDir.

(** The body of the [forEach] over the listing. *)
Definition add_item (root : FileNode) (item : GitHubTreeItem.t) : FileNode :=
  let parts := segments item in
  let fileName := default "" (JS.pop parts) in
  descend (place_item fileName item) (removelast parts) root.

(** Step 5: the tree of the repository [repo] with the listing [items]. *)
Definition build_tree (repo : string) (items : list GitHubTreeItem.t)
  : FileNode :=
  fold_left add_item items (new_folder repo).

End Fetcher.

(** What the items [seen] account for: a node of type [ty] at the path
    [p] below the root. *)
Definition accounted (seen : list GitHubTreeItem.t) (p : list string)
    (ty : NodeType) : Prop :=
  ∃ x, x ∈ seen ∧ p `prefix_of` segments x
       ∧ (ty = file → GitHubTreeItem.type x = "blob" ∧ segments x = p).

(** Below [t], which is at the path [pre], the children of every node have
    pairwise distinct names without "/", and [A] holds of the path and the
    type of every node. *)
Fixpoint grown (A : list string → NodeType → Prop) (pre : list string)
    (t : FileNode) : Prop :=
  match children t with
  | Some cs =>
      NoDup (name <$> cs)
      ∧ (fix all (cs : list FileNode) : Prop :=
           match cs with
           | [] => True
           | c :: cs' =>
               (char_free "/" (name c) = true
                ∧ A (pre ++ [name c]) (type c)
                ∧ grown A (pre ++ [name c]) c)
               ∧ all cs'
           end) cs
  | None => True
  end.

(** A listing as git gives it: the path of a file is not the path of
    another entry, nor a directory on the path of one. *)
Definition git_like (items : list GitHubTreeItem.t) : Prop :=
  ∀ i j b x,
    items !! i = Some b → items !! j = Some x →
    GitHubTreeItem.type b = "blob" →
    segments b `prefix_of` segments x → i = j.

(** The number of files of a tree. *)
Fixpoint count_files (t : FileNode) : nat :=
  (if NodeType_eqb (type t) file then 1 else 0)
  + match children t with
    | Some cs => list_sum (count_files <$> cs)
    | None => 0
    end.

(** The number of occurrences of [c] in [s]. *)
Fixpoint count_char (c : ascii) (s : string) : nat :=
  match s with
  | EmptyString => 0
  | String a s' => (if Ascii.eqb a c then 1 else 0) + count_char c s'
  end.

(** [P] holds of every node below [t]. *)
Fixpoint all_below (P : FileNode → Prop) (t : FileNode) : Prop :=
  match children t with
  | Some cs =>
      (fix all (cs : list FileNode) : Prop :=
         match cs with
         | [] => True
         | c :: cs' => (P c ∧ all_below P c) ∧ all cs'
         end) cs
  | None => True
  end.

(** A folder as [findOrCreateFolder] makes it, whatever its children. *)
Definition plain_folder (n : FileNode) : Prop :=
  type n = folder ∧ loc n = None ∧ content n = None ∧ url n = None.

(** A node as step 5 makes it from the entries [seen]: a plain folder, or
    the file of an entry of type "blob" under the last segment of its path;
    its name has no "/". *)
Definition from_listing (Math_ceil : float → float)
    (seen : list GitHubTreeItem.t) (n : FileNode) : Prop :=
  char_free "/" (name n) = true
  ∧ (plain_folder n
     ∨ ∃ x fileName,
         x ∈ seen ∧ GitHubTreeItem.type x = "blob"
         ∧ JS.pop (segments x) = Some fileName
         ∧ n = file_of_item Math_ceil fileName x).

(** A listing of two entries: a file in a directory, and the directory. *)
Definition listing_example : list GitHubTreeItem.t :=
  [GitHubTreeItem.mk "src/a.ts" "100644" "blob" "3b18e5" None
     "https://api.github.com/a";
   GitHubTreeItem.mk "src" "040000" "tree" "9f2c41" None
     "https://api.github.com/s"].

(** The names of the folders among [cs]. *)
Definition folder_names (cs : list FileNode) : list string :=
  name <$> filter (λ c, type c = folder) cs.

(** At [t] and below, no two folders with the same parent share a name. *)
Fixpoint folders_distinct (t : FileNode) : Prop :=
  match children t with
  | Some cs =>
      NoDup (folder_names cs)
      ∧ (fix all (cs : list FileNode) : Prop :=
           match cs with
           | [] => True
           | c :: cs' => folders_distinct c ∧ all cs'
           end) cs
  | None => True
  end.

(** ** The force pass *)

(** What the force on a record depends on, of another record or itself,
    before the tie-break: the id and the position. *)
Definition place (r : SimulationNode.t) : string * Vector3.t :=
  (SimulationNode.id r, SimulationNode.position r).

(** Two records that the repulsion takes for the same record, or that are
    not within the range of its tie-break. *)
Definition apart (a b : SimulationNode.t) : Prop :=
  SimulationNode.id a = SimulationNode.id b
  ∨ (Vector3.lengthSq
       (Vector3.set_y
          (Vector3.subVectors (SimulationNode.position a)
                              (SimulationNode.position b)) 0)
     <? 0.1)%float = false.

Definition all_apart (ns : list SimulationNode.t) : Prop :=
  ∀ a b, a ∈ ns → b ∈ ns → apart a b.

(** ** Scenario B on a grid of draws *)






(** ** Lists *)

Lemma fmap_alter_inv {A B} (f : A → B) (g : A → A) (i : nat) (l : list A) :
  (∀ x, f (g x) = f x) → f <$> alter g i l = f <$> l.
Proof.
  intros Hg. revert i.
  induction l as [|a l IH]; intros [|i]; csimpl; f_equal; auto.
Qed.

Lemma fold_left_inv {A B} (P : A → Prop) (f : A → B → A) (l : list B) (a : A) :
  P a → (∀ a b, P a → P (f a b)) → P (fold_left f l a).
Proof.
  intros Ha Hf. revert a Ha. induction l as [|b l IH]; simpl; auto.
Qed.

Lemma take_take_app {A} (n : nat) (l k : list A) :
  take n (take n l ++ k) = take n (l ++ k).
Proof.
  destruct (decide (n ≤ length l)) as [Hle|Hgt].
  - rewrite (take_app_le (take n l)) by (rewrite length_take; lia).
    rewrite take_take, Nat.min_id. by rewrite take_app_le.
  - by rewrite (take_ge l) by lia.
Qed.

Lemma take_app_full {A} (n : nat) (l k : list A) :
  length l = n → take n (l ++ k) = l.
Proof.
  intros <-. rewrite take_app_le by lia. by apply take_ge.
Qed.

(** ** The traversal *)

Lemma walk_unfold node parentId parent start :
  walk node parentId parent start
  = {| v_node := node; v_parentId := parentId; v_parent := parent |}
    :: walk_all (node_id node parentId) start (children_list node) (S start).
Proof.
  destruct node as [n ty [cs|] l c u]; simpl; [|done].
  f_equal. generalize (S start).
  induction cs as [|c0 cs IH]; intros k; simpl; [done|]. by rewrite IH.
Qed.

Lemma flatten_unfold host node parentId st :
  flatten host node parentId st
  = if (400 <=? length (nodes st))%nat then st
    else fold_left (λ s child, flatten host child (Some (node_id node parentId)) s)
           (children_list node) (visit host node parentId st).
Proof.
  destruct node as [n ty [cs|] l c u]; simpl; done.
Qed.

Lemma totalNodes_unfold node :
  totalNodes node = S (list_sum (totalNodes <$> children_list node)).
Proof. destruct node as [n ty [cs|] l c u]; simpl; done. Qed.

(** ** Flattening: the fields computed from the input alone *)

Section Flatten_static.

Variable host : Host.

Lemma link_to_parent_static parentId id ns :
  static <$> link_to_parent parentId id ns = static <$> ns.
Proof.
  unfold link_to_parent.
  destruct (JS.truthy_ref parentId) as [p|]; [|done].
  destruct (find_by_id p ns) as [[i r]|]; [|done].
  by apply fmap_alter_inv.
Qed.

Lemma visit_static node parentId parent st :
  static <$> nodes (visit host node parentId st)
  = (static <$> nodes st)
    ++ [record_of_visit
          {| v_node := node; v_parentId := parentId; v_parent := parent |}].
Proof.
  unfold visit. destruct (initial_position host parentId st) as [p k]. simpl.
  by rewrite link_to_parent_static, fmap_app.
Qed.

Lemma visit_length node parentId st :
  length (nodes (visit host node parentId st)) = S (length (nodes st)).
Proof.
  rewrite <- (length_fmap static), (visit_static _ _ None), length_app, length_fmap.
  simpl. lia.
Qed.

Lemma flatten_all_static cs :
  Forall (flatten_static_at host) cs →
  ∀ id parent next st,
    length (nodes st) ≤ 400 →
    static <$> nodes (flatten_all host id cs st)
    = take 400 ((static <$> nodes st)
                ++ (record_of_visit <$> walk_all id parent cs next)).
Proof.
  unfold flatten_all.
  induction 1 as [|c cs Hc _ IH]; intros id parent next st Hst; simpl.
  - rewrite app_nil_r, take_ge; [done|]. by rewrite length_fmap.
  - specialize (Hc (Some id) (Some parent) next st Hst).
    rewrite (IH id parent (next + length (walk c (Some id) (Some parent) next))).
    + rewrite Hc, fmap_app, (assoc_L (++)). apply take_take_app.
    + rewrite <- (length_fmap static), Hc, length_take. lia.
Qed.

Lemma flatten_static node : flatten_static_at host node.
Proof.
  induction node as [node IH] using FileNode_children_ind.
  intros parentId parent start st Hst.
  rewrite flatten_unfold, walk_unfold.
  destruct (400 <=? length (nodes st))%nat eqn:Hcap.
  - apply Nat.leb_le in Hcap. symmetry. apply take_app_full.
    rewrite length_fmap. lia.
  - apply Nat.leb_gt in Hcap.
    fold (flatten_all host (node_id node parentId) (children_list node)
            (visit host node parentId st)).
    rewrite (flatten_all_static _ IH _ start (S start)).
    + rewrite (visit_static _ _ parent), fmap_cons, <- (assoc_L (++)). done.
    + rewrite visit_length. lia.
Qed.

(** The static fields of the records [flatten] produces for a whole tree. *)
Lemma flatten_root_static root :
  static <$> nodes (flatten host root None empty_store)
  = take 400 (record_of_visit <$> preorder root).
Proof.
  by rewrite (flatten_static root None None 0 empty_store) by (simpl; lia).
Qed.

End Flatten_static.

Lemma walk_all_length id parent cs next :
  Forall (λ c, ∀ pid p s, length (walk c pid p s) = totalNodes c) cs →
  length (walk_all id parent cs next) = list_sum (totalNodes <$> cs).
Proof.
  intros H. revert next. induction H as [|c cs Hc _ IH]; intros next; simpl; [done|].
  by rewrite length_app, Hc, IH.
Qed.

Lemma walk_length node : ∀ parentId parent start,
  length (walk node parentId parent start) = totalNodes node.
Proof.
  induction node as [node IH] using FileNode_children_ind.
  intros parentId parent start.
  rewrite walk_unfold, totalNodes_unfold. simpl.
  by rewrite (walk_all_length _ _ _ _ IH).
Qed.

Lemma preorder_length root : length (preorder root) = totalNodes root.
Proof. apply walk_length. Qed.

(** ** The simulation writes positions and velocities only *)

Section Simulation_frame.

Variable host : Host.

Lemma fixed_accelerate force n : fixed (accelerate force n) = fixed n.
Proof. done. Qed.

Lemma fixed_integrate n : fixed (integrate n) = fixed n.
Proof. done. Qed.

Lemma fixed_move_by c n : fixed (move_by c n) = fixed n.
Proof. done. Qed.

Lemma fixed_move_back c n : fixed (move_back c n) = fixed n.
Proof. done. Qed.

Lemma apply_force_fixed sm st i :
  fixed <$> nodes (apply_force host sm st i) = fixed <$> nodes st.
Proof.
  unfold apply_force. destruct (nodes st !! i) as [node|]; [|done].
  destruct (net_force host sm (nodes st) node (draws st)) as [force k]. simpl.
  apply fmap_alter_inv, fixed_accelerate.
Qed.

Lemma apply_forces_fixed sm st :
  fixed <$> nodes (apply_forces host sm st) = fixed <$> nodes st.
Proof.
  unfold apply_forces.
  apply (fold_left_inv (λ s, fixed <$> nodes s = fixed <$> nodes st)); [done|].
  intros s i Hs. by rewrite apply_force_fixed.
Qed.

Lemma resolve_pair_fixed sm ns i j :
  fixed <$> resolve_pair sm ns i j = fixed <$> ns.
Proof.
  unfold resolve_pair.
  destruct (ns !! i) as [node|]; [|done].
  destruct (ns !! j) as [other|]; [|done].
  case_decide; [done|].
  case (_ <? _)%float; [|done].
  rewrite fmap_alter_inv by apply fixed_move_back.
  apply fmap_alter_inv, fixed_move_by.
Qed.

Lemma resolve_collisions_fixed sm ns :
  fixed <$> resolve_collisions sm ns = fixed <$> ns.
Proof.
  unfold resolve_collisions.
  apply (fold_left_inv (λ l, fixed <$> l = fixed <$> ns)); [done|].
  intros l i Hl. unfold resolve_node.
  apply (fold_left_inv (λ l', fixed <$> l' = fixed <$> ns)); [done|].
  intros l' j Hl'. by rewrite resolve_pair_fixed.
Qed.

Lemma iteration_fixed sm st :
  fixed <$> nodes (iteration host sm st) = fixed <$> nodes st.
Proof.
  unfold iteration. simpl.
  rewrite !resolve_collisions_fixed, <- list_fmap_compose.
  etrans; [|apply (apply_forces_fixed sm)].
  apply list_fmap_ext. intros _ n _. apply fixed_integrate.
Qed.

Lemma simulate_fixed iterations st :
  fixed <$> nodes (simulate host iterations st) = fixed <$> nodes st.
Proof.
  unfold simulate. generalize (spacingMultiplier host (length (nodes st))).
  intros sm. induction iterations as [|n IH]; [done|].
  by rewrite Nat.iter_succ, iteration_fixed.
Qed.

Lemma static_fixed n : static (fixed n) = static n.
Proof. done. Qed.

Lemma simulate_static iterations st :
  static <$> nodes (simulate host iterations st) = static <$> nodes st.
Proof.
  trans (static <$> (fixed <$> nodes (simulate host iterations st))).
  - rewrite <- list_fmap_compose. by apply list_fmap_ext.
  - rewrite simulate_fixed, <- list_fmap_compose. by apply list_fmap_ext.
Qed.

Lemma simulate_length iterations st :
  length (nodes (simulate host iterations st)) = length (nodes st).
Proof.
  by rewrite <- (length_fmap fixed), simulate_fixed, length_fmap.
Qed.

(** The static fields of the working records after the simulation. *)
Lemma layout_state_static root iterations :
  static <$> nodes (layout_state host root iterations)
  = take 400 (record_of_visit <$> preorder root).
Proof.
  unfold layout_state. by rewrite simulate_static, flatten_root_static.
Qed.

End Simulation_frame.

(** ** The exported records *)

Lemma observe_toCityNode host k i n :
  observe (toCityNode host k i n) = observe (toCityNode host 0 0 (static n)).
Proof. done. Qed.

Lemma take_min_length root :
  take (Nat.min (totalNodes root) 400) (preorder root)
  = take 400 (preorder root).
Proof.
  destruct (decide (totalNodes root ≤ 400)) as [Hle|Hgt].
  - rewrite Nat.min_l by done.
    by rewrite !take_ge by (rewrite preorder_length; lia).
  - by rewrite Nat.min_r by lia.
Qed.

Lemma observe_generateCityLayout host root iterations :
  observe <$> generateCityLayout host root iterations
  = (λ v, observe (toCityNode host 0 0 (record_of_visit v)))
    <$> take 400 (preorder root).
Proof.
  unfold generateCityLayout.
  rewrite fmap_imap.
  rewrite (imap_ext _ (λ _ n, observe (toCityNode host 0 0 (static n))))
    by (intros; apply observe_toCityNode).
  rewrite (imap_const (λ n, observe (toCityNode host 0 0 (static n)))).
  rewrite (list_fmap_compose static (λ n, observe (toCityNode host 0 0 n))).
  by rewrite layout_state_static, <- fmap_take, <- list_fmap_compose.
Qed.

Lemma generateCityLayout_length host root iterations :
  length (generateCityLayout host root iterations)
  = Nat.min (totalNodes root) 400.
Proof.
  unfold generateCityLayout.
  rewrite length_imap, <- (length_fmap static), layout_state_static.
  rewrite length_take, length_fmap, preorder_length. lia.
Qed.

(** Each working record belongs to the visit at its position. *)
Lemma layout_state_visits host root iterations :
  Forall2 (λ v r, static r = record_of_visit v)
    (take 400 (preorder root)) (nodes (layout_state host root iterations)).
Proof.
  apply (Forall2_fmap_1 record_of_visit static (λ a b, b = a)).
  rewrite fmap_take, <- (layout_state_static host root iterations).
  apply Forall2_flip, list_eq_Forall2. done.
Qed.

Lemma Forall2_imap_r {A B} (R : A → B → Prop) (f : nat → A → B) (l : list A) :
  (∀ i x, l !! i = Some x → R x (f i x)) → Forall2 R l (imap f l).
Proof.
  revert f. induction l as [|a l IH]; intros f Hf; simpl; constructor.
  - by apply (Hf 0).
  - apply IH. intros i x Hx. by apply (Hf (S i)).
Qed.

(** A number that compares equal to 0 is one of the two zeros. *)
Lemma is_zero_inv l : is_zero l = true → l = 0%float ∨ l = (-0)%float.
Proof.
  unfold is_zero. rewrite FloatAxioms.eqb_spec.
  change (FloatOps.Prim2SF PrimFloat.zero) with (SpecFloat.S754_zero false).
  intros H. rewrite <- (FloatAxioms.SF2Prim_Prim2SF l).
  destruct (FloatOps.Prim2SF l) as [s|s| |s m e]; try discriminate.
  - destruct s; [right|left]; reflexivity.
  - destruct s; discriminate.
  - destruct s; discriminate.
Qed.

(** [node.loc || 0] differs from the given [loc] by the sign of a zero at
    most, which the clamp does not see. *)
Lemma node_height_expected node : node_height node = expected_height node.
Proof.
  unfold node_height, expected_height, node_loc, given_loc, clamp.
  destruct (type node); [|done]. simpl.
  destruct (loc node) as [l|]; [|done].
  unfold JS.truthy_number.
  destruct (is_nan l) eqn:Hnan.
  - by rewrite orb_true_r.
  - rewrite orb_false_r. destruct (is_zero l) eqn:Hzero; [|done]. simpl.
    by destruct (is_zero_inv l Hzero) as [->| ->].
Qed.

(** C4: a file record's targetHeight is clamp(loc * 0.5, 2, 100), with the
    loc of its input node taken as 0 when absent, and a folder record's is 1
    (the record keeps [node.loc || 0] as its own loc); this holds of the
    working records after any number of iterations, and of the heights
    exported from them. *)
Theorem C4_target_height host root iterations :
  Forall2
    (λ v r,
       SimulationNode.type r = type (v_node v)
       ∧ SimulationNode.loc r = node_loc (v_node v)
       ∧ SimulationNode.targetHeight r = expected_height (v_node v))
    (take 400 (preorder root)) (nodes (layout_state host root iterations))
  ∧ Forall2
      (λ v c,
         CityNode.type c = type (v_node v)
         ∧ snd (fst (CityNode.size c)) = expected_height (v_node v))
      (take 400 (preorder root)) (generateCityLayout host root iterations).
Proof.
  split.
  - eapply Forall2_impl; [apply layout_state_visits|].
    intros v r Hr. simpl in Hr.
    rewrite <- node_height_expected.
    change (SimulationNode.type (static r) = type (v_node v)
            ∧ SimulationNode.loc (static r) = node_loc (v_node v)
            ∧ SimulationNode.targetHeight (static r) = node_height (v_node v)).
    by rewrite Hr.
  - apply (Forall2_fmap_1 id observe
             (λ v o, o_type o = type (v_node v)
                     ∧ snd (fst (o_size o)) = expected_height (v_node v))).
    rewrite observe_generateCityLayout, list_fmap_id.
    apply Forall2_fmap_r, Forall2_same_length_lookup_2; [done|].
    intros i v v' Hv Hv'. simplify_eq. simpl.
    by rewrite node_height_expected.
Qed.

(** C5: an exported record is placed at (x, targetHeight/2, z) for the final
    horizontal position (x, z) of its working record, and its size is
    (radius*1.5, targetHeight, radius*1.5) with radius 5 for a file and 10 for
    a folder: a footprint of 7.5 for a file and of 15 for a folder. *)
Theorem C5_position_and_size host root iterations :
  Forall2
    (λ r c,
       CityNode.position c
       = (Vector3.x (SimulationNode.position r),
          (SimulationNode.targetHeight r / 2)%float,
          Vector3.z (SimulationNode.position r))
       ∧ CityNode.size c
         = ((SimulationNode.radius r * 1.5)%float,
            SimulationNode.targetHeight r,
            (SimulationNode.radius r * 1.5)%float)
       ∧ SimulationNode.radius r
         = match SimulationNode.type r with
           | file => 5%float
           | folder => 10%float
           end
       ∧ fst (fst (CityNode.size c))
         = match CityNode.type c with
           | file => 7.5%float
           | folder => 15%float
           end
       ∧ snd (CityNode.size c) = fst (fst (CityNode.size c)))
    (nodes (layout_state host root iterations))
    (generateCityLayout host root iterations).
Proof.
  unfold generateCityLayout. apply Forall2_imap_r. intros i r Hr. simpl.
  assert (SimulationNode.radius r = node_radius (SimulationNode.type r)) as Hrad.
  { pose proof (layout_state_visits host root iterations) as Hv.
    destruct (Forall2_lookup_r _ _ _ _ _ Hv Hr) as (v & _ & Hs).
    change (SimulationNode.radius (static r)
            = node_radius (SimulationNode.type (static r))).
    by rewrite Hs. }
  repeat split; rewrite ?Hrad; by destruct (SimulationNode.type r).
Qed.

(** C10: two runs on the same tree with the same iteration count, whatever
    the host returns in each, give outputs of the same length that agree,
    index by index, on id, type, parentId, size, loc, extension and url (and
    on codeSnippet and the height coordinate); the horizontal position and
    lastModified can differ, so the outputs need not be equal. *)
Theorem C10_runs_agree_up_to_randomness :
  (∀ host1 host2 root iterations,
     length (generateCityLayout host1 root iterations)
     = length (generateCityLayout host2 root iterations)
     ∧ observe <$> generateCityLayout host1 root iterations
       = observe <$> generateCityLayout host2 root iterations)
  ∧ ∃ host1 host2 root,
      Math_log host1 = Math_log host2
      ∧ horizontal <$> generateCityLayout host1 root default_iterations
        ≠ horizontal <$> generateCityLayout host2 root default_iterations
      ∧ CityNode.lastModified <$> generateCityLayout host1 root default_iterations
        ≠ CityNode.lastModified <$> generateCityLayout host2 root default_iterations.
Proof.
  split.
  - intros host1 host2 root iterations.
    rewrite !generateCityLayout_length. split; [done|].
    by rewrite !observe_generateCityLayout.
  - set (ln := λ x : float, if (x =? 1)%float then 0%float else 0.6931471805599453%float).
    exists {| Math_log := ln; Math_random := λ _, 0.25%float; Date_now := λ _, 0%float |},
           {| Math_log := ln; Math_random := λ _, 0.75%float; Date_now := λ _, 0%float |},
           (mkFileNode "repo" folder
              (Some [mkFileNode "a.ts" file None (Some 100%float) None None])
              None None None).
    split; [done|]. split; intros H.
    + apply (f_equal (λ l, match l with
                           | _ :: (x, _) :: _ => (x <? 0)%float
                           | _ => false
                           end)) in H.
      vm_compute in H. discriminate.
    + apply (f_equal (λ l, match l with
                           | x :: _ => (x <? -1000000000)%float
                           | _ => false
                           end)) in H.
      vm_compute in H. discriminate.
Qed.

(** ** A tree of one node *)

Lemma number_of_nat_1 : JS.number_of_nat 1 = 1%float.
Proof. reflexivity. Qed.

Lemma spacingMultiplier_1 host :
  Math_log host 1 = 0%float → spacingMultiplier host 1 = 1%float.
Proof.
  intros Hlog. unfold spacingMultiplier. by rewrite number_of_nat_1, Hlog.
Qed.

Lemma flatten_single host node :
  children_list node = [] →
  flatten host node None empty_store
  = {| nodes := [root_record node]; draws := 0 |}.
Proof.
  intros Hcs. rewrite flatten_unfold, Hcs. done.
Qed.

(** With no other node, nothing repels: the force is the attraction alone,
    and no random number is drawn. *)
Lemma net_force_alone host sm r k :
  net_force host sm [r] r k = (attract sm [r] r Vector3.new, k).
Proof.
  unfold net_force. simpl. unfold repel.
  by rewrite decide_True by done.
Qed.

Lemma apply_forces_alone host sm r k :
  apply_forces host sm {| nodes := [r]; draws := k |}
  = {| nodes := [accelerate (attract sm [r] r Vector3.new) r]; draws := k |}.
Proof.
  unfold apply_forces. simpl. unfold apply_force. simpl.
  by rewrite net_force_alone.
Qed.

Lemma resolve_collisions_alone sm r : resolve_collisions sm [r] = [r].
Proof.
  unfold resolve_collisions, resolve_node. simpl.
  unfold resolve_pair. simpl. by rewrite decide_True by done.
Qed.

Lemma resolve_twice_alone sm r : Nat.iter 2 (resolve_collisions sm) [r] = [r].
Proof. simpl. by rewrite !resolve_collisions_alone. Qed.

(** A lone root at rest at the origin stays there. *)
Lemma iteration_single host node k :
  iteration host 1 {| nodes := [root_record node]; draws := k |}
  = {| nodes := [root_record node]; draws := k |}.
Proof.
  unfold iteration.
  rewrite apply_forces_alone. cbn [nodes draws fmap list_fmap].
  by rewrite resolve_twice_alone.
Qed.

Lemma iter_fixpoint {A} (f : A → A) (x : A) (n : nat) :
  f x = x → Nat.iter n f x = x.
Proof. intros Hx. induction n as [|n IH]; simpl; congruence. Qed.

Lemma layout_state_single host node iterations :
  Math_log host 1 = 0%float →
  children_list node = [] →
  layout_state host node iterations
  = {| nodes := [root_record node]; draws := 0 |}.
Proof.
  intros Hlog Hcs. unfold layout_state, simulate.
  rewrite (flatten_single _ _ Hcs). simpl length.
  rewrite (spacingMultiplier_1 _ Hlog).
  apply iter_fixpoint, iteration_single.
Qed.

(** C7: on a tree of one node the force is the attraction to the origin
    alone and the node stays at the origin, whatever the iteration count: the
    output is one record at (0, targetHeight/2, 0), and for a folder, such as
    a root-only "repo", it is at (0, 0.5, 0) with size (15, 1, 15). *)
Theorem C7_single_node host node iterations :
  Math_log host 1 = 0%float →
  children_list node = [] →
  (∀ sm r k,
     net_force host sm [r] r k = (attract sm [r] r Vector3.new, k))
  ∧ SimulationNode.position
      <$> nodes (layout_state host node iterations) = [Vector3.new]
  ∧ observe <$> generateCityLayout host node iterations
    = [observe (toCityNode host 0 0 (root_record node))]
  ∧ CityNode.position <$> generateCityLayout host node iterations
    = [(0, node_height node / 2, 0)%float]
  ∧ (type node = folder →
     CityNode.position <$> generateCityLayout host node iterations
     = [(0, 0.5, 0)%float]
     ∧ CityNode.size <$> generateCityLayout host node iterations
       = [(15, 1, 15)%float]).
Proof.
  intros Hlog Hcs. split; [intros; apply net_force_alone|].
  unfold generateCityLayout.
  rewrite (layout_state_single _ _ _ Hlog Hcs). simpl.
  split; [done|]. split; [done|]. split; [done|].
  intros Hty. unfold node_height, node_radius. by rewrite Hty.
Qed.

Lemma C7_single_node_witness :
  CityNode.position
    <$> generateCityLayout (constant_host 0.25 0) repo_only default_iterations
  = [(0, 0.5, 0)%float]
  ∧ CityNode.size
      <$> generateCityLayout (constant_host 0.25 0) repo_only default_iterations
    = [(15, 1, 15)%float].
Proof.
  apply (C7_single_node (constant_host 0.25 0) repo_only default_iterations);
    reflexivity.
Defined.

(** ** The integration step *)

(** C2: the position moves as specified, but the velocity a node keeps is
    the damped velocity scaled once more by the time step, 0.1 * 0.9 * (v +
    f * 0.1): for "repo" with "a.ts" placed at (-25, -25), the root leaves
    the first integration with x velocity 0.0101..., where the damped value
    is 0.101.... *)
Theorem C2_velocity_keeps_time_step :
  (∀ n,
     SimulationNode.position (integrate n)
     = SimulationNode.position (integrate_as_specified n)
     ∧ SimulationNode.velocity (integrate n)
       = Vector3.multiplyScalar
           (SimulationNode.velocity (integrate_as_specified n)) TIME_STEP)
  ∧ (Vector3.x ∘ SimulationNode.velocity ∘ integrate)
      <$> before_first_integration (constant_host 0.25 0) repo_with_a_ts
    = [0.010181523127236108%float; (-0.0079315231272361082)%float]
  ∧ (Vector3.x ∘ SimulationNode.velocity ∘ integrate_as_specified)
      <$> before_first_integration (constant_host 0.25 0) repo_with_a_ts
    = [0.10181523127236107%float; (-0.079315231272361078)%float].
Proof.
  split; [done|]. split; vm_compute; reflexivity.
Qed.

(** ** Extensions *)

Lemma append_empty_r (s : string) : String.append s "" = s.
Proof.
  induction s as [|c s IH]; [done|].
  change (String c (String.append s "") = String c s). by rewrite IH.
Qed.

Lemma append_snoc (cur : string) (c : ascii) (s : string) :
  String.append (String.append cur (String c "")) s
  = String.append cur (String c s).
Proof.
  induction cur as [|a cur IH]; [done|].
  change (String a (String.append (String.append cur (String c "")) s)
          = String a (String.append cur (String c s))).
  by rewrite IH.
Qed.

Lemma split_from_no_sep sep cur s :
  (∀ c, c ∈ list_ascii_of_string s → c ≠ sep) →
  JS.split_from sep cur s = [String.append cur s].
Proof.
  revert cur. induction s as [|c s IH]; intros cur Hs; simpl.
  - by rewrite append_empty_r.
  - destruct (Ascii.eqb_spec c sep) as [->|Hc].
    + exfalso. apply (Hs sep); [|done]. simpl. by left.
    + rewrite IH.
      * by rewrite append_snoc.
      * intros c' Hc'. apply Hs. simpl. by right.
Qed.

(** The extension of an id without a dot is the id itself: [split] returns
    the whole id as its only segment, so the default is not used. *)
Lemma extension_of_id_no_dot id :
  id ≠ "" →
  (∀ c, c ∈ list_ascii_of_string id → c ≠ "."%char) →
  extension_of_id id = id.
Proof.
  intros Hid Hdot. unfold extension_of_id, JS.split.
  rewrite (split_from_no_sep _ _ _ Hdot). simpl.
  unfold JS.or_string, JS.truthy_string.
  change (String.append "" id) with id.
  by destruct (String.eqb_spec id "").
Qed.

(** C3: for the folder "repo" with the file "Makefile" the records have the
    extensions "folder" and "repo/Makefile": the id of the file has no dot,
    and its extension is the whole id, not "txt". *)
Theorem C3_extension_without_dot host iterations :
  CityNode.id <$> generateCityLayout host repo_with_makefile iterations
  = ["repo"; "repo/Makefile"]
  ∧ CityNode.extension <$> generateCityLayout host repo_with_makefile iterations
    = ["folder"; "repo/Makefile"].
Proof.
  split.
  - trans (o_id <$> (observe <$> generateCityLayout host repo_with_makefile iterations)).
    { rewrite <- list_fmap_compose. by apply list_fmap_ext. }
    by rewrite observe_generateCityLayout.
  - trans (o_extension
             <$> (observe <$> generateCityLayout host repo_with_makefile iterations)).
    { rewrite <- list_fmap_compose. by apply list_fmap_ext. }
    by rewrite observe_generateCityLayout.
Qed.

(** ** Resolving parent references *)

Lemma filter_fmap_comp {A B} (f : A → B) (P : B → Prop)
    `{∀ y, Decision (P y)} (l : list A) :
  filter P (f <$> l) = f <$> filter (P ∘ f) l.
Proof.
  induction l as [|a l IH]; [done|].
  rewrite fmap_cons, !filter_cons, IH. simpl.
  by destruct (decide (P (f a))).
Qed.

Lemma filter_ext_elem {A} (P Q : A → Prop) `{∀ x, Decision (P x)}
    `{∀ x, Decision (Q x)} (l : list A) :
  (∀ x, x ∈ l → P x ↔ Q x) → filter P l = filter Q l.
Proof.
  induction l as [|a l IH]; intros HPQ; [done|].
  rewrite !filter_cons, IH.
  - destruct (decide (P a)) as [HP|HP], (decide (Q a)) as [HQ|HQ]; try done.
    + exfalso. apply HQ, HPQ; [left|done].
    + exfalso. apply HP, HPQ; [left|done].
  - intros x Hx. apply HPQ. by right.
Qed.

Lemma slot_of_app_l ids ids' p j :
  slot_of ids p = Some j → slot_of (ids ++ ids') p = Some j.
Proof.
  unfold slot_of. intros Hj.
  destruct (list_find (λ i, i = p) ids) as [[j' x]|] eqn:Hf; [|done].
  by rewrite (list_find_app_l _ _ _ _ _ Hf).
Qed.

Lemma slot_of_Some ids p j :
  slot_of ids p = Some j →
  ids !! j = Some p ∧ ∀ i, i < j → ids !! i ≠ Some p.
Proof.
  unfold slot_of. intros Hj.
  destruct (list_find (λ i, i = p) ids) as [[j' x]|] eqn:Hf; [|done].
  simpl in Hj. simplify_eq.
  apply list_find_Some in Hf as (Hx & -> & Hfirst). split; [done|].
  intros i Hi Hp. by apply (Hfirst i p).
Qed.

Lemma slot_of_lt ids p j : slot_of ids p = Some j → j < length ids.
Proof.
  intros Hj. apply slot_of_Some in Hj as [Hj _]. by eapply lookup_lt_Some.
Qed.

Lemma slot_of_elem ids p : p ∈ ids → is_Some (slot_of ids p).
Proof.
  intros Hp. unfold slot_of.
  destruct (list_find_elem_of (λ i, i = p) ids p Hp eq_refl) as [[j x] ->].
  by eexists.
Qed.

(** With pairwise distinct ids, a reference is resolved to the record that
    has the id. *)
Lemma slot_of_NoDup ids p j :
  NoDup ids → ids !! j = Some p → slot_of ids p = Some j.
Proof.
  intros Hnd Hj.
  destruct (slot_of_elem ids p) as [j' Hj'].
  { by eapply list_elem_of_lookup_2. }
  rewrite Hj'. f_equal.
  apply slot_of_Some in Hj' as [Hj' _].
  by eapply NoDup_lookup.
Qed.

Lemma find_by_id_slot p ns :
  fst <$> find_by_id p ns = slot_of (link_of <$> ns).*1 p.
Proof.
  unfold slot_of, find_by_id.
  rewrite <- list_fmap_compose, list_find_fmap.
  change (list_find ((λ i, i = p) ∘ (fst ∘ link_of)) ns) with
    (list_find (λ n, SimulationNode.id n = p) ns).
  by destruct (list_find _ ns) as [[j x]|].
Qed.

Lemma filter_none {A} (P : A → Prop) `{∀ x, Decision (P x)} (l : list A) :
  (∀ x, x ∈ l → ¬ P x) → filter P l = [].
Proof.
  induction l as [|a l IH]; intros HP; [done|].
  rewrite filter_cons, IH.
  - destruct (decide (P a)) as [Ha|]; [|done]. exfalso. by apply (HP a); [left|].
  - intros x Hx. apply HP. by right.
Qed.

Lemma link_slot_lt L e j : link_slot L e = Some j → j < length L.
Proof.
  unfold link_slot. destruct (JS.truthy_ref e.2) as [p|]; [|done]. simpl.
  intros Hj. apply slot_of_lt in Hj. by rewrite length_fmap in Hj.
Qed.

Lemma link_slot_anchored L k e :
  anchored L → L !! k = Some e →
  link_slot L e = None ∨ ∃ j, link_slot L e = Some j ∧ j < k.
Proof.
  intros HL He. unfold link_slot.
  destruct (JS.truthy_ref e.2) as [p|] eqn:Hp; [right|by left]. simpl.
  by apply (HL k e p).
Qed.

Lemma link_slot_snoc_old L e k x :
  anchored L → L !! k = Some x → link_slot (L ++ [e]) x = link_slot L x.
Proof.
  intros HL Hx. unfold link_slot.
  destruct (JS.truthy_ref x.2) as [p|] eqn:Hp; [|done]. simpl.
  destruct (HL k x p Hx Hp) as (j & Hj & _).
  by rewrite Hj, fmap_app, (slot_of_app_l _ _ _ _ Hj).
Qed.

Lemma anchored_snoc L e :
  anchored L → known L.*1 e.2 → anchored (L ++ [e]).
Proof.
  intros HL He k x p Hx Hp. rewrite fmap_app.
  apply lookup_app_Some in Hx as [Hx|[Hk Hx]].
  - destruct (HL k x p Hx Hp) as (j & Hj & Hjk).
    exists j. split; [|done]. by apply slot_of_app_l.
  - apply list_lookup_singleton_Some in Hx as [_ <-].
    destruct (He p Hp) as [j Hj]. exists j. split; [by apply slot_of_app_l|].
    apply slot_of_lt in Hj. rewrite length_fmap in Hj. lia.
Qed.

Lemma children_of_snoc L e k :
  anchored L →
  children_of (L ++ [e]) k
  = children_of L k
    ++ (if decide (link_slot (L ++ [e]) e = Some k) then [e.1] else []).
Proof.
  intros HL. unfold children_of. rewrite filter_app, fmap_app. f_equal.
  - f_equal. apply filter_ext_elem. intros x Hx.
    apply list_elem_of_lookup in Hx as [i Hi].
    by rewrite (link_slot_snoc_old _ _ _ _ HL Hi).
  - rewrite filter_cons, filter_nil. by case_decide.
Qed.

Lemma children_of_ge L k : anchored L → length L ≤ k → children_of L k = [].
Proof.
  intros HL Hk. unfold children_of. rewrite filter_none; [done|].
  intros x Hx Hs. apply list_elem_of_lookup in Hx as [i Hi].
  destruct (link_slot_anchored _ _ _ HL Hi) as [Hn|(j & Hj & Hji)].
  - congruence.
  - apply lookup_lt_Some in Hi. rewrite Hs in Hj. simplify_eq. lia.
Qed.

(** *** What one visit does to the links *)

Section Flatten_links.

Variable host : Host.

Lemma link_of_static r : link_of (static r) = link_of r.
Proof. done. Qed.

Lemma links_static (ns : list SimulationNode.t) :
  link_of <$> (static <$> ns) = link_of <$> ns.
Proof. rewrite <- list_fmap_compose. by apply list_fmap_ext. Qed.

Lemma visit_links node parentId st :
  link_of <$> nodes (visit host node parentId st)
  = (link_of <$> nodes st) ++ [(node_id node parentId, parentId)].
Proof.
  rewrite <- links_static, (visit_static _ _ _ None), fmap_app, links_static.
  done.
Qed.

Lemma visit_anchored node parentId st :
  anchored (link_of <$> nodes st) →
  known (link_of <$> nodes st).*1 parentId →
  anchored (link_of <$> nodes (visit host node parentId st)).
Proof.
  intros HL Hp. rewrite visit_links. by apply anchored_snoc.
Qed.

Lemma visit_known node parentId st :
  known (link_of <$> nodes (visit host node parentId st)).*1
    (Some (node_id node parentId)).
Proof.
  intros p Hp. apply slot_of_elem. rewrite visit_links, fmap_app. simpl.
  apply elem_of_app. right. apply list_elem_of_singleton.
  simpl in Hp. by destruct (JS.truthy_string _); simplify_eq.
Qed.

Lemma link_to_parent_slot parentId id ns :
  link_to_parent parentId id ns
  = match JS.truthy_ref parentId ≫= slot_of (link_of <$> ns).*1 with
    | Some i => alter (SimulationNode.push_child id) i ns
    | None => ns
    end.
Proof.
  unfold link_to_parent.
  destruct (JS.truthy_ref parentId) as [p|]; [|done]. simpl.
  rewrite <- find_by_id_slot. by destruct (find_by_id p ns) as [[i x]|].
Qed.

Lemma visit_eq node parentId st :
  visit host node parentId st
  = {| nodes :=
         match link_slot ((link_of <$> nodes st)
                          ++ [(node_id node parentId, parentId)])
                 (node_id node parentId, parentId) with
         | Some i =>
             alter (SimulationNode.push_child (node_id node parentId)) i
               (nodes st ++ [new_record host node parentId st])
         | None => nodes st ++ [new_record host node parentId st]
         end;
       draws := (initial_position host parentId st).2 |}.
Proof.
  unfold visit, new_record.
  destruct (initial_position host parentId st) as [pos d].
  by rewrite link_to_parent_slot, fmap_app.
Qed.

Lemma visit_linked node parentId st :
  linked (nodes st) →
  anchored (link_of <$> nodes st) →
  known (link_of <$> nodes st).*1 parentId →
  linked (nodes (visit host node parentId st)).
Proof.
  intros Hlk HL Hp k r.
  rewrite visit_links, (children_of_snoc _ _ _ HL), visit_eq. simpl.
  destruct (link_slot _ (node_id node parentId, parentId)) as [i|] eqn:Hi.
  - assert (i < length (nodes st)) as Hlt.
    { unfold link_slot in Hi. simpl in Hi.
      destruct (JS.truthy_ref parentId) as [p|] eqn:Hpid; [|done].
      destruct (Hp p Hpid) as [j Hj]. simpl in Hi.
      rewrite fmap_app, (slot_of_app_l _ _ _ _ Hj) in Hi. simplify_eq.
      apply slot_of_lt in Hj. by rewrite !length_fmap in Hj. }
    rewrite list_lookup_alter. case_decide as Hik.
    + subst k. rewrite lookup_app_l by done.
      destruct (nodes st !! i) as [r0|] eqn:Hr0; [|done].
      simpl. intros ?; simplify_eq. simpl.
      rewrite decide_True by done. by rewrite (Hlk i r0 Hr0).
    + intros Hr. rewrite decide_False by congruence. rewrite app_nil_r.
      apply lookup_app_Some in Hr as [Hr|[Hge Hr]]; [by apply Hlk|].
      apply list_lookup_singleton_Some in Hr as [_ <-]. simpl.
      rewrite children_of_ge; [done|done|]. by rewrite length_fmap.
  - intros Hr. rewrite decide_False by done. rewrite app_nil_r.
    apply lookup_app_Some in Hr as [Hr|[Hge Hr]]; [by apply Hlk|].
    apply list_lookup_singleton_Some in Hr as [_ <-]. simpl.
    rewrite children_of_ge; [done|done|]. by rewrite length_fmap.
Qed.

(** *** What [flatten] does to the links *)

Lemma flatten_length_le node parentId st :
  length (nodes st) ≤ 400 →
  length (nodes (flatten host node parentId st)) ≤ 400.
Proof.
  intros Hst.
  rewrite <- (length_fmap static),
    (flatten_static host node parentId None 0 st Hst), length_take. lia.
Qed.

Lemma flatten_links node parentId parent start st :
  length (nodes st) ≤ 400 →
  link_of <$> nodes (flatten host node parentId st)
  = take 400 ((link_of <$> nodes st)
              ++ (link_of_visit <$> walk node parentId parent start)).
Proof.
  intros Hst.
  rewrite <- links_static,
    (flatten_static host node parentId parent start st Hst).
  by rewrite fmap_take, fmap_app, links_static, <- list_fmap_compose.
Qed.

Lemma known_flatten node parentId st q :
  length (nodes st) ≤ 400 →
  known (link_of <$> nodes st).*1 q →
  known (link_of <$> nodes (flatten host node parentId st)).*1 q.
Proof.
  intros Hst Hq p Hp. destruct (Hq p Hp) as [j Hj]. exists j.
  rewrite (flatten_links _ _ None 0 _ Hst), take_app_ge
    by (rewrite length_fmap; lia).
  rewrite fmap_app. by apply slot_of_app_l.
Qed.

Lemma flatten_all_well_linked cs :
  Forall (flatten_well_linked_at host) cs →
  ∀ id st,
    length (nodes st) ≤ 400 →
    well_linked (nodes st) →
    known (link_of <$> nodes st).*1 (Some id) →
    well_linked (nodes (flatten_all host id cs st)).
Proof.
  unfold flatten_all.
  induction 1 as [|c cs Hc _ IH]; intros id st Hst Hwl Hid; simpl; [done|].
  apply IH.
  - by apply flatten_length_le.
  - by apply Hc.
  - by apply known_flatten.
Qed.

Lemma flatten_well_linked node : flatten_well_linked_at host node.
Proof.
  induction node as [node IH] using FileNode_children_ind.
  intros parentId st Hst [Hlk HL] Hp. rewrite flatten_unfold.
  destruct (400 <=? length (nodes st))%nat eqn:Hcap; [done|].
  apply Nat.leb_gt in Hcap.
  apply (flatten_all_well_linked _ IH).
  - rewrite visit_length. lia.
  - split; [by apply visit_linked|by apply visit_anchored].
  - apply visit_known.
Qed.

Lemma flatten_root_well_linked root :
  well_linked (nodes (flatten host root None empty_store)).
Proof.
  apply flatten_well_linked; simpl; [lia| |done].
  split; by intros k r.
Qed.

End Flatten_links.

(** ** Parents in the traversal *)

Lemma walk_all_parents cs :
  Forall walk_parents_at cs →
  ∀ id parent next i v,
    walk_all id parent cs next !! i = Some v →
    (v_parent v = Some parent ∧ v_parentId v = Some id)
    ∨ ∃ j vp,
        j < i ∧ walk_all id parent cs next !! j = Some vp
        ∧ v_parent v = Some (next + j)
        ∧ v_parentId v = Some (visit_id vp).
Proof.
  induction 1 as [|c cs Hc _ IH]; intros id parent next i v; simpl; [done|].
  intros Hv. apply lookup_app_Some in Hv as [Hv|[Hge Hv]].
  - destruct (Hc _ _ _ _ _ Hv) as [(_ & Hp & Hpid & _)|(j & vp & Hj & Hvp & Hp & Hpid)].
    + by left.
    + right. exists j, vp. split; [done|]. split; [|done].
      by apply lookup_app_l_Some.
  - destruct (IH _ _ _ _ _ Hv) as [?|(j & vp & Hj & Hvp & Hp & Hpid)]; [by left|].
    right. exists (length (walk c (Some id) (Some parent) next) + j), vp.
    split; [lia|]. split; [|split; [|done]].
    + rewrite lookup_app_r by lia. rewrite <- Hvp. f_equal. lia.
    + rewrite Hp. f_equal. lia.
Qed.

Lemma walk_parents node : walk_parents_at node.
Proof.
  induction node as [node IH] using FileNode_children_ind.
  intros parentId parent start i v. rewrite walk_unfold.
  destruct i as [|i]; simpl.
  - intros ?; simplify_eq. by left.
  - intros Hv. right.
    destruct (walk_all_parents _ IH _ _ _ _ _ Hv)
      as [[Hp Hpid]|(j & vp & Hj & Hvp & Hp & Hpid)].
    + eexists 0, _. split; [lia|]. split; [done|].
      by rewrite Nat.add_0_r.
    + exists (S j), vp. split; [lia|]. split; [done|]. split; [|done].
      rewrite Hp. f_equal. lia.
Qed.

Lemma preorder_parents root i v :
  preorder root !! i = Some v →
  (i = 0 ∧ v_parent v = None ∧ v_parentId v = None ∧ v_node v = root)
  ∨ ∃ j vp,
      j < i ∧ preorder root !! j = Some vp
      ∧ v_parent v = Some j
      ∧ v_parentId v = Some (visit_id vp).
Proof. apply walk_parents. Qed.

Lemma truthy_string_path p n : JS.truthy_string (p ++ "/" ++ n) = true.
Proof. by destruct p. Qed.

(** Under a root with a name, every id is truthy. *)
Lemma preorder_ids_truthy root i v :
  name root ≠ "" →
  preorder root !! i = Some v → JS.truthy_string (visit_id v) = true.
Proof.
  intros Hroot. revert v. induction (lt_wf i) as [i _ IH]. intros v Hv.
  destruct (preorder_parents _ _ _ Hv)
    as [(_ & _ & Hpid & Hn)|(j & vp & Hj & Hvp & _ & Hpid)];
    unfold visit_id, node_id; rewrite Hpid; simpl.
  - rewrite Hn. unfold JS.truthy_string.
    by destruct (String.eqb_spec (name root) "").
  - rewrite (IH j Hj vp Hvp). apply truthy_string_path.
Qed.

(** With pairwise distinct ids under a root with a name, the record the
    engine takes for the parent of a node is the record of its parent. *)
Lemma link_slot_preorder root k v :
  name root ≠ "" →
  NoDup (link_of_visit <$> take 400 (preorder root)).*1 →
  take 400 (preorder root) !! k = Some v →
  link_slot (link_of_visit <$> take 400 (preorder root)) (link_of_visit v)
  = v_parent v.
Proof.
  intros Hroot Hnd Hv. apply lookup_take_Some in Hv as [Hv Hk].
  unfold link_slot. simpl.
  destruct (preorder_parents _ _ _ Hv)
    as [(_ & -> & -> & _)|(j & vp & Hj & Hvp & -> & ->)]; [done|].
  simpl. rewrite (preorder_ids_truthy _ _ _ Hroot Hvp). simpl.
  apply slot_of_NoDup; [done|].
  rewrite <- list_fmap_compose, list_lookup_fmap.
  rewrite lookup_take_lt by lia. by rewrite Hvp.
Qed.

(** ** Adjacency of the records *)

Lemma children_of_preorder root k :
  name root ≠ "" →
  NoDup (link_of_visit <$> take 400 (preorder root)).*1 →
  children_of (link_of_visit <$> take 400 (preorder root)) k
  = visit_id <$> filter (λ c, v_parent c = Some k) (take 400 (preorder root)).
Proof.
  intros Hroot Hnd. unfold children_of.
  rewrite filter_fmap_comp, <- list_fmap_compose.
  rewrite (filter_ext_elem _ (λ c, v_parent c = Some k)); [done|].
  intros v Hv. apply list_elem_of_lookup in Hv as [i Hi]. simpl.
  by rewrite (link_slot_preorder _ _ _ Hroot Hnd Hi).
Qed.

Lemma flatten_adjacency host root :
  name root ≠ "" →
  NoDup (SimulationNode.id <$> nodes (flatten host root None empty_store)) →
  adjacency_consistent root (nodes (flatten host root None empty_store)).
Proof.
  intros Hroot Hnd.
  assert (link_of <$> nodes (flatten host root None empty_store)
          = link_of_visit <$> take 400 (preorder root)) as HL.
  { rewrite (flatten_links host root None None 0 empty_store), fmap_take;
      [done|simpl; lia]. }
  assert (NoDup (link_of_visit <$> take 400 (preorder root)).*1) as Hnd'.
  { rewrite <- HL, <- list_fmap_compose. done. }
  split; [done|]. intros k v r Hv Hr. split.
  - intros j Hj. apply lookup_take_Some in Hv as [Hv Hk].
    destruct (preorder_parents _ _ _ Hv)
      as [(_ & Hp & _)|(j' & vp & Hj' & Hvp & Hp & Hpid)]; [congruence|].
    rewrite Hp in Hj. simplify_eq. split; [done|].
    assert ((link_of <$> nodes (flatten host root None empty_store)) !! j
            = Some (link_of_visit vp)) as Hrp.
    { rewrite HL, list_lookup_fmap, lookup_take_lt by lia. by rewrite Hvp. }
    rewrite list_lookup_fmap in Hrp.
    destruct (nodes (flatten host root None empty_store) !! j) as [rp|];
      [|done].
    exists rp. split; [done|]. simpl in Hrp.
    assert ((link_of <$> nodes (flatten host root None empty_store)) !! k
            = Some (link_of_visit v)) as Hrv.
    { rewrite HL, list_lookup_fmap, lookup_take_lt by lia. by rewrite Hv. }
    rewrite list_lookup_fmap, Hr in Hrv. simpl in Hrv.
    unfold link_of, link_of_visit in *. simplify_eq. congruence.
  - destruct (flatten_root_well_linked host root) as [Hlk _].
    by rewrite (Hlk k r Hr), HL, children_of_preorder.
Qed.

Lemma fixed_lookup (ns ns' : list SimulationNode.t) k r' :
  fixed <$> ns = fixed <$> ns' → ns' !! k = Some r' →
  ∃ r, ns !! k = Some r ∧ fixed r = fixed r'.
Proof.
  intros Hfix Hr'.
  assert ((fixed <$> ns) !! k = Some (fixed r')) as Hr.
  { by rewrite Hfix, list_lookup_fmap, Hr'. }
  rewrite list_lookup_fmap in Hr.
  destruct (ns !! k) as [r|]; [|done]. exists r. split; [done|].
  simpl in Hr. congruence.
Qed.

Lemma adjacency_consistent_fixed root (ns ns' : list SimulationNode.t) :
  fixed <$> ns = fixed <$> ns' →
  adjacency_consistent root ns → adjacency_consistent root ns'.
Proof.
  intros Hfix [HL Hadj]. split.
  - rewrite <- HL.
    trans (link_of <$> (fixed <$> ns')).
    { rewrite <- list_fmap_compose. by apply list_fmap_ext. }
    rewrite <- Hfix, <- list_fmap_compose. by apply list_fmap_ext.
  - intros k v r' Hv Hr'.
    destruct (fixed_lookup _ _ _ _ Hfix Hr') as (r & Hr & Hrr).
    destruct (Hadj k v r Hv Hr) as [Hpar Hch]. split.
    + intros j Hj. destruct (Hpar j Hj) as (Hjk & rp & Hrp & Hpid).
      split; [done|].
      assert ((fixed <$> ns') !! j = Some (fixed rp)) as Hrp'.
      { by rewrite <- Hfix, list_lookup_fmap, Hrp. }
      rewrite list_lookup_fmap in Hrp'.
      destruct (ns' !! j) as [rp'|]; [|done]. exists rp'. split; [done|].
      assert (fixed rp' = fixed rp) as Hrp'' by (simpl in Hrp'; congruence).
      change (SimulationNode.parentId (fixed r')
              = Some (SimulationNode.id (fixed rp'))).
      by rewrite <- Hrr, Hrp''.
    + change (SimulationNode.childrenIds (fixed r') = visit_id <$>
                filter (λ c, v_parent c = Some k) (take 400 (preorder root))).
      by rewrite <- Hrr.
Qed.

Lemma layout_state_adjacency host root iterations :
  name root ≠ "" →
  NoDup (SimulationNode.id <$> nodes (layout_state host root iterations)) →
  adjacency_consistent root (nodes (layout_state host root iterations)).
Proof.
  intros Hroot Hnd.
  apply (adjacency_consistent_fixed root
           (nodes (flatten host root None empty_store))).
  { symmetry. apply simulate_fixed. }
  apply flatten_adjacency; [done|].
  assert (SimulationNode.id <$> nodes (flatten host root None empty_store)
          = SimulationNode.id <$> nodes (layout_state host root iterations))
    as ->; [|done].
  trans (SimulationNode.id
           <$> (fixed <$> nodes (flatten host root None empty_store))).
  { rewrite <- list_fmap_compose. by apply list_fmap_ext. }
  unfold layout_state.
  rewrite <- (simulate_fixed host iterations), <- list_fmap_compose.
  by apply list_fmap_ext.
Qed.

Lemma layout_state_links host root iterations :
  link_of <$> nodes (layout_state host root iterations)
  = link_of_visit <$> take 400 (preorder root).
Proof.
  rewrite <- links_static, layout_state_static, <- fmap_take.
  by rewrite <- list_fmap_compose.
Qed.

Lemma layout_state_parents_precede host root iterations :
  parents_precede (nodes (layout_state host root iterations)).
Proof.
  pose proof (layout_state_links host root iterations) as HL.
  intros k r p Hr Hp.
  assert ((link_of_visit <$> take 400 (preorder root)) !! k = Some (link_of r))
    as Hk by (by rewrite <- HL, list_lookup_fmap, Hr).
  apply list_lookup_fmap_Some in Hk as (v & Hlv & Hv).
  apply lookup_take_Some in Hv as [Hv Hlt].
  assert (v_parentId v = Some p) as Hvp.
  { unfold link_of, link_of_visit in Hlv. congruence. }
  destruct (preorder_parents _ _ _ Hv)
    as [(_ & _ & Hnone & _)|(j & vp & Hj & Hvj & _ & Hpid)]; [congruence|].
  assert ((link_of <$> nodes (layout_state host root iterations)) !! j
          = Some (link_of_visit vp)) as Hrp.
  { rewrite HL, list_lookup_fmap, lookup_take_lt by lia. by rewrite Hvj. }
  apply list_lookup_fmap_Some in Hrp as (rp & Hlp & Hrp).
  exists j, rp. split; [done|]. split; [done|].
  unfold link_of, link_of_visit in Hlp. congruence.
Qed.

(** C8: every record with a parent reference refers to the id of a record
    that occurs strictly earlier; and when the root has a non-empty name and
    the ids of the records are pairwise distinct, that record is the record
    of its parent, and every record lists exactly the ids of the children of
    its node that were visited before the cap of 400, in input order;
    truncation by the cap does not break this. *)
Theorem C8_adjacency host root iterations :
  parents_precede (nodes (layout_state host root iterations))
  ∧ (name root ≠ "" →
     NoDup (SimulationNode.id <$> nodes (layout_state host root iterations)) →
     adjacency_consistent root (nodes (layout_state host root iterations))).
Proof.
  split.
  - apply layout_state_parents_precede.
  - apply layout_state_adjacency.
Qed.

Lemma C8_adjacency_witness :
  adjacency_consistent repo_with_a_ts
    (nodes (layout_state (constant_host 0.25 0) repo_with_a_ts
              default_iterations)).
Proof.
  apply (proj2 (C8_adjacency (constant_host 0.25 0) repo_with_a_ts
                  default_iterations)).
  - discriminate.
  - apply (bool_decide_unpack _). vm_compute. exact I.
Defined.

Lemma C8_adjacency_counterexample :
  ¬ adjacency_consistent nameless_root
      (nodes (layout_state (constant_host 0.25 0) nameless_root 0))
  ∧ ¬ adjacency_consistent twin_folders
        (nodes (layout_state (constant_host 0.25 0) twin_folders 0)).
Proof.
  split; intros [_ H].
  - destruct (H 0 _ _ eq_refl eq_refl) as [_ Hch].
    vm_compute in Hch. discriminate.
  - destruct (H 1 _ _ eq_refl eq_refl) as [_ Hch].
    vm_compute in Hch. discriminate.
Qed.

(** ** Placement by [flatten] *)

Section Flatten_placement.

Variable host : Host.

Lemma visit_positions node parentId st :
  SimulationNode.position <$> nodes (visit host node parentId st)
  = (SimulationNode.position <$> nodes st)
    ++ [(initial_position host parentId st).1].
Proof.
  rewrite visit_eq. simpl.
  destruct (link_slot _ _) as [i|].
  - by rewrite fmap_alter_inv, fmap_app by done.
  - by rewrite fmap_app.
Qed.

Lemma initial_position_found parentId st p j :
  JS.truthy_ref parentId = Some p →
  slot_of (link_of <$> nodes st).*1 p = Some j →
  ∃ pp, (SimulationNode.position <$> nodes st) !! j = Some pp
        ∧ initial_position host parentId st
          = (Vector3.add (Vector3.copy Vector3.new pp) (jitter host (draws st)),
             S (S (draws st))).
Proof.
  intros Hp Hj. unfold initial_position. rewrite Hp.
  rewrite <- find_by_id_slot in Hj.
  destruct (find_by_id p (nodes st)) as [[j' x]|] eqn:Hf; [|done].
  simpl in Hj. simplify_eq.
  apply list_find_Some in Hf as (Hx & _ & _).
  exists (SimulationNode.position x). split; [|done].
  by rewrite list_lookup_fmap, Hx.
Qed.

Lemma visit_placed node parentId st :
  anchored (link_of <$> nodes st) →
  known (link_of <$> nodes st).*1 parentId →
  callable (nodes st) parentId →
  placed host st → placed host (visit host node parentId st).
Proof.
  intros HL Hknown Hcall [Hpl Hd].
  assert (length (SimulationNode.position <$> nodes st)
          = length (link_of <$> nodes st)) as Hlen
    by (by rewrite !length_fmap).
  split.
  - rewrite visit_links, visit_positions. intros k e pos He Hpos.
    apply lookup_app_Some in He as [He|[Hge He]].
    + rewrite (link_slot_snoc_old _ _ _ _ HL He).
      pose proof (lookup_lt_Some _ _ _ He) as Hk.
      rewrite lookup_app_l in Hpos by lia.
      rewrite (Hpl k e pos He Hpos).
      destruct (link_slot_anchored _ _ _ HL He) as [->|(j & -> & Hjk)]; [done|].
      by rewrite lookup_app_l by lia.
    + apply list_lookup_singleton_Some in He as [Hk <-].
      assert (k = length (nodes st)) as -> by (rewrite length_fmap in *; lia).
      rewrite lookup_app_r in Hpos by (rewrite length_fmap; lia).
      rewrite length_fmap, Nat.sub_diag in Hpos. simpl in Hpos. simplify_eq.
      unfold link_slot. simpl.
      destruct (JS.truthy_ref parentId) as [p|] eqn:Hp; simpl.
      * destruct (Hknown p Hp) as [j Hj].
        rewrite fmap_app, (slot_of_app_l _ _ _ _ Hj).
        destruct (initial_position_found _ _ _ _ Hp Hj) as (pp & Hpp & ->).
        rewrite lookup_app_l by (by eapply lookup_lt_Some).
        rewrite Hpp, Hd. simpl.
        unfold callable in Hcall. rewrite Hp in Hcall.
        destruct (nodes st); [done|]. simpl. by rewrite Nat.sub_0_r.
      * unfold initial_position. by rewrite Hp.
  - rewrite visit_length, visit_eq. simpl.
    unfold callable in Hcall.
    destruct (JS.truthy_ref parentId) as [p|] eqn:Hp.
    + destruct (Hknown p Hp) as [j Hj].
      destruct (initial_position_found _ _ _ _ Hp Hj) as (pp & _ & ->).
      simpl. rewrite Hd. destruct (nodes st); [done|]. simpl. lia.
    + unfold initial_position. rewrite Hp. simpl. rewrite Hd, Hcall. done.
Qed.

Lemma flatten_length_ge node parentId st :
  length (nodes st) ≤ 400 →
  length (nodes st) ≤ length (nodes (flatten host node parentId st)).
Proof.
  intros Hst.
  rewrite <- (length_fmap static (nodes (flatten _ _ _ _))),
    (flatten_static host node parentId None 0 st Hst).
  rewrite length_take, length_app, length_fmap. lia.
Qed.

Lemma node_id_truthy node parentId :
  (JS.truthy_ref parentId = None → name node ≠ "") →
  JS.truthy_ref (Some (node_id node parentId)) = Some (node_id node parentId).
Proof.
  intros Hroot. unfold node_id. simpl.
  destruct (JS.truthy_ref parentId) as [p|].
  - by rewrite truthy_string_path.
  - unfold JS.truthy_string.
    by destruct (String.eqb_spec (name node) ""); [destruct Hroot|].
Qed.

Lemma flatten_all_placed cs :
  Forall (flatten_placed_at host) cs →
  ∀ id st,
    length (nodes st) ≤ 400 →
    well_linked (nodes st) →
    known (link_of <$> nodes st).*1 (Some id) →
    JS.truthy_ref (Some id) = Some id →
    nodes st ≠ [] →
    placed host st → placed host (flatten_all host id cs st).
Proof.
  unfold flatten_all.
  induction 1 as [|c cs Hc _ IH]; intros id st Hst Hwl Hid Hty Hne Hpl; simpl;
    [done|].
  apply IH; try done.
  - by apply flatten_length_le.
  - by apply flatten_well_linked.
  - by apply known_flatten.
  - pose proof (flatten_length_ge c (Some id) st Hst) as Hge.
    intros Heq. rewrite Heq in Hge. destruct (nodes st); [done|]. simpl in Hge. lia.
  - apply Hc; try done.
    + unfold callable. by rewrite Hty.
    + by rewrite Hty.
Qed.

Lemma flatten_placed node : flatten_placed_at host node.
Proof.
  induction node as [node IH] using FileNode_children_ind.
  intros parentId st Hst [Hlk HL] Hp Hcall Hroot Hpl. rewrite flatten_unfold.
  destruct (400 <=? length (nodes st))%nat eqn:Hcap; [done|].
  apply Nat.leb_gt in Hcap.
  apply (flatten_all_placed _ IH).
  - rewrite visit_length. lia.
  - split; [by apply visit_linked|by apply visit_anchored].
  - apply visit_known.
  - by apply node_id_truthy.
  - intros Heq. pose proof (visit_length host node parentId st) as Hlen.
    by rewrite Heq in Hlen.
  - by apply visit_placed.
Qed.

Lemma flatten_root_placed root :
  name root ≠ "" → placed host (flatten host root None empty_store).
Proof.
  intros Hroot. apply flatten_placed; simpl; try done; lia.
Qed.

End Flatten_placement.

Lemma generateCityLayout_ids host root iterations :
  CityNode.id <$> generateCityLayout host root iterations
  = (link_of <$> nodes (layout_state host root iterations)).*1.
Proof.
  unfold generateCityLayout.
  rewrite fmap_imap, <- list_fmap_compose.
  by rewrite (imap_ext _ (const (fst ∘ link_of))), imap_const.
Qed.

Lemma zero_iterations_placement host root :
  name root ≠ "" →
  NoDup (CityNode.id <$> generateCityLayout host root 0) →
  initial_placement host root (generateCityLayout host root 0).
Proof.
  intros Hroot Hnd.
  rewrite generateCityLayout_ids in Hnd.
  unfold generateCityLayout.
  change (layout_state host root 0) with (flatten host root None empty_store)
    in *.
  set (st := flatten host root None empty_store) in *.
  assert (link_of <$> nodes st = link_of_visit <$> take 400 (preorder root))
    as HL.
  { unfold st.
    rewrite (flatten_links host root None None 0 empty_store), fmap_take;
      [done|simpl; lia]. }
  destruct (flatten_root_placed host root Hroot) as [Hpl _]. fold st in Hpl.
  intros k v c Hv Hc.
  apply list_lookup_imap_Some in Hc as (r & Hr & ->).
  assert ((link_of <$> nodes st) !! k = Some (link_of_visit v)) as Hlk.
  { by rewrite HL, list_lookup_fmap, Hv. }
  assert ((SimulationNode.position <$> nodes st) !! k
          = Some (SimulationNode.position r)) as Hpos.
  { by rewrite list_lookup_fmap, Hr. }
  pose proof (Hpl k _ _ Hlk Hpos) as Hplaced.
  rewrite HL in Hnd.
  rewrite HL, (link_slot_preorder _ _ _ Hroot Hnd Hv) in Hplaced.
  destruct (v_parent v) as [j|] eqn:Hj.
  - assert (j < length (nodes st)) as Hjlt.
    { pose proof (link_slot_preorder _ _ _ Hroot Hnd Hv) as Hs.
      rewrite Hj in Hs. apply link_slot_lt in Hs.
      by rewrite <- HL, length_fmap in Hs. }
    destruct (lookup_lt_is_Some_2 _ _ Hjlt) as [rp Hrp].
    rewrite list_lookup_fmap, Hrp in Hplaced. simpl in Hplaced.
    exists (toCityNode host (draws st) j rp). split.
    + by rewrite list_lookup_imap, Hrp.
    + unfold horizontal. simpl. by rewrite Hplaced.
  - unfold horizontal. simpl. by rewrite Hplaced.
Qed.

Lemma flatten_all_keeps_positions host cs :
  Forall (flatten_keeps_positions_at host) cs →
  ∀ id st,
    (SimulationNode.position <$> nodes st)
    `prefix_of` (SimulationNode.position
                   <$> nodes (flatten_all host id cs st)).
Proof.
  unfold flatten_all.
  induction 1 as [|c cs Hc _ IH]; intros id st; simpl; [done|].
  etrans; [apply (Hc (Some id) st)|apply IH].
Qed.

Lemma flatten_keeps_positions host node :
  flatten_keeps_positions_at host node.
Proof.
  induction node as [node IH] using FileNode_children_ind.
  intros parentId st. rewrite flatten_unfold.
  destruct (400 <=? length (nodes st))%nat; [done|].
  etrans; [|apply (flatten_all_keeps_positions _ _ IH)].
  rewrite visit_positions. by apply prefix_app_r.
Qed.

(** The root is placed at the origin, whatever the tree. *)
Lemma flatten_root_position host root :
  SimulationNode.position
    <$> (nodes (flatten host root None empty_store) !! 0)
  = Some Vector3.new.
Proof.
  rewrite <- list_lookup_fmap, flatten_unfold. simpl.
  eapply prefix_lookup_Some;
    [|apply (flatten_all_keeps_positions _ _
               (Forall_true _ _ (flatten_keeps_positions host)))].
  by rewrite visit_positions.
Qed.

(** C9: with no iteration the simulation leaves the store as [flatten]
    built it, and the root is exported at (0, 0); and when the root has a
    non-empty name and the ids are pairwise distinct, the exported horizontal
    positions are the initial placement: the position of the parent plus the
    one-time jitter for every node other than the root. *)
Theorem C9_zero_iterations host root :
  layout_state host root 0 = flatten host root None empty_store
  ∧ horizontal <$> (generateCityLayout host root 0 !! 0) = Some (0, 0)%float
  ∧ (name root ≠ "" →
     NoDup (CityNode.id <$> generateCityLayout host root 0) →
     initial_placement host root (generateCityLayout host root 0)).
Proof.
  split; [done|]. split; [|apply zero_iterations_placement].
  unfold generateCityLayout. rewrite list_lookup_imap.
  change (layout_state host root 0) with (flatten host root None empty_store).
  pose proof (flatten_root_position host root) as Hroot.
  destruct (nodes (flatten host root None empty_store) !! 0) as [r|]; [|done].
  injection Hroot as Hroot. unfold horizontal.
  change (Some (Vector3.x (SimulationNode.position r),
                Vector3.z (SimulationNode.position r))
          = Some (0, 0)%float).
  by rewrite Hroot.
Qed.

Lemma C9_zero_iterations_witness :
  initial_placement (constant_host 0.25 0) repo_with_a_ts
    (generateCityLayout (constant_host 0.25 0) repo_with_a_ts 0).
Proof.
  apply (proj2 (proj2
           (C9_zero_iterations (constant_host 0.25 0) repo_with_a_ts))).
  - discriminate.
  - apply (bool_decide_unpack _). vm_compute. exact I.
Defined.

Lemma C9_zero_iterations_counterexample :
  ¬ initial_placement counting_host nameless_root
      (generateCityLayout counting_host nameless_root 0)
  ∧ ¬ initial_placement counting_host twin_folders
        (generateCityLayout counting_host twin_folders 0).
Proof.
  split; intros H.
  - pose proof (H 1 _ _ eq_refl eq_refl) as H1. vm_compute in H1.
    destruct H1 as (pc & Hpc & Hh). injection Hpc as <-.
    apply (f_equal (λ p, (fst p =? 0)%float)) in Hh.
    vm_compute in Hh. discriminate.
  - pose proof (H 3 _ _ eq_refl eq_refl) as H3. vm_compute in H3.
    destruct H3 as (pc & Hpc & Hh). injection Hpc as <-.
    apply (f_equal (λ p, (fst p <? -92)%float)) in Hh.
    vm_compute in Hh. discriminate.
Qed.

(** ** Scenario B: a folder with one file *)

(** Coincident records stay where they are: each iteration draws four
    numbers for the two repulsion directions, which vanish, and the collision
    passes correct along a zero vector. *)
Lemma coincident_iteration k :
  iteration (constant_host 0.5 0) 1 {| nodes := coincident_records; draws := k |}
  = {| nodes := coincident_records; draws := S (S (S (S k))) |}.
Proof. vm_compute. reflexivity. Qed.

Lemma coincident_simulation n k :
  nodes (Nat.iter n (iteration (constant_host 0.5 0) 1)
           {| nodes := coincident_records; draws := k |})
  = coincident_records.
Proof.
  assert (Nat.iter n (iteration (constant_host 0.5 0) 1)
            {| nodes := coincident_records; draws := k |}
          = {| nodes := coincident_records; draws := 4 * n + k |}) as ->;
    [|done].
  induction n as [|n IH]; [done|].
  rewrite Nat.iter_succ, IH, coincident_iteration. f_equal. lia.
Qed.

Lemma coincident_layout iterations :
  nodes (layout_state (constant_host 0.5 0) repo_with_a_ts iterations)
  = coincident_records.
Proof.
  unfold layout_state, simulate.
  change (flatten (constant_host 0.5 0) repo_with_a_ts None empty_store)
    with {| nodes := coincident_records; draws := 2 |}.
  change (spacingMultiplier (constant_host 0.5 0)
            (length (nodes {| nodes := coincident_records; draws := 2 |})))
    with 1%float.
  apply coincident_simulation.
Qed.

(** When both draws of the jitter are 1/2 the file is placed on the root;
    if every later draw is 1/2 as well, the tie-break of the repulsion and the
    collision passes correct along a zero vector, and both records are at the
    origin after any number of iterations.  This is the centre that the grid
    of scenario B leaves out. *)
Lemma constant_half_coincides iterations :
  horizontal
    <$> generateCityLayout (constant_host 0.5 0) repo_with_a_ts iterations
  = [(0, 0)%float; (0, 0)%float].
Proof.
  unfold generateCityLayout. rewrite coincident_layout, fmap_imap. done.
Qed.

(** ** Characters of a string *)

Lemma char_free_app c s t :
  char_free c (String.append s t) = char_free c s && char_free c t.
Proof.
  induction s as [|a s IH]; [done|].
  change (negb (Ascii.eqb a c) && char_free c (String.append s t)
          = negb (Ascii.eqb a c) && char_free c s && char_free c t).
  by rewrite IH, andb_assoc.
Qed.

Lemma char_free_elem c s :
  char_free c s = true → ∀ a, a ∈ list_ascii_of_string s → a ≠ c.
Proof.
  induction s as [|b s IH]; simpl; intros Hs a Ha.
  - by apply elem_of_nil in Ha.
  - apply andb_true_iff in Hs as [Hb Hs].
    apply elem_of_cons in Ha as [->|Ha]; [|by apply IH].
    intros ->. by rewrite Ascii.eqb_refl in Hb.
Qed.

Lemma append_assoc (s t u : string) :
  String.append (String.append s t) u = String.append s (String.append t u).
Proof.
  induction s as [|a s IH]; [done|].
  change (String a (String.append (String.append s t) u)
          = String a (String.append s (String.append t u))).
  by rewrite IH.
Qed.

(** ** [split] and [pop] *)

Lemma split_from_segments sep cur s seg :
  char_free sep cur = true →
  seg ∈ JS.split_from sep cur s → char_free sep seg = true.
Proof.
  revert cur. induction s as [|c s IH]; intros cur Hcur; simpl.
  - intros ->%list_elem_of_singleton. done.
  - destruct (Ascii.eqb c sep) eqn:Hc.
    + intros [->|Hseg]%elem_of_cons; [done|]. by apply (IH EmptyString).
    + apply IH. rewrite char_free_app, Hcur. simpl. by rewrite Hc.
Qed.

Lemma pop_cons x l : is_Some (JS.pop l) → JS.pop (x :: l) = JS.pop l.
Proof. unfold JS.pop. intros [y Hy]. by rewrite last_cons, Hy. Qed.

Lemma split_from_is_Some sep cur s : is_Some (JS.pop (JS.split_from sep cur s)).
Proof.
  revert cur. induction s as [|c s IH]; intros cur; simpl; [by eexists|].
  destruct (Ascii.eqb c sep); [|apply IH].
  rewrite pop_cons; apply IH.
Qed.

(** The last segment of a string is the last segment of what follows any
    of its separators. *)
Lemma pop_split_from_app sep cur s1 s2 :
  JS.pop (JS.split_from sep cur (String.append s1 (String sep s2)))
  = JS.pop (JS.split_from sep EmptyString s2).
Proof.
  revert cur. induction s1 as [|c s1 IH]; intros cur.
  - change (JS.pop (JS.split_from sep cur (String sep s2))
            = JS.pop (JS.split_from sep EmptyString s2)).
    simpl. rewrite Ascii.eqb_refl. apply pop_cons, split_from_is_Some.
  - change (JS.pop (JS.split_from sep cur
                      (String c (String.append s1 (String sep s2))))
            = JS.pop (JS.split_from sep EmptyString s2)).
    simpl. destruct (Ascii.eqb c sep); [|apply IH].
    rewrite pop_cons; [apply IH|apply split_from_is_Some].
Qed.

Lemma pop_split_no_sep sep s :
  char_free sep s = true → JS.pop (JS.split sep s) = Some s.
Proof.
  intros Hs. unfold JS.split.
  by rewrite (split_from_no_sep _ _ _ (char_free_elem _ _ Hs)).
Qed.

(** The extension of an id is never empty and has no dot. *)
Lemma extension_of_id_shape id :
  extension_of_id id ≠ "" ∧ char_free "." (extension_of_id id) = true.
Proof.
  unfold extension_of_id.
  destruct (split_from_is_Some "." EmptyString id) as [seg Hseg].
  unfold JS.split. rewrite Hseg.
  assert (char_free "." seg = true) as Hfree.
  { apply (split_from_segments "." EmptyString id); [done|].
    unfold JS.pop in Hseg. by apply last_Some_elem_of. }
  unfold JS.or_string, JS.truthy_string.
  destruct (String.eqb_spec seg ""); simpl; [done|]. by split.
Qed.

(** The extension of an id that ends in a dot and a non-empty segment
    without a dot is that segment. *)
Lemma extension_of_id_dotted stem ext :
  ext ≠ "" → char_free "." ext = true →
  extension_of_id (String.append stem (String "." ext)) = ext.
Proof.
  intros Hne Hfree. unfold extension_of_id, JS.split.
  rewrite pop_split_from_app.
  change (JS.split_from "." EmptyString ext) with (JS.split "." ext).
  rewrite (pop_split_no_sep _ _ Hfree).
  unfold JS.or_string, JS.truthy_string.
  by destruct (String.eqb_spec ext "").
Qed.

(** ** Paths *)

Lemma append_inj_l (p s t : string) :
  String.append p s = String.append p t → s = t.
Proof.
  induction p as [|a p IH]; [done|].
  change (String a (String.append p s) = String a (String.append p t) → s = t).
  intros [=]. by apply IH.
Qed.

Lemma append_length (s t : string) :
  String.length (String.append s t) = String.length s + String.length t.
Proof.
  induction s as [|a s IH]; [done|].
  change (S (String.length (String.append s t))
          = S (String.length s + String.length t)).
  by rewrite IH.
Qed.

Lemma path_longer (p rest : string) :
  String.append p (String "/" rest) ≠ p.
Proof.
  intros H. apply (f_equal String.length) in H.
  rewrite append_length in H. simpl in H. lia.
Qed.

(** A name without "/" is determined by a path that starts with it. *)
Lemma name_of_path (n1 n2 x y : string) :
  char_free "/" n1 = true → char_free "/" n2 = true →
  (x = "" ∨ ∃ r, x = String "/" r) → (y = "" ∨ ∃ r, y = String "/" r) →
  String.append n1 x = String.append n2 y → n1 = n2.
Proof.
  revert n2. induction n1 as [|a n1 IH]; intros [|b n2] H1 H2 Hx Hy.
  - done.
  - change (x = String b (String.append n2 y) → "" = String b n2).
    simpl in H2. apply andb_true_iff in H2 as [Hb _].
    destruct Hx as [->|[r ->]]; [done|]. intros [= <- _]. done.
  - change (String a (String.append n1 x) = y → String a n1 = "").
    simpl in H1. apply andb_true_iff in H1 as [Ha _].
    destruct Hy as [->|[r ->]]; [done|]. intros [= -> _]. done.
  - change (String a (String.append n1 x) = String b (String.append n2 y)
            → String a n1 = String b n2).
    simpl in H1, H2.
    apply andb_true_iff in H1 as [_ H1]. apply andb_true_iff in H2 as [_ H2].
    intros [= -> H]. f_equal. by apply (IH n2).
Qed.

Lemma under_child (p n i : string) :
  under (String.append p (String "/" n)) i → under p i ∧ i ≠ p.
Proof.
  intros [->|[rest ->]].
  - split; [right; by exists n|apply path_longer].
  - rewrite append_assoc.
    change (String.append (String "/" n) (String "/" rest))
      with (String "/" (String.append n (String "/" rest))).
    split; [right; by eexists|apply path_longer].
Qed.

Lemma under_siblings (p n1 n2 i : string) :
  char_free "/" n1 = true → char_free "/" n2 = true →
  under (String.append p (String "/" n1)) i →
  under (String.append p (String "/" n2)) i → n1 = n2.
Proof.
  intros H1 H2 U1 U2.
  assert (∀ n, under (String.append p (String "/" n)) i →
               ∃ x, (x = "" ∨ ∃ r, x = String "/" r)
                    ∧ i = String.append p (String "/" (String.append n x)))
    as Hshape.
  { intros n [->|[rest ->]].
    - exists "". split; [by left|]. by rewrite append_empty_r.
    - exists (String "/" rest). split; [right; by eexists|].
      by rewrite append_assoc. }
  destruct (Hshape _ U1) as (x & Hx & ->).
  destruct (Hshape _ U2) as (y & Hy & Heq).
  apply append_inj_l in Heq. injection Heq as Heq.
  by apply (name_of_path n1 n2 x y).
Qed.

Lemma tidy_unfold node :
  tidy node = true →
  NoDup (name <$> children_list node)
  ∧ Forall (λ c, char_free "/" (name c) = true ∧ tidy c = true)
      (children_list node).
Proof.
  destruct node as [n ty [cs|] l c u]; simpl; [|by split; constructor].
  intros [Hnd Hall]%andb_true_iff. split; [by apply bool_decide_eq_true in Hnd|].
  apply Forall_forall. intros c' Hc'.
  rewrite forallb_forall in Hall.
  apply andb_true_iff, Hall, list_elem_of_In, Hc'.
Qed.

Lemma node_id_child node p :
  JS.truthy_string p = true →
  node_id node (Some p) = String.append p (String "/" (name node)).
Proof. intros Hp. unfold node_id. simpl. by rewrite Hp. Qed.

(** The ids of the walks of distinctly named children are pairwise distinct,
    each under the path of its child. *)
Lemma walk_all_ids_distinct id parent cs next :
  JS.truthy_string id = true →
  Forall walk_ids_distinct_at cs →
  NoDup (name <$> cs) →
  Forall (λ c, char_free "/" (name c) = true ∧ tidy c = true) cs →
  let ids := visit_id <$> walk_all id parent cs next in
  NoDup ids
  ∧ Forall (λ i, ∃ c, c ∈ cs
                      ∧ under (String.append id (String "/" (name c))) i) ids.
Proof.
  intros Hid HP. revert next.
  induction HP as [|c cs Hc HP IH]; intros next Hnd Hall; simpl.
  { split; constructor. }
  rewrite fmap_cons in Hnd. apply NoDup_cons in Hnd as [Hfresh Hnd].
  apply Forall_cons in Hall as [[Hfree Htidy] Hall].
  rewrite fmap_app.
  destruct (Hc (Some id) (Some parent) next Htidy) as [Hnd1 Hu1].
  { rewrite (node_id_child c id Hid). apply truthy_string_path. }
  rewrite (node_id_child c id Hid) in Hu1.
  destruct (IH (next + length (walk c (Some id) (Some parent) next)) Hnd Hall)
    as [Hnd2 Hu2].
  split.
  - apply NoDup_app. split; [done|]. split; [|done].
    intros i Hi1 Hi2.
    rewrite Forall_forall in Hu1. rewrite Forall_forall in Hu2.
    rewrite Forall_forall in Hall.
    destruct (Hu2 i Hi2) as (c' & Hc' & Hu').
    apply Hfresh. rewrite (under_siblings id (name c) (name c') i); try done.
    + by apply list_elem_of_fmap_2.
    + by apply Hall.
    + by apply Hu1.
  - apply Forall_app. split.
    + eapply Forall_impl; [exact Hu1|]. intros i Hi. exists c.
      split; [apply elem_of_cons; by left|done].
    + eapply Forall_impl; [exact Hu2|]. intros i (c' & Hc' & Hu').
      exists c'. split; [apply elem_of_cons; by right|done].
Qed.

Lemma walk_ids_distinct node : walk_ids_distinct_at node.
Proof.
  induction node as [node IH] using FileNode_children_ind.
  intros parentId parent start Htidy Hid. rewrite walk_unfold. simpl.
  destruct (tidy_unfold node Htidy) as [Hnd Hall].
  destruct (walk_all_ids_distinct (node_id node parentId) start
              (children_list node) (S start) Hid IH Hnd Hall) as [Hnd' Hu'].
  change (visit_id {| v_node := node; v_parentId := parentId;
                      v_parent := parent |})
    with (node_id node parentId).
  rewrite Forall_forall in Hu'.
  split.
  - apply NoDup_cons. split; [|done]. intros Hin.
    destruct (Hu' _ Hin) as (c & _ & Hu). by apply under_child in Hu as [_ Hu].
  - apply Forall_cons. split; [by left|].
    apply Forall_forall. intros i Hi.
    destruct (Hu' _ Hi) as (c & _ & Hu). by apply under_child in Hu as [Hu _].
Qed.

(** The ids of a tidy tree with a named root are pairwise distinct. *)
Lemma tidy_ids_distinct root :
  name root ≠ "" → tidy root = true → NoDup (visit_id <$> preorder root).
Proof.
  intros Hname Htidy.
  apply (walk_ids_distinct root None None 0 Htidy).
  unfold node_id, JS.truthy_string. simpl.
  by destruct (String.eqb_spec (name root) "").
Qed.

(** ** More about the exported records *)

Lemma layout_observed host root iterations k v c :
  take 400 (preorder root) !! k = Some v →
  generateCityLayout host root iterations !! k = Some c →
  observe c = observe (toCityNode host 0 0 (record_of_visit v)).
Proof.
  intros Hv Hc.
  pose proof (observe_generateCityLayout host root iterations) as H.
  apply (f_equal (λ l, l !! k)) in H.
  rewrite !list_lookup_fmap, Hv, Hc in H. simpl in H. congruence.
Qed.

Lemma layout_visits_length host root iterations :
  length (take 400 (preorder root))
  = length (generateCityLayout host root iterations).
Proof.
  rewrite <-(length_fmap observe (generateCityLayout _ _ _)).
  by rewrite observe_generateCityLayout, length_fmap.
Qed.

Lemma preorder_head root :
  take 400 (preorder root) !! 0
  = Some {| v_node := root; v_parentId := None; v_parent := None |}.
Proof. unfold preorder. by rewrite walk_unfold. Qed.

(** X1: the layout of any tree is non-empty and starts with the record of
    the root: its id is the root's name, it has the root's type, content and
    url, and no parent. *)
Theorem layout_starts_with_root host root iterations :
  ∃ c rest,
    generateCityLayout host root iterations = c :: rest
    ∧ CityNode.id c = name root
    ∧ CityNode.type c = type root
    ∧ CityNode.parentId c = None
    ∧ CityNode.codeSnippet c = content root
    ∧ CityNode.url c = url root.
Proof.
  pose proof (layout_visits_length host root iterations) as Hlen.
  pose proof (preorder_head root) as Hv.
  destruct (generateCityLayout host root iterations) as [|c rest] eqn:Hout.
  { apply lookup_lt_Some in Hv. simpl in Hlen. lia. }
  exists c, rest. split; [done|].
  assert (generateCityLayout host root iterations !! 0 = Some c) as Hc
    by by rewrite Hout.
  pose proof (layout_observed host root iterations 0 _ c Hv Hc) as Hobs.
  repeat split.
  - exact (f_equal o_id Hobs).
  - exact (f_equal o_type Hobs).
  - exact (f_equal o_parentId Hobs).
  - exact (f_equal o_codeSnippet Hobs).
  - exact (f_equal o_url Hobs).
Qed.

(** X2: the record of a visited node carries the node's content as its
    code snippet and the node's url, unchanged by the simulation; its [loc] is
    the node's, and 0 when that is absent, zero or not a number; it has a
    parent exactly when [flatten] was called for it with a non-empty id. *)
Theorem exported_fields_of_node host root iterations :
  Forall2
    (λ v c,
       CityNode.codeSnippet c = content (v_node v)
       ∧ CityNode.url c = url (v_node v)
       ∧ CityNode.loc c = node_loc (v_node v)
       ∧ CityNode.parentId c = JS.truthy_ref (v_parentId v))
    (take 400 (preorder root)) (generateCityLayout host root iterations).
Proof.
  apply Forall2_same_length_lookup_2; [apply layout_visits_length|].
  intros k v c Hv Hc.
  pose proof (layout_observed host root iterations k v c Hv Hc) as Hobs.
  repeat split.
  - exact (f_equal o_codeSnippet Hobs).
  - exact (f_equal o_url Hobs).
  - exact (f_equal o_loc Hobs).
  - exact (f_equal o_parentId Hobs).
Qed.

(** The last segment of a split is what follows the last separator, and the
    whole string when there is none. *)
Lemma split_from_last sep s :
  ∀ cur,
    char_free sep cur = true →
    ∃ seg,
      JS.pop (JS.split_from sep cur s) = Some seg
      ∧ char_free sep seg = true
      ∧ (cur +:+ s = seg ∨ ∃ stem, cur +:+ s = stem +:+ String sep seg).
Proof.
  induction s as [|c s IH]; intros cur Hcur.
  - exists cur. split; [done|]. split; [done|]. left. apply append_empty_r.
  - cbn [JS.split_from]. destruct (Ascii.eqb_spec c sep) as [->|Hc].
    + destruct (IH EmptyString eq_refl) as (seg & Hpop & Hfree & Hshape).
      exists seg. split; [|split; [done|]].
      * rewrite pop_cons; [done|]. by rewrite Hpop.
      * right. destruct Hshape as [Hs|[stem Hs]].
        -- exists cur. change (s = seg) in Hs. by rewrite Hs.
        -- exists (cur +:+ String sep stem).
           change (s = stem +:+ String sep seg) in Hs.
           by rewrite Hs, append_assoc.
    + destruct (IH (cur +:+ String c EmptyString)) as (seg & Hpop & Hfree & Hs).
      { rewrite char_free_app, Hcur. simpl.
        by destruct (Ascii.eqb_spec c sep). }
      exists seg. split; [done|]. split; [done|].
      by rewrite append_assoc in Hs.
Qed.

(** X3: the extension of an exported record is never empty and never
    contains a dot.  For a folder it is "folder"; for a file it is the text
    after the last dot of the id, the whole id when it has no dot, and "txt"
    when that text is empty. *)
Theorem extension_never_empty_nor_dotted host root iterations :
  Forall
    (λ c,
       CityNode.extension c ≠ ""
       ∧ char_free "." (CityNode.extension c) = true
       ∧ match CityNode.type c with
         | folder => CityNode.extension c = "folder"
         | file =>
             ∃ seg,
               char_free "." seg = true
               ∧ (CityNode.id c = seg
                  ∨ ∃ stem, CityNode.id c = stem +:+ "." +:+ seg)
               ∧ CityNode.extension c
                 = if String.eqb seg "" then "txt" else seg
         end)
    (generateCityLayout host root iterations).
Proof.
  apply Forall_lookup. intros k c Hc.
  unfold generateCityLayout in Hc. cbv zeta in Hc.
  apply list_lookup_imap_Some in Hc as (r & _ & ->).
  unfold toCityNode.
  cbn [CityNode.extension CityNode.type CityNode.id].
  destruct (SimulationNode.type r); cbn [NodeType_eqb]; [|done].
  destruct (extension_of_id_shape (SimulationNode.id r)) as [Hne Hfree].
  split; [done|]. split; [done|].
  destruct (split_from_last "." (SimulationNode.id r) EmptyString eq_refl)
    as (seg & Hpop & Hseg & Hshape).
  exists seg. split; [done|]. split; [exact Hshape|].
  unfold extension_of_id, JS.split. rewrite Hpop.
  unfold JS.or_string, JS.truthy_string. by destruct (String.eqb seg "").
Qed.

(** X4: a file whose name ends in a dot followed by a non-empty segment
    without a dot is exported with that segment as its extension, wherever
    it is in the tree. *)
Theorem extension_of_dotted_name host root iterations k v c stem ext :
  take 400 (preorder root) !! k = Some v →
  generateCityLayout host root iterations !! k = Some c →
  type (v_node v) = file →
  name (v_node v) = stem +:+ "." +:+ ext →
  ext ≠ "" → char_free "." ext = true →
  CityNode.extension c = ext.
Proof.
  intros Hv Hc Hty Hname Hne Hfree.
  pose proof (layout_observed host root iterations k v c Hv Hc) as Hobs.
  apply (f_equal o_extension) in Hobs. cbn [observe o_extension] in Hobs.
  rewrite Hobs. unfold toCityNode, record_of_visit.
  cbn [CityNode.extension SimulationNode.type SimulationNode.id].
  rewrite Hty. cbn [NodeType_eqb].
  unfold visit_id, node_id. rewrite Hname.
  destruct (JS.truthy_ref (v_parentId v)) as [p|].
  - change (p ++ "/" ++ stem +:+ "." +:+ ext)%string
      with (p +:+ (String "/" stem +:+ String "." ext)).
    rewrite <-append_assoc. by apply extension_of_id_dotted.
  - by apply extension_of_id_dotted.
Qed.

Lemma extension_of_dotted_name_witness :
  ∃ c, generateCityLayout (constant_host 0.25 0) repo_with_a_ts 50 !! 1
       = Some c
       ∧ CityNode.extension c = "ts".
Proof.
  destruct (generateCityLayout (constant_host 0.25 0) repo_with_a_ts 50 !! 1)
    as [c|] eqn:Hc; [|by vm_compute in Hc].
  exists c. split; [reflexivity|].
  apply (extension_of_dotted_name (constant_host 0.25 0) repo_with_a_ts 50
           1 _ c "a" "ts" eq_refl Hc); clear Hc;
    [reflexivity|reflexivity|discriminate|reflexivity].
Defined.

(** ** Ids as paths *)

Lemma truthy_string_nonempty s : JS.truthy_string s = true → s ≠ "".
Proof. unfold JS.truthy_string. by destruct (String.eqb_spec s ""). Qed.

Lemma truthy_ref_truthy p :
  JS.truthy_string p = true → JS.truthy_ref (Some p) = Some p.
Proof. intros Hp. simpl. by rewrite Hp. Qed.

(** Under a named root every parent reference passed to [flatten] is
    non-empty. *)
Lemma preorder_refs_truthy root k v :
  name root ≠ "" → preorder root !! k = Some v →
  JS.truthy_ref (v_parentId v) = v_parentId v.
Proof.
  intros Hname Hv.
  destruct (preorder_parents root k v Hv)
    as [(_ & _ & -> & _)|(j & vp & _ & Hvp & _ & ->)]; [done|].
  apply truthy_ref_truthy. by apply (preorder_ids_truthy root j).
Qed.

(** X5: when the root has a name, the id of every record is a non-empty
    path: the name of the root for the first, and for any other the id of its
    parent, "/" and the name of its node; the [parentId] exported is the one
    [flatten] was called with. *)
Theorem ids_are_paths host root iterations :
  name root ≠ "" →
  Forall2
    (λ v c,
       CityNode.id c ≠ ""
       ∧ CityNode.parentId c = v_parentId v
       ∧ CityNode.id c = path_id (CityNode.parentId c) (v_node v))
    (take 400 (preorder root)) (generateCityLayout host root iterations).
Proof.
  intros Hname.
  apply Forall2_same_length_lookup_2; [apply layout_visits_length|].
  intros k v c Hv Hc.
  pose proof (layout_observed host root iterations k v c Hv Hc) as Hobs.
  apply lookup_take_Some in Hv as [Hv _].
  pose proof (preorder_refs_truthy root k v Hname Hv) as Href.
  pose proof (f_equal o_id Hobs) as Hid.
  pose proof (f_equal o_parentId Hobs) as Hpar.
  cbn [observe toCityNode record_of_visit o_id o_parentId CityNode.id
       CityNode.parentId SimulationNode.id SimulationNode.parentId]
    in Hid, Hpar.
  rewrite Href in Hpar. rewrite Hid, Hpar. repeat split.
  - apply truthy_string_nonempty, (preorder_ids_truthy root k v Hname Hv).
  - unfold visit_id, node_id, path_id. by rewrite Href.
Qed.

Lemma ids_are_paths_witness :
  Forall2
    (λ v c,
       CityNode.id c ≠ ""
       ∧ CityNode.parentId c = v_parentId v
       ∧ CityNode.id c = path_id (CityNode.parentId c) (v_node v))
    (take 400 (preorder repo_with_a_ts))
    (generateCityLayout (constant_host 0.25 0) repo_with_a_ts 50).
Proof. by apply (ids_are_paths (constant_host 0.25 0) repo_with_a_ts 50). Defined.

Lemma layout_ids_of_visits host root iterations :
  CityNode.id <$> generateCityLayout host root iterations
  = take 400 (visit_id <$> preorder root).
Proof.
  rewrite generateCityLayout_ids, layout_state_links.
  rewrite <-list_fmap_compose, fmap_take. done.
Qed.

Lemma state_ids_of_visits host root iterations :
  SimulationNode.id <$> nodes (layout_state host root iterations)
  = take 400 (visit_id <$> preorder root).
Proof.
  rewrite <-(layout_ids_of_visits host root iterations).
  rewrite generateCityLayout_ids. by rewrite <-list_fmap_compose.
Qed.

(** X6: in a tree whose root has a name and in which the children of every
    node have pairwise distinct names without "/", the ids of the records are
    pairwise distinct; the adjacency of the records is then that of the tree,
    and without iterations every record is where [flatten] placed it. *)
Theorem tidy_tree_layout host root iterations :
  name root ≠ "" → tidy root = true →
  NoDup (CityNode.id <$> generateCityLayout host root iterations)
  ∧ adjacency_consistent root (nodes (layout_state host root iterations))
  ∧ initial_placement host root (generateCityLayout host root 0).
Proof.
  intros Hname Htidy.
  assert (NoDup (take 400 (visit_id <$> preorder root))) as Hnd.
  { eapply sublist_NoDup; [|apply sublist_take].
    by apply tidy_ids_distinct. }
  split; [by rewrite layout_ids_of_visits|]. split.
  - apply layout_state_adjacency; [done|]. by rewrite state_ids_of_visits.
  - apply zero_iterations_placement; [done|]. by rewrite layout_ids_of_visits.
Qed.

Lemma tidy_tree_layout_witness :
  NoDup (CityNode.id
           <$> generateCityLayout (constant_host 0.25 0) repo_with_a_ts 50)
  ∧ adjacency_consistent repo_with_a_ts
      (nodes (layout_state (constant_host 0.25 0) repo_with_a_ts 50))
  ∧ initial_placement (constant_host 0.25 0) repo_with_a_ts
      (generateCityLayout (constant_host 0.25 0) repo_with_a_ts 0).
Proof.
  apply (tidy_tree_layout (constant_host 0.25 0) repo_with_a_ts 50);
    [done|reflexivity].
Defined.

(** ** Links of any tree *)

Lemma well_linked_fixed ns ns' :
  fixed <$> ns = fixed <$> ns' → well_linked ns → well_linked ns'.
Proof.
  intros Hfix [Hlinked Hanchored].
  assert (link_of <$> ns' = link_of <$> ns) as HL.
  { trans (link_of <$> (fixed <$> ns')).
    { rewrite <-list_fmap_compose. by apply list_fmap_ext. }
    rewrite <-Hfix, <-list_fmap_compose. by apply list_fmap_ext. }
  split.
  - intros k r' Hr'. rewrite HL.
    destruct (fixed_lookup ns ns' k r' Hfix Hr') as (r & Hr & Heq).
    rewrite <-(Hlinked k r Hr).
    exact (eq_sym (f_equal SimulationNode.childrenIds Heq)).
  - by rewrite HL.
Qed.

(** X7: for every tree, named or not and with or without repeated ids,
    after any number of iterations each record lists, in order, the ids of
    exactly the records whose non-empty [parentId] is first found, by
    [nodes.find], at that record; and every non-empty [parentId] is found at
    an earlier record. *)
Theorem children_follow_find host root iterations :
  well_linked (nodes (layout_state host root iterations)).
Proof.
  apply (well_linked_fixed (nodes (flatten host root None empty_store))).
  - symmetry. apply simulate_fixed.
  - apply flatten_root_well_linked.
Qed.

(** ** The simulation *)

(** X8: from any store, the simulation keeps the number and the order of
    the records and writes nothing but positions and velocities. *)
Theorem simulation_only_moves host iterations st :
  length (nodes (simulate host iterations st)) = length (nodes st)
  ∧ ∀ k r,
      nodes st !! k = Some r →
      ∃ r', nodes (simulate host iterations st) !! k = Some r'
            ∧ fixed r' = fixed r.
Proof.
  pose proof (simulate_fixed host iterations st) as Hfix. split.
  - by rewrite <-(length_fmap fixed), Hfix, length_fmap.
  - intros k r Hr. by apply (fixed_lookup _ (nodes st)).
Qed.

(** ** Random numbers of a run without iterations *)

(** X9: in a run without iterations over a tree with a named root,
    [flatten] draws two random numbers for every record but the first, and the
    [k]-th record takes its [lastModified] from the [k]-th reading of the clock
    and the next draw after those. *)
Theorem zero_iterations_timestamps host root k c :
  name root ≠ "" →
  generateCityLayout host root 0 !! k = Some c →
  CityNode.lastModified c
  = (Date_now host k
     - Math_random host (2 * (totalNodes root `min` 400 - 1) + k)
       * 1000 * 60 * 60 * 24 * 30)%float.
Proof.
  intros Hname Hc.
  pose proof (generateCityLayout_length host root 0) as Hlen.
  unfold generateCityLayout in Hc, Hlen. cbv zeta in Hc, Hlen.
  rewrite length_imap in Hlen.
  apply list_lookup_imap_Some in Hc as (r & _ & ->).
  destruct (flatten_root_placed host root Hname) as [_ Hdraws].
  change (layout_state host root 0)
    with (flatten host root None empty_store) in *.
  unfold toCityNode. cbn [CityNode.lastModified].
  by rewrite Hdraws, Hlen.
Qed.

Lemma zero_iterations_timestamps_witness :
  ∃ c, generateCityLayout counting_host repo_with_a_ts 0 !! 1 = Some c
       ∧ CityNode.lastModified c
         = (0 - 0.046875 * 1000 * 60 * 60 * 24 * 30)%float.
Proof.
  destruct (generateCityLayout counting_host repo_with_a_ts 0 !! 1)
    as [c|] eqn:Hc; [|by vm_compute in Hc].
  exists c. split; [reflexivity|].
  rewrite (zero_iterations_timestamps counting_host repo_with_a_ts 1 c);
    [reflexivity|discriminate|exact Hc].
Defined.

(** ** District labels *)

Lemma slot_of_first ids p k :
  ids !! k = Some p → (∀ j, j < k → ids !! j ≠ Some p) →
  slot_of ids p = Some k.
Proof.
  intros Hk Hfirst. unfold slot_of.
  assert (list_find (λ i, i = p) ids = Some (k, p)) as ->; [|done].
  apply list_find_Some. split; [done|]. split; [done|].
  intros j y Hy Hj ->. by apply (Hfirst j).
Qed.

Lemma exported_links host root iterations :
  exported_link <$> generateCityLayout host root iterations
  = export_link <$> (link_of <$> nodes (layout_state host root iterations)).
Proof.
  unfold generateCityLayout. cbv zeta.
  apply list_eq. intros i.
  rewrite !list_lookup_fmap, list_lookup_imap.
  by destruct (nodes (layout_state host root iterations) !! i).
Qed.

(** The ids the scene takes for the children of the record with id [p],
    from the links of the working records. *)
Lemma district_children_links host root iterations c :
  CityNode.id <$> district_children (generateCityLayout host root iterations) c
  = (filter (λ e, JS.truthy_ref e.2 = Some (CityNode.id c))
       (link_of <$> nodes (layout_state host root iterations))).*1.
Proof.
  unfold district_children.
  trans ((filter (λ e : Link, e.2 = Some (CityNode.id c))
            (exported_link <$> generateCityLayout host root iterations)).*1).
  { rewrite filter_fmap_comp, <-list_fmap_compose. done. }
  rewrite exported_links, filter_fmap_comp, <-list_fmap_compose. done.
Qed.

(** The label of a folder with a non-empty name without "/" shows that
    name. *)
Lemma label_name_of_path p n :
  n ≠ "" → char_free "/" n = true →
  label_name n = n ∧ label_name (p +:+ "/" +:+ n) = n.
Proof.
  intros Hne Hfree. unfold label_name, JS.split.
  change (p +:+ "/" +:+ n) with (p +:+ String "/" n).
  rewrite pop_split_from_app.
  change (JS.split_from "/" EmptyString n) with (JS.split "/" n).
  rewrite (pop_split_no_sep _ _ Hfree).
  unfold JS.or_string, JS.truthy_string.
  by destruct (String.eqb_spec n "").
Qed.

(** X10: the district label of a folder whose name is not empty and has no
    "/" shows that name, whatever the rest of the tree. *)
Theorem district_label_shows_name host root iterations k v c :
  take 400 (preorder root) !! k = Some v →
  generateCityLayout host root iterations !! k = Some c →
  name (v_node v) ≠ "" → char_free "/" (name (v_node v)) = true →
  Label.name (district_label (generateCityLayout host root iterations) c)
  = name (v_node v).
Proof.
  intros Hv Hc Hne Hfree.
  pose proof (layout_observed host root iterations k v c Hv Hc) as Hobs.
  apply (f_equal o_id) in Hobs.
  cbn [observe toCityNode record_of_visit o_id CityNode.id SimulationNode.id]
    in Hobs.
  unfold district_label. cbn [Label.name]. rewrite Hobs.
  unfold visit_id, node_id.
  destruct (JS.truthy_ref (v_parentId v)) as [p|].
  - apply (label_name_of_path p _ Hne Hfree).
  - apply (label_name_of_path "" _ Hne Hfree).
Qed.

Lemma district_label_shows_name_witness :
  ∃ c, generateCityLayout (constant_host 0.25 0) twin_folders 50 !! 2 = Some c
       ∧ Label.name
           (district_label (generateCityLayout (constant_host 0.25 0)
                              twin_folders 50) c) = "a".
Proof.
  destruct (generateCityLayout (constant_host 0.25 0) twin_folders 50 !! 2)
    as [c|] eqn:Hc; [|by vm_compute in Hc].
  exists c. split; [reflexivity|].
  apply (district_label_shows_name (constant_host 0.25 0) twin_folders 50
           2 _ c eq_refl Hc); clear Hc; [discriminate|reflexivity].
Defined.

(** X11: the records the scene averages for the label of a record are the
    ones the engine listed as its children, in the same order, provided no
    earlier record has the same id. *)
Theorem district_children_are_listed host root iterations k r c :
  nodes (layout_state host root iterations) !! k = Some r →
  generateCityLayout host root iterations !! k = Some c →
  (∀ j c', j < k → generateCityLayout host root iterations !! j = Some c' →
           CityNode.id c' ≠ CityNode.id c) →
  CityNode.id <$> district_children (generateCityLayout host root iterations) c
  = SimulationNode.childrenIds r.
Proof.
  intros Hr Hc Hfirst.
  assert (linked (nodes (layout_state host root iterations))) as Hlinked.
  { apply (well_linked_fixed (nodes (flatten host root None empty_store)));
      [symmetry; apply simulate_fixed|apply flatten_root_well_linked]. }
  rewrite (Hlinked k r Hr), district_children_links. unfold children_of.
  set (L := link_of <$> nodes (layout_state host root iterations)).
  assert (L.*1 = CityNode.id <$> generateCityLayout host root iterations)
    as Hids by by rewrite generateCityLayout_ids.
  assert (slot_of L.*1 (CityNode.id c) = Some k) as Hslot.
  { apply slot_of_first.
    - by rewrite Hids, list_lookup_fmap, Hc.
    - intros j Hj Hlook. rewrite Hids, list_lookup_fmap in Hlook.
      destruct (generateCityLayout host root iterations !! j) as [c'|] eqn:Hc';
        [|done].
      injection Hlook as Hlook. by apply (Hfirst j c'). }
  f_equal. apply filter_ext_elem. intros e _. unfold link_slot. split.
  - intros ->. done.
  - destruct (JS.truthy_ref e.2) as [p|]; [|done]. simpl. intros Hp.
    apply slot_of_Some in Hp as [Hp _].
    apply slot_of_Some in Hslot as [Hslot _]. congruence.
Qed.

Lemma district_children_are_listed_witness :
  ∃ r c,
    nodes (layout_state (constant_host 0.25 0) repo_with_a_ts 50) !! 0 = Some r
    ∧ generateCityLayout (constant_host 0.25 0) repo_with_a_ts 50 !! 0 = Some c
    ∧ CityNode.id
        <$> district_children
              (generateCityLayout (constant_host 0.25 0) repo_with_a_ts 50) c
      = SimulationNode.childrenIds r.
Proof.
  destruct (nodes (layout_state (constant_host 0.25 0) repo_with_a_ts 50) !! 0)
    as [r|] eqn:Hr; [|by vm_compute in Hr].
  destruct (generateCityLayout (constant_host 0.25 0) repo_with_a_ts 50 !! 0)
    as [c|] eqn:Hc; [|by vm_compute in Hc].
  exists r, c. split; [reflexivity|]. split; [reflexivity|].
  apply (district_children_are_listed (constant_host 0.25 0) repo_with_a_ts 50
           0 r c Hr Hc).
  intros j c' Hj. lia.
Defined.

(** X12: a folder record that no record names as its parent gets its label
    at its own place, at height 50.5. *)
Theorem childless_folder_label host root iterations k c :
  generateCityLayout host root iterations !! k = Some c →
  CityNode.type c = folder →
  district_children (generateCityLayout host root iterations) c = [] →
  Label.position (district_label (generateCityLayout host root iterations) c)
  = (fst (horizontal c), 50.5%float, snd (horizontal c)).
Proof.
  intros Hc Hty Hnone.
  unfold district_label, label_position. cbn [Label.position].
  rewrite Hnone. cbn [length Nat.ltb Nat.leb].
  pose proof (layout_visits_length host root iterations) as Hlen.
  destruct (take 400 (preorder root) !! k) as [v|] eqn:Hv.
  2:{ apply lookup_ge_None in Hv. apply lookup_lt_Some in Hc. lia. }
  pose proof (layout_observed host root iterations k v c Hv Hc) as Hobs.
  pose proof (f_equal o_type Hobs) as Htype.
  pose proof (f_equal o_height Hobs) as Hheight.
  cbn [observe toCityNode record_of_visit o_type o_height CityNode.type
       CityNode.position SimulationNode.type SimulationNode.targetHeight
       fst snd] in Htype, Hheight.
  rewrite Hty in Htype. unfold node_height in Hheight.
  rewrite <-Htype in Hheight. cbn [NodeType_eqb] in Hheight.
  unfold horizontal.
  destruct (CityNode.position c) as [[x y] z]. cbn [fst snd] in *.
  by rewrite Hheight.
Qed.

Lemma childless_folder_label_witness :
  ∃ c, generateCityLayout (constant_host 0.25 0) repo_only 50 !! 0 = Some c
       ∧ Label.position
           (district_label (generateCityLayout (constant_host 0.25 0)
                              repo_only 50) c)
         = (0, 50.5, 0)%float.
Proof.
  destruct (generateCityLayout (constant_host 0.25 0) repo_only 50 !! 0)
    as [c|] eqn:Hc; [|by vm_compute in Hc].
  exists c. split; [reflexivity|].
  rewrite (childless_folder_label (constant_host 0.25 0) repo_only 50 0 c Hc);
    vm_compute in Hc; injection Hc as <-; vm_compute; reflexivity.
Defined.

(** ** The tree of the fetcher *)

Lemma grown_unfold A pre t :
  grown A pre t
  ↔ NoDup (name <$> children_list t)
    ∧ Forall (λ c, char_free "/" (name c) = true
                   ∧ A (pre ++ [name c]) (type c)
                   ∧ grown A (pre ++ [name c]) c)
        (children_list t).
Proof.
  destruct t as [n ty [cs|] l c u]; unfold children_list; simpl.
  - apply and_iff_compat_l.
    induction cs as [|c' cs IH]; [by rewrite Forall_nil|].
    by rewrite Forall_cons, IH.
  - split; [intros _; split; constructor|done].
Qed.

Lemma grown_mono (A A' : list string → NodeType → Prop) t :
  ∀ pre, (∀ p ty, A p ty → A' p ty) → grown A pre t → grown A' pre t.
Proof.
  induction t as [t IH] using FileNode_children_ind.
  intros pre Hmono. rewrite !grown_unfold. intros [Hnd Hall].
  split; [done|]. rewrite Forall_forall in IH, Hall.
  apply Forall_forall. intros c Hc.
  destruct (Hall c Hc) as (H1 & H2 & H3).
  split; [done|]. split; [by apply Hmono|]. by apply (IH c Hc).
Qed.

Lemma tidy_intro t :
  NoDup (name <$> children_list t) →
  Forall (λ c, char_free "/" (name c) = true ∧ tidy c = true)
    (children_list t) →
  tidy t = true.
Proof.
  destruct t as [n ty [cs|] l c u]; simpl; [|done].
  intros Hnd Hall. apply andb_true_iff. split; [by apply bool_decide_eq_true|].
  apply forallb_forall. intros c' Hc'. rewrite Forall_forall in Hall.
  apply andb_true_iff, Hall, list_elem_of_In, Hc'.
Qed.

Lemma grown_tidy A t : ∀ pre, grown A pre t → tidy t = true.
Proof.
  induction t as [t IH] using FileNode_children_ind.
  intros pre [Hnd Hall]%grown_unfold. apply tidy_intro; [done|].
  rewrite Forall_forall in IH, Hall. apply Forall_forall. intros c Hc.
  destruct (Hall c Hc) as (H1 & _ & H3). split; [done|]. exact (IH c Hc _ H3).
Qed.

Lemma findOrCreateFolder_name k parent n :
  name (findOrCreateFolder k parent n) = name parent
  ∧ type (findOrCreateFolder k parent n) = type parent.
Proof.
  unfold findOrCreateFolder.
  by destruct (list_find (is_folder_named n) (children_list parent))
    as [[i f]|].
Qed.

Lemma descend_name k parts dir :
  (∀ d, name (k d) = name d ∧ type (k d) = type d) →
  name (descend k parts dir) = name dir
  ∧ type (descend k parts dir) = type dir.
Proof.
  intros Hk. destruct parts; simpl; [apply Hk|apply findOrCreateFolder_name].
Qed.

Lemma place_item_name Math_ceil fileName item d :
  name (place_item Math_ceil fileName item d) = name d
  ∧ type (place_item Math_ceil fileName item d) = type d.
Proof.
  unfold place_item.
  destruct (String.eqb (GitHubTreeItem.type item) "blob"); [done|].
  destruct (String.eqb (GitHubTreeItem.type item) "tree"); [|done].
  apply findOrCreateFolder_name.
Qed.

(** Going down [parts] from a grown tree, and updating the directory
    reached, leaves a grown tree, when no file is in the way. *)
Lemma descend_grown (A A' : list string → NodeType → Prop) k parts :
  ∀ pre t,
    (∀ p ty, A p ty → A' p ty) →
    (∀ d, name (k d) = name d ∧ type (k d) = type d) →
    Forall (λ s, char_free "/" s = true) parts →
    (∀ j, 0 < j ≤ length parts → A' (pre ++ take j parts) folder) →
    (∀ j, 0 < j ≤ length parts → ¬ A (pre ++ take j parts) file) →
    (∀ dir, grown A (pre ++ parts) dir → grown A' (pre ++ parts) (k dir)) →
    grown A pre t → grown A' pre (descend k parts t).
Proof.
  induction parts as [|part parts IH];
    intros pre t Hmono Hk Hfree Hnew Hnofile Hend Ht.
  { simpl. rewrite app_nil_r in Hend. by apply Hend. }
  apply Forall_cons in Hfree as [Hpart Hfree].
  assert (∀ f, grown A (pre ++ [part]) f
               → grown A' (pre ++ [part]) (descend k parts f)) as Hsub.
  { intros f Hf. apply IH; try done.
    - intros j Hj. rewrite <-app_assoc. apply (Hnew (S j)). simpl. lia.
    - intros j Hj. rewrite <-app_assoc. apply (Hnofile (S j)). simpl. lia.
    - intros dir. rewrite <-app_assoc. apply Hend. }
  assert (A' (pre ++ [part]) folder) as Hfolder.
  { apply (Hnew 1). simpl. lia. }
  apply grown_unfold in Ht as [Hnd Hall].
  assert (Forall (λ c, char_free "/" (name c) = true
                       ∧ A' (pre ++ [name c]) (type c)
                       ∧ grown A' (pre ++ [name c]) c)
            (children_list t)) as Hall'.
  { eapply Forall_impl; [exact Hall|]. intros c (H1 & H2 & H3).
    split; [done|]. split; [by apply Hmono|]. by apply (grown_mono A A'). }
  cbn [descend]. unfold findOrCreateFolder.
  destruct (list_find (is_folder_named part) (children_list t))
    as [[i f]|] eqn:Hfind.
  - apply list_find_Some in Hfind as (Hi & [Hname Hty] & _).
    destruct (descend_name k parts f Hk) as [Hname' Hty'].
    apply grown_unfold.
    change (children_list (with_children ?cs t)) with cs.
    split.
    + rewrite list_fmap_insert, Hname'.
      rewrite list_insert_id; [done|]. by rewrite list_lookup_fmap, Hi.
    + apply Forall_insert; [done|]. rewrite Hname', Hty', Hname, Hty.
      split; [done|]. split; [done|]. apply Hsub.
      rewrite Forall_forall in Hall.
      destruct (Hall f (list_elem_of_lookup_2 _ _ _ Hi)) as (_ & _ & Hf).
      by rewrite Hname in Hf.
  - apply list_find_None in Hfind.
    assert (part ∉ name <$> children_list t) as Hfresh.
    { intros (c & Hc & Hin)%list_elem_of_fmap.
      rewrite Forall_forall in Hall, Hfind.
      destruct (Hall c Hin) as (_ & HA & _). destruct (type c) eqn:Hty.
      - apply (Hnofile 1); [simpl; lia|]. simpl. by rewrite Hc.
      - by apply (Hfind c Hin). }
    destruct (descend_name k parts (new_folder part) Hk) as [Hname' Hty'].
    apply grown_unfold.
    change (children_list (with_children ?cs t)) with cs.
    split.
    + rewrite fmap_app. apply NoDup_app. split; [done|].
      split; [|apply NoDup_singleton].
      intros x Hx Hx'%list_elem_of_singleton. rewrite Hname' in Hx'.
      simpl in Hx'. by subst x.
    + apply Forall_app. split; [done|]. apply Forall_singleton.
      rewrite Hname', Hty'. simpl. split; [done|]. split; [done|].
      apply Hsub, grown_unfold. simpl. split; constructor.
Qed.

Lemma push_file_grown (A A' : list string → NodeType → Prop) pre f dir :
  (∀ p ty, A p ty → A' p ty) →
  (∀ ty, ¬ A (pre ++ [name f]) ty) →
  char_free "/" (name f) = true →
  A' (pre ++ [name f]) (type f) →
  children f = None →
  grown A pre dir → grown A' pre (push_file f dir).
Proof.
  intros Hmono Hfresh Hfree HA Hleaf [Hnd Hall]%grown_unfold.
  apply grown_unfold. unfold push_file.
  change (children_list (with_children ?cs dir)) with cs.
  split.
  - rewrite fmap_app. apply NoDup_app. split; [done|].
    split; [|apply NoDup_singleton].
    intros x Hx Hx'%list_elem_of_singleton. simpl in Hx'. subst x.
    apply list_elem_of_fmap in Hx as (c & Hc & Hin).
    rewrite Forall_forall in Hall. destruct (Hall c Hin) as (_ & HAc & _).
    apply (Hfresh (type c)). by rewrite Hc.
  - apply Forall_app. split.
    + eapply Forall_impl; [exact Hall|]. intros c (H1 & H2 & H3).
      split; [done|]. split; [by apply Hmono|]. by apply (grown_mono A A').
    + apply Forall_singleton. split; [done|]. split; [done|].
      destruct f as [n ty cs l c u]. simpl in Hleaf. by subst cs.
Qed.

Lemma removelast_pop (l : list string) x :
  JS.pop l = Some x → l = removelast l ++ [x].
Proof. intros [l' ->]%last_Some. by rewrite removelast_last. Qed.

Lemma segments_free item :
  Forall (λ s, char_free "/" s = true) (segments item).
Proof.
  apply Forall_forall. intros s Hs.
  by apply (split_from_segments "/" EmptyString (GitHubTreeItem.path item)).
Qed.

Lemma accounted_mono seen x p ty :
  accounted seen p ty → accounted (seen ++ [x]) p ty.
Proof.
  intros (y & Hy & H). exists y. split; [|done].
  apply elem_of_app. by left.
Qed.

Lemma prefix_take_app {A} (l : list A) j x : take j l `prefix_of` l ++ [x].
Proof. exists (drop j l ++ [x]). by rewrite app_assoc, take_drop. Qed.

(** Adding an item that no file of the items seen is in the way of, and
    that is in the way of no item seen if it is a file, keeps the tree
    grown. *)
Lemma add_item_grown Math_ceil seen x t :
  (∀ b, b ∈ seen → GitHubTreeItem.type b = "blob" →
        ¬ segments b `prefix_of` segments x) →
  (GitHubTreeItem.type x = "blob" →
   ∀ y, y ∈ seen → ¬ segments x `prefix_of` segments y) →
  grown (accounted seen) [] t →
  grown (accounted (seen ++ [x])) [] (add_item Math_ceil t x).
Proof.
  intros H1 H2 Ht.
  destruct (split_from_is_Some "/" EmptyString (GitHubTreeItem.path x))
    as [fileName Hpop].
  change (JS.split_from "/" EmptyString (GitHubTreeItem.path x))
    with (segments x) in Hpop.
  pose proof (removelast_pop _ _ Hpop) as Hsegs.
  pose proof (segments_free x) as Hfree.
  unfold add_item. rewrite Hpop. cbn [default from_option id].
  set (parts := removelast (segments x)) in *.
  rewrite Hsegs in Hfree. apply Forall_app in Hfree as [Hparts Hname].
  rewrite Forall_singleton in Hname.
  assert (x ∈ seen ++ [x]) as Hx.
  { apply elem_of_app. right. by apply list_elem_of_singleton. }
  assert (∀ q, q `prefix_of` segments x → accounted (seen ++ [x]) q folder)
    as Hnew.
  { intros q Hq. exists x. split; [done|]. split; [done|]. done. }
  assert (∀ q, q `prefix_of` segments x → ¬ accounted seen q file) as Hnofile.
  { intros q Hq (b & Hb & _ & Hfile).
    destruct (Hfile eq_refl) as [Hblob Heq].
    apply (H1 b Hb Hblob). by rewrite Heq. }
  assert (∀ dir, grown (accounted seen) parts dir
                 → grown (accounted (seen ++ [x])) parts dir) as Hmono.
  { intros dir. apply grown_mono. intros p ty. apply accounted_mono. }
  apply (descend_grown (accounted seen) (accounted (seen ++ [x]))).
  - intros p ty. apply accounted_mono.
  - apply place_item_name.
  - done.
  - intros j Hj. apply Hnew. rewrite Hsegs. apply prefix_take_app.
  - intros j Hj. apply Hnofile. rewrite Hsegs. apply prefix_take_app.
  - intros dir Hdir. cbn [app] in *. unfold place_item.
    destruct (String.eqb_spec (GitHubTreeItem.type x) "blob") as [Hblob|_].
    + apply (push_file_grown (accounted seen)); try done.
      * intros p ty. apply accounted_mono.
      * intros ty (y & Hy & Hpre & _). apply (H2 Hblob y Hy).
        rewrite Hsegs. exact Hpre.
      * cbn [file_of_item name type]. exists x. split; [done|].
        rewrite <-Hsegs. by repeat split.
    + destruct (String.eqb (GitHubTreeItem.type x) "tree"); [|by apply Hmono].
      change (findOrCreateFolder id dir fileName)
        with (descend id [fileName] dir).
      apply (descend_grown (accounted seen) (accounted (seen ++ [x]))).
      * intros p ty. apply accounted_mono.
      * done.
      * by apply Forall_singleton.
      * intros [|[|j]] Hj; simpl in Hj; try lia.
        apply Hnew. cbn [take]. by rewrite <-Hsegs.
      * intros [|[|j]] Hj; simpl in Hj; try lia.
        apply Hnofile. cbn [take]. by rewrite <-Hsegs.
      * intros dir'. apply grown_mono. intros p ty. apply accounted_mono.
      * done.
  - done.
Qed.

Lemma build_tree_snoc Math_ceil repo items x :
  build_tree Math_ceil repo (items ++ [x])
  = add_item Math_ceil (build_tree Math_ceil repo items) x.
Proof. unfold build_tree. by rewrite fold_left_app. Qed.

Lemma git_like_snoc items x :
  git_like (items ++ [x]) →
  git_like items
  ∧ (∀ b, b ∈ items → GitHubTreeItem.type b = "blob" →
          ¬ segments b `prefix_of` segments x)
  ∧ (GitHubTreeItem.type x = "blob" →
     ∀ y, y ∈ items → ¬ segments x `prefix_of` segments y).
Proof.
  intros Hgit.
  assert ((items ++ [x]) !! length items = Some x) as Hx.
  { by rewrite lookup_app_r, Nat.sub_diag by lia. }
  split; [|split].
  - intros i j b y Hb Hy. apply Hgit; by apply lookup_app_l_Some.
  - intros b [i Hi]%list_elem_of_lookup Hblob Hpre.
    pose proof (lookup_lt_Some _ _ _ Hi) as Hlt.
    pose proof (Hgit i (length items) b x
                  (lookup_app_l_Some _ _ _ _ Hi) Hx Hblob Hpre). lia.
  - intros Hblob y [i Hi]%list_elem_of_lookup Hpre.
    pose proof (lookup_lt_Some _ _ _ Hi) as Hlt.
    pose proof (Hgit (length items) i x y Hx
                  (lookup_app_l_Some _ _ _ _ Hi) Hblob Hpre). lia.
Qed.

(** The tree built from a listing as git gives it is grown. *)
Lemma build_tree_grown Math_ceil repo items :
  git_like items →
  grown (accounted items) [] (build_tree Math_ceil repo items).
Proof.
  induction items as [|x items IH] using rev_ind; intros Hgit.
  { apply grown_unfold. simpl. split; constructor. }
  apply git_like_snoc in Hgit as (Hgit & H1 & H2).
  rewrite build_tree_snoc. by apply add_item_grown; [| |apply IH].
Qed.

Lemma add_item_name Math_ceil t x :
  name (add_item Math_ceil t x) = name t
  ∧ type (add_item Math_ceil t x) = type t.
Proof. apply descend_name. intros d. apply place_item_name. Qed.

Lemma build_tree_name Math_ceil repo items :
  name (build_tree Math_ceil repo items) = repo
  ∧ type (build_tree Math_ceil repo items) = folder.
Proof.
  induction items as [|x items IH] using rev_ind; [done|].
  rewrite build_tree_snoc.
  destruct (add_item_name Math_ceil (build_tree Math_ceil repo items) x)
    as [-> ->]. done.
Qed.

(** ** Files of the tree *)

Lemma count_files_unfold t :
  count_files t
  = (if NodeType_eqb (type t) file then 1 else 0)
    + list_sum (count_files <$> children_list t).
Proof. by destruct t as [n ty [cs|] l c u]. Qed.

Lemma list_sum_insert (l : list nat) i x y :
  l !! i = Some y → list_sum (<[i:=x]> l) + y = list_sum l + x.
Proof.
  revert i. induction l as [|a l IH]; intros [|i] Hi; simpl in *; try done.
  - injection Hi as ->. lia.
  - specialize (IH i Hi). lia.
Qed.

Lemma descend_count k parts d :
  ∀ t,
    (∀ dir, count_files (k dir) = count_files dir + d) →
    count_files (descend k parts t) = count_files t + d.
Proof.
  induction parts as [|part parts IH]; intros t Hk; [apply Hk|].
  cbn [descend]. unfold findOrCreateFolder.
  rewrite (count_files_unfold t).
  destruct (list_find (is_folder_named part) (children_list t))
    as [[i f]|] eqn:Hfind; rewrite count_files_unfold;
    change (children_list (with_children ?cs t)) with cs;
    change (type (with_children ?cs t)) with (type t).
  - apply list_find_Some in Hfind as (Hi & _ & _).
    rewrite list_fmap_insert, (IH f Hk).
    pose proof (list_sum_insert (count_files <$> children_list t) i
                  (count_files f + d) (count_files f)) as Hsum.
    rewrite list_lookup_fmap, Hi in Hsum. specialize (Hsum eq_refl). lia.
  - rewrite fmap_app, list_sum_app. simpl.
    rewrite (IH (new_folder part) Hk). simpl. lia.
Qed.

Lemma add_item_count Math_ceil t x :
  count_files (add_item Math_ceil t x)
  = count_files t
    + (if String.eqb (GitHubTreeItem.type x) "blob" then 1 else 0).
Proof.
  apply descend_count. intros dir. unfold place_item.
  destruct (String.eqb (GitHubTreeItem.type x) "blob").
  - unfold push_file. rewrite count_files_unfold.
    change (children_list (with_children ?cs dir)) with cs.
    change (type (with_children ?cs dir)) with (type dir).
    rewrite fmap_app, list_sum_app, (count_files_unfold dir). simpl. lia.
  - destruct (String.eqb (GitHubTreeItem.type x) "tree"); [|lia].
    change (findOrCreateFolder id dir ?n) with (descend id [n] dir).
    apply descend_count. intros dir'. simpl. lia.
Qed.

(** X13: whatever the listing, the tree the fetcher builds has exactly one
    file for each entry of type "blob": none is dropped, none is merged with
    another. *)
Theorem one_file_for_each_blob Math_ceil repo items :
  count_files (build_tree Math_ceil repo items)
  = length (filter (λ x, GitHubTreeItem.type x = "blob") items).
Proof.
  induction items as [|x items IH] using rev_ind; [done|].
  rewrite build_tree_snoc, add_item_count, IH, filter_app, length_app.
  f_equal. rewrite filter_cons, filter_nil.
  destruct (String.eqb_spec (GitHubTreeItem.type x) "blob");
    by destruct (decide (GitHubTreeItem.type x = "blob")).
Qed.

(** ** The address of the repository *)

Lemma strip_prefix_Some pat :
  ∀ s rest, strip_prefix pat s = Some rest → s = pat +:+ rest.
Proof.
  induction pat as [|a pat IH]; intros s rest; simpl; [by intros [= ->]|].
  destruct s as [|b s]; [done|].
  destruct (Ascii.eqb_spec a b) as [->|]; [|done].
  intros H. by rewrite (IH s rest H).
Qed.

Lemma strip_prefix_app pat rest : strip_prefix pat (pat +:+ rest) = Some rest.
Proof.
  induction pat as [|a pat IH]; simpl; [by destruct rest|].
  by rewrite Ascii.eqb_refl.
Qed.

Lemma remove_first_unfold pat s :
  remove_first pat s
  = match strip_prefix pat s with
    | Some rest => rest
    | None =>
        match s with
        | EmptyString => EmptyString
        | String c s' => String c (remove_first pat s')
        end
    end.
Proof. by destruct s. Qed.

Lemma count_char_app c s t :
  count_char c (s +:+ t) = count_char c s + count_char c t.
Proof.
  induction s as [|a s IH]; [done|].
  change (count_char c (String a (s +:+ t))
          = count_char c (String a s) + count_char c t).
  simpl. rewrite IH. lia.
Qed.

Lemma char_free_count c s : char_free c s = true → count_char c s = 0.
Proof.
  induction s as [|a s IH]; simpl; [done|].
  intros [Ha Hs]%andb_true_iff. rewrite (IH Hs).
  by destruct (Ascii.eqb a c).
Qed.

(** Nothing is removed from a string with fewer [c] than the pattern. *)
Lemma remove_first_fewer c pat s :
  count_char c s < count_char c pat → remove_first pat s = s.
Proof.
  induction s as [|a s IH]; intros Hlt; rewrite remove_first_unfold.
  - destruct (strip_prefix pat "") as [rest|] eqn:Hrest; [|done].
    apply strip_prefix_Some in Hrest.
    apply (f_equal (count_char c)) in Hrest.
    rewrite count_char_app in Hrest. simpl in *. lia.
  - destruct (strip_prefix pat (String a s)) as [rest|] eqn:Hrest.
    + apply strip_prefix_Some in Hrest.
      apply (f_equal (count_char c)) in Hrest.
      rewrite count_char_app in Hrest. lia.
    + f_equal. apply IH. simpl in Hlt. lia.
Qed.

Lemma remove_first_prefix pat rest : remove_first pat (pat +:+ rest) = rest.
Proof. by rewrite remove_first_unfold, strip_prefix_app. Qed.

Lemma append_nonempty s r : r ≠ "" → s +:+ r ≠ "".
Proof. by destruct s, r. Qed.

Lemma strip_trailing_slash_free r :
  char_free "/" r = true → strip_trailing_slash r = r.
Proof.
  induction r as [|a r IH]; simpl; [done|].
  intros [Ha Hr]%andb_true_iff. rewrite (IH Hr).
  by destruct (Ascii.eqb a "/").
Qed.

Lemma strip_trailing_slash_app s r :
  r ≠ "" → char_free "/" r = true →
  strip_trailing_slash (s +:+ r) = s +:+ r.
Proof.
  intros Hne Hfree. induction s as [|a s IH].
  - by apply strip_trailing_slash_free.
  - change (strip_trailing_slash (String a (s +:+ r)) = String a (s +:+ r)).
    simpl. rewrite IH.
    destruct (String.eqb_spec (s +:+ r) ""); [by apply (append_nonempty s) in Hne|].
    by rewrite andb_false_r.
Qed.

Lemma strip_trailing_slash_snoc s : strip_trailing_slash (s +:+ "/") = s.
Proof.
  induction s as [|a s IH]; [done|].
  change (strip_trailing_slash (String a (s +:+ "/")) = String a s).
  simpl. rewrite IH.
  destruct (String.eqb_spec (s +:+ "/") ""); [by destruct s|].
  by rewrite andb_false_r.
Qed.

Lemma strip_trailing_slash_mid s t :
  ∃ u, strip_trailing_slash (s +:+ String "/" t) = s +:+ u
       ∧ (u = "" ∨ ∃ u', u = String "/" u').
Proof.
  induction s as [|a s (u & IH & Hu)].
  - change (∃ u, strip_trailing_slash (String "/" t) = u
                 ∧ (u = "" ∨ ∃ u', u = String "/" u')).
    simpl. destruct (String.eqb t ""); eauto.
  - exists u. split; [|done].
    change (strip_trailing_slash (String a (s +:+ String "/" t))
            = String a (s +:+ u)).
    simpl. rewrite IH.
    destruct (String.eqb_spec (s +:+ String "/" t) ""); [by destruct s|].
    by rewrite andb_false_r.
Qed.

Lemma split_from_sep sep s :
  ∀ cur rest,
    char_free sep s = true →
    JS.split_from sep cur (s +:+ String sep rest)
    = (cur +:+ s) :: JS.split_from sep EmptyString rest.
Proof.
  induction s as [|a s IH]; intros cur rest Hs.
  - change (JS.split_from sep cur (String sep rest)
            = (cur +:+ "") :: JS.split_from sep EmptyString rest).
    simpl. by rewrite Ascii.eqb_refl, append_empty_r.
  - change (JS.split_from sep cur (String a (s +:+ String sep rest))
            = (cur +:+ String a s) :: JS.split_from sep EmptyString rest).
    simpl in Hs. apply andb_true_iff in Hs as [Ha Hs].
    simpl. destruct (Ascii.eqb a sep); [done|].
    rewrite (IH _ _ Hs), append_assoc. done.
Qed.

Lemma split_from_head sep cur r u :
  char_free sep r = true → (u = "" ∨ ∃ u', u = String sep u') →
  ∃ tl, JS.split_from sep cur (r +:+ u) = (cur +:+ r) :: tl.
Proof.
  intros Hr [->|[u' ->]].
  - rewrite append_empty_r. eexists.
    apply split_from_no_sep. by apply char_free_elem.
  - eexists. by apply split_from_sep.
Qed.

(** What step 1 reads off a cleaned address. *)
Lemma parts_of_clean owner repo u :
  char_free "/" owner = true → char_free "/" repo = true →
  (u = "" ∨ ∃ u', u = String "/" u') →
  ∃ tl, JS.split "/" (owner +:+ String "/" (repo +:+ u))
        = owner :: repo :: tl.
Proof.
  intros Ho Hr Hu. unfold JS.split.
  rewrite (split_from_sep "/" owner EmptyString _ Ho).
  destruct (split_from_head "/" EmptyString repo u Hr Hu) as [tl ->].
  by exists tl.
Qed.

Lemma clean_shape owner repo tail :
  repo ≠ "" → char_free "/" repo = true →
  (tail = "" ∨ ∃ t, tail = String "/" t) →
  ∃ u, strip_trailing_slash (owner +:+ String "/" (repo +:+ tail))
       = owner +:+ String "/" (repo +:+ u)
       ∧ (u = "" ∨ ∃ u', u = String "/" u').
Proof.
  intros Hne Hfree [->|[t ->]].
  - exists "". split; [|by left]. rewrite append_empty_r.
    change (owner +:+ String "/" repo) with (owner +:+ ("/" +:+ repo)).
    rewrite <-append_assoc. by apply strip_trailing_slash_app.
  - destruct (strip_trailing_slash_mid (owner +:+ String "/" repo) t)
      as (u & Hu & Hshape).
    exists u. split; [|done].
    change (owner +:+ String "/" (repo +:+ String "/" t))
      with (owner +:+ (String "/" repo +:+ String "/" t)).
    rewrite <-append_assoc, Hu, append_assoc. done.
Qed.

Lemma parse_clean owner repo u :
  owner ≠ "" → repo ≠ "" →
  char_free "/" owner = true → char_free "/" repo = true →
  (u = "" ∨ ∃ u', u = String "/" u') →
  match JS.truthy_ref (JS.split "/" (owner +:+ String "/" (repo +:+ u)) !! 0),
        JS.truthy_ref (JS.split "/" (owner +:+ String "/" (repo +:+ u)) !! 1)
  with
  | Some o, Some r => inr (o, r)
  | _, _ => inl invalid_url
  end = inr (owner, repo).
Proof.
  intros Ho Hr Hfo Hfr Hu.
  destruct (parts_of_clean owner repo u Hfo Hfr Hu) as [tl ->]. simpl.
  unfold JS.truthy_string.
  destruct (String.eqb_spec owner ""); [done|].
  by destruct (String.eqb_spec repo "").
Qed.

(** X14: an address that step 1 accepts gives an owner and a repository that
    are not empty and have no "/". *)
Theorem parse_repo_accepts url owner repo :
  parse_repo url = inr (owner, repo) →
  owner ≠ "" ∧ repo ≠ ""
  ∧ char_free "/" owner = true ∧ char_free "/" repo = true.
Proof.
  unfold parse_repo.
  set (parts := JS.split "/" _).
  assert (∀ i s, JS.truthy_ref (parts !! i) = Some s
                 → s ≠ "" ∧ char_free "/" s = true) as Hpart.
  { intros i s Hs. destruct (parts !! i) as [p|] eqn:Hp; [|done].
    simpl in Hs. destruct (JS.truthy_string p) eqn:Htruthy; [|done].
    injection Hs as <-. split; [by apply truthy_string_nonempty|].
    apply list_elem_of_lookup_2 in Hp.
    by apply (split_from_segments "/" EmptyString) in Hp. }
  destruct (JS.truthy_ref (parts !! 0)) as [o|] eqn:Ho; [|done].
  destruct (JS.truthy_ref (parts !! 1)) as [r|] eqn:Hr; [|done].
  intros [= <- <-].
  destruct (Hpart 0 o Ho), (Hpart 1 r Hr). done.
Qed.

Lemma parse_repo_accepts_witness :
  "facebook" ≠ "" ∧ "react" ≠ ""
  ∧ char_free "/" "facebook" = true ∧ char_free "/" "react" = true.
Proof.
  apply (parse_repo_accepts "https://github.com/facebook/react/").
  reflexivity.
Defined.

(** X15: step 1 reads the owner and the repository off
    "https://github.com/owner/repo", with or without a "/" or a longer path
    after it, and off the same without the prefix when it has no ":". *)
Theorem parse_repo_reads owner repo tail :
  owner ≠ "" → repo ≠ "" →
  char_free "/" owner = true → char_free "/" repo = true →
  (tail = "" ∨ ∃ t, tail = "/" +:+ t) →
  parse_repo ("https://github.com/" +:+ owner +:+ "/" +:+ repo +:+ tail)
  = inr (owner, repo)
  ∧ (char_free ":" (owner +:+ "/" +:+ repo +:+ tail) = true →
     parse_repo (owner +:+ "/" +:+ repo +:+ tail) = inr (owner, repo)).
Proof.
  intros Ho Hr Hfo Hfr Htail.
  destruct (clean_shape owner repo tail Hr Hfr Htail) as (u & Hclean & Hu).
  split; [|intros Hcolon]; unfold parse_repo.
  - rewrite remove_first_prefix.
    change (owner +:+ "/" +:+ repo +:+ tail)
      with (owner +:+ String "/" (repo +:+ tail)).
    rewrite Hclean. by apply parse_clean.
  - rewrite (remove_first_fewer ":");
      [|by rewrite (char_free_count _ _ Hcolon); vm_compute; lia].
    change (owner +:+ "/" +:+ repo +:+ tail)
      with (owner +:+ String "/" (repo +:+ tail)).
    rewrite Hclean. by apply parse_clean.
Qed.

Lemma parse_repo_reads_witness :
  parse_repo "https://github.com/facebook/react/tree/main"
  = inr ("facebook", "react")
  ∧ (char_free ":" "facebook/react/tree/main" = true →
     parse_repo "facebook/react/tree/main" = inr ("facebook", "react")).
Proof.
  apply (parse_repo_reads "facebook" "react" "/tree/main");
    [discriminate|discriminate|reflexivity|reflexivity|].
  right. by exists "tree/main".
Defined.

(** X16: an address without "/" is rejected, and so is one with nothing
    but a "/" after it or the prefix before it. *)
Theorem parse_repo_rejects s :
  char_free "/" s = true →
  parse_repo s = inl invalid_url
  ∧ parse_repo (s +:+ "/") = inl invalid_url
  ∧ parse_repo ("https://github.com/" +:+ s) = inl invalid_url.
Proof.
  intros Hs.
  assert (match JS.truthy_ref (JS.split "/" s !! 0),
                JS.truthy_ref (JS.split "/" s !! 1)
          with
          | Some o, Some r => inr (o, r)
          | _, _ => inl invalid_url
          end = inl invalid_url) as Hone.
  { unfold JS.split.
    rewrite (split_from_no_sep _ _ _ (char_free_elem _ _ Hs)). simpl.
    by destruct (JS.truthy_string _). }
  pose proof (char_free_count _ _ Hs) as Hcount.
  repeat split; unfold parse_repo.
  - rewrite (remove_first_fewer "/"); [|rewrite Hcount; vm_compute; lia].
    by rewrite (strip_trailing_slash_free _ Hs).
  - rewrite (remove_first_fewer "/");
      [|rewrite count_char_app, Hcount; vm_compute; lia].
    by rewrite strip_trailing_slash_snoc.
  - rewrite remove_first_prefix. by rewrite (strip_trailing_slash_free _ Hs).
Qed.

Lemma parse_repo_rejects_witness :
  parse_repo "react" = inl invalid_url
  ∧ parse_repo "react/" = inl invalid_url
  ∧ parse_repo "https://github.com/react" = inl invalid_url.
Proof. apply (parse_repo_rejects "react"). reflexivity. Defined.

(** ** The cache key *)

Lemma split_first_inj c n1 :
  ∀ n2 x y,
    char_free c n1 = true → char_free c n2 = true →
    n1 +:+ String c x = n2 +:+ String c y → n1 = n2 ∧ x = y.
Proof.
  induction n1 as [|a n1 IH]; intros [|b n2] x y H1 H2.
  - by intros [= ->].
  - change (String c x = String b (n2 +:+ String c y) → "" = String b n2 ∧ x = y).
    simpl in H2. apply andb_true_iff in H2 as [Hb _].
    intros [= -> _]. by rewrite Ascii.eqb_refl in Hb.
  - change (String a (n1 +:+ String c x) = String c y → String a n1 = "" ∧ x = y).
    simpl in H1. apply andb_true_iff in H1 as [Ha _].
    intros [= -> _]. by rewrite Ascii.eqb_refl in Ha.
  - change (String a (n1 +:+ String c x) = String b (n2 +:+ String c y)
            → String a n1 = String b n2 ∧ x = y).
    simpl in H1, H2.
    apply andb_true_iff in H1 as [_ H1]. apply andb_true_iff in H2 as [_ H2].
    intros [= -> H]. destruct (IH n2 x y H1 H2 H) as [-> ->]. done.
Qed.

(** X17: the cache key does not tell the owner from the repository when
    they have a "-": the owner "a-b" with the repository "c" and the owner "a"
    with the repository "b-c" share a key, whatever "a", "b" and "c" are. *)
Theorem cacheKey_collides a b c :
  cacheKey (a +:+ "-" +:+ b) c = cacheKey a (b +:+ "-" +:+ c).
Proof.
  unfold cacheKey. f_equal.
  change (a +:+ "-" +:+ b) with (a +:+ String "-" b).
  by rewrite append_assoc.
Qed.

(** X18: two repositories whose owners have no "-" have the same cache key
    only if they are the same repository of the same owner. *)
Theorem cacheKey_tells_apart owner1 repo1 owner2 repo2 :
  char_free "-" owner1 = true → char_free "-" owner2 = true →
  cacheKey owner1 repo1 = cacheKey owner2 repo2 →
  owner1 = owner2 ∧ repo1 = repo2.
Proof.
  intros H1 H2 Hkey. unfold cacheKey in Hkey.
  apply append_inj_l in Hkey. by apply (split_first_inj "-").
Qed.

Lemma cacheKey_tells_apart_witness :
  "facebook" = "facebook" ∧ "react" = "react".
Proof.
  by apply (cacheKey_tells_apart "facebook" "react" "facebook" "react").
Defined.

(** ** From the address to the layout *)

(** X19: for an address that step 1 accepts and a listing as git gives it,
    the tree of step 5 has the repository for its root and the children of
    every node have pairwise distinct names without "/"; the layout of that
    tree then has pairwise distinct ids and the adjacency of the tree. *)
Theorem fetched_tree_layout Math_ceil host url owner repo items iterations :
  parse_repo url = inr (owner, repo) →
  git_like items →
  let root := build_tree Math_ceil repo items in
  name root = repo ∧ name root ≠ "" ∧ type root = folder
  ∧ tidy root = true
  ∧ NoDup (CityNode.id <$> generateCityLayout host root iterations)
  ∧ adjacency_consistent root (nodes (layout_state host root iterations)).
Proof.
  intros Hurl Hgit root.
  destruct (build_tree_name Math_ceil repo items) as [Hname Hty].
  assert (name root ≠ "") as Hne.
  { unfold root. rewrite Hname. unfold parse_repo in Hurl.
    destruct (JS.truthy_ref (_ !! 0)) as [o|]; [|done].
    destruct (JS.truthy_ref (_ !! 1)) as [r|] eqn:Hr; [|done].
    injection Hurl as <- <-.
    destruct (_ !! 1) as [p|]; [|done]. simpl in Hr.
    destruct (JS.truthy_string p) eqn:Hp; [|done]. injection Hr as <-.
    by apply truthy_string_nonempty. }
  assert (tidy root = true) as Htidy.
  { apply (grown_tidy (accounted items) root []).
    by apply build_tree_grown. }
  assert (NoDup (take 400 (visit_id <$> preorder root))) as Hnd.
  { eapply sublist_NoDup; [|apply sublist_take].
    by apply tidy_ids_distinct. }
  do 4 (split; [done|]). split.
  - by rewrite layout_ids_of_visits.
  - apply layout_state_adjacency; [done|]. by rewrite state_ids_of_visits.
Qed.

Lemma git_like_example : git_like listing_example.
Proof.
  intros [|[|i]] [|[|j]] b x Hb Hx Hblob Hpre; try done.
  - injection Hb as <-. injection Hx as <-.
    apply (bool_decide_pack _) in Hpre. by vm_compute in Hpre.
  - injection Hb as <-. done.
Qed.

(** No entry of the example has a size, so [Math.ceil] is not called. *)
Lemma fetched_tree_layout_witness :
  let root := build_tree (λ x, x) "react" listing_example in
  name root = "react" ∧ name root ≠ "" ∧ type root = folder
  ∧ tidy root = true
  ∧ NoDup (CityNode.id
             <$> generateCityLayout (constant_host 0.25 0) root 1)
  ∧ adjacency_consistent root
      (nodes (layout_state (constant_host 0.25 0) root 1)).
Proof.
  apply (fetched_tree_layout (λ x, x) (constant_host 0.25 0)
           "facebook/react" "facebook" "react" listing_example 1);
    [reflexivity|apply git_like_example].
Defined.

(** ** What the tree is made of *)

Lemma all_below_unfold P t :
  all_below P t ↔ Forall (λ c, P c ∧ all_below P c) (children_list t).
Proof.
  destruct t as [n ty [cs|] l c u]; unfold children_list; simpl.
  - induction cs as [|c' cs IH]; [by rewrite Forall_nil|].
    by rewrite Forall_cons, IH.
  - split; [intros _; constructor|done].
Qed.

Lemma all_below_mono (P Q : FileNode → Prop) t :
  (∀ n, P n → Q n) → all_below P t → all_below Q t.
Proof.
  intros HPQ. induction t as [t IH] using FileNode_children_ind.
  rewrite !all_below_unfold. intros Hall.
  rewrite Forall_forall in IH, Hall. apply Forall_forall. intros c Hc.
  destruct (Hall c Hc) as [H1 H2]. split; [by apply HPQ|]. by apply (IH c Hc).
Qed.

(** Going down [parts] from a folder whose nodes satisfy [P], and updating
    the folder reached, leaves a folder whose nodes satisfy [P]. *)
Lemma descend_all (P : FileNode → Prop) k parts :
  (∀ n cs, type n = folder → P n → P (with_children cs n)) →
  (∀ d, type d = folder →
        (P d → P (k d)) ∧ (all_below P d → all_below P (k d))) →
  Forall (λ part, P (new_folder part)) parts →
  ∀ t, type t = folder →
       (P t → P (descend k parts t))
       ∧ (all_below P t → all_below P (descend k parts t)).
Proof.
  intros Hins Hk. induction parts as [|part parts IH]; intros Hnew t Hty.
  { by apply Hk. }
  apply Forall_cons in Hnew as [Hpart Hnew].
  cbn [descend]. unfold findOrCreateFolder. split.
  { intros Ht.
    by destruct (list_find (is_folder_named part) (children_list t))
      as [[i f]|]; apply Hins. }
  intros Hall%all_below_unfold.
  destruct (list_find (is_folder_named part) (children_list t))
    as [[i f]|] eqn:Hfind; apply all_below_unfold;
    change (children_list (with_children ?cs t)) with cs.
  - apply list_find_Some in Hfind as (Hi & [_ Hf] & _).
    apply Forall_insert; [done|].
    rewrite Forall_forall in Hall.
    destruct (Hall f (list_elem_of_lookup_2 _ _ _ Hi)) as [H1 H2].
    destruct (IH Hnew f Hf) as [IH1 IH2]. split; [by apply IH1|by apply IH2].
  - apply Forall_app. split; [done|]. apply Forall_singleton.
    destruct (IH Hnew (new_folder part) eq_refl) as [IH1 IH2].
    split; [by apply IH1|]. apply IH2, all_below_unfold. constructor.
Qed.

Lemma from_listing_mono Math_ceil seen x n :
  from_listing Math_ceil seen n → from_listing Math_ceil (seen ++ [x]) n.
Proof.
  intros [Hfree [Hn|(y & f & Hy & H)]]; (split; [done|]); [by left|].
  right. exists y, f. split; [|done]. apply elem_of_app. by left.
Qed.

Lemma from_listing_folder Math_ceil seen n cs :
  type n = folder → from_listing Math_ceil seen n →
  from_listing Math_ceil seen (with_children cs n).
Proof.
  intros Hty [Hfree [Hn|(y & f & _ & _ & _ & ->)]]; [|done].
  split; [done|]. by left.
Qed.

Lemma from_listing_new Math_ceil seen part :
  char_free "/" part = true → from_listing Math_ceil seen (new_folder part).
Proof. intros Hpart. split; [done|]. by left. Qed.

Lemma add_item_all Math_ceil seen x t :
  type t = folder →
  all_below (from_listing Math_ceil seen) t →
  all_below (from_listing Math_ceil (seen ++ [x])) (add_item Math_ceil t x).
Proof.
  intros Hty Ht.
  apply (all_below_mono _ (from_listing Math_ceil (seen ++ [x]))) in Ht;
    [|intros n; apply from_listing_mono].
  destruct (split_from_is_Some "/" EmptyString (GitHubTreeItem.path x))
    as [fileName Hpop].
  change (JS.split_from "/" EmptyString (GitHubTreeItem.path x))
    with (segments x) in Hpop.
  pose proof (removelast_pop _ _ Hpop) as Hsegs.
  pose proof (segments_free x) as Hfree.
  unfold add_item. rewrite Hpop. cbn [default from_option id].
  set (parts := removelast (segments x)) in *.
  rewrite Hsegs in Hfree. apply Forall_app in Hfree as [Hparts Hname].
  rewrite Forall_singleton in Hname.
  set (P := from_listing Math_ceil (seen ++ [x])) in *.
  assert (∀ n cs, type n = folder → P n → P (with_children cs n)) as Hins.
  { intros n cs. apply from_listing_folder. }
  assert (∀ ps, Forall (λ s, char_free "/" s = true) ps
                → Forall (λ part, P (new_folder part)) ps) as Hnew.
  { intros ps Hps. eapply Forall_impl; [exact Hps|].
    intros part. apply from_listing_new. }
  apply (descend_all P); try done; [|by apply Hnew].
  intros d Hd. unfold place_item.
  destruct (String.eqb_spec (GitHubTreeItem.type x) "blob") as [Hblob|_].
  - split; [by apply Hins|]. intros Hall%all_below_unfold.
    apply all_below_unfold. unfold push_file.
    change (children_list (with_children ?cs d)) with cs.
    apply Forall_app. split; [done|]. apply Forall_singleton. split; [|done].
    split; [done|]. right. exists x, fileName. split; [|done].
    apply elem_of_app. right. by apply list_elem_of_singleton.
  - destruct (String.eqb (GitHubTreeItem.type x) "tree"); [|done].
    change (findOrCreateFolder id d fileName)
      with (descend id [fileName] d).
    apply (descend_all P); try done.
    apply Hnew. by apply Forall_singleton.
Qed.

Lemma build_tree_all Math_ceil repo items :
  all_below (from_listing Math_ceil items) (build_tree Math_ceil repo items).
Proof.
  induction items as [|x items IH] using rev_ind.
  { apply all_below_unfold. constructor. }
  rewrite build_tree_snoc. apply add_item_all; [|done].
  apply build_tree_name.
Qed.

Lemma findOrCreateFolder_fields k parent n :
  loc (findOrCreateFolder k parent n) = loc parent
  ∧ content (findOrCreateFolder k parent n) = content parent
  ∧ url (findOrCreateFolder k parent n) = url parent.
Proof.
  unfold findOrCreateFolder.
  by destruct (list_find (is_folder_named n) (children_list parent))
    as [[i f]|].
Qed.

Lemma add_item_fields Math_ceil t x :
  loc (add_item Math_ceil t x) = loc t
  ∧ content (add_item Math_ceil t x) = content t
  ∧ url (add_item Math_ceil t x) = url t.
Proof.
  unfold add_item. destruct (removelast (segments x)) as [|part parts].
  - simpl. unfold place_item.
    destruct (String.eqb (GitHubTreeItem.type x) "blob"); [done|].
    destruct (String.eqb (GitHubTreeItem.type x) "tree"); [|done].
    apply findOrCreateFolder_fields.
  - apply findOrCreateFolder_fields.
Qed.

Lemma build_tree_plain Math_ceil repo items :
  plain_folder (build_tree Math_ceil repo items).
Proof.
  induction items as [|x items IH] using rev_ind; [done|].
  rewrite build_tree_snoc. destruct IH as (H1 & H2 & H3 & H4).
  destruct (add_item_name Math_ceil (build_tree Math_ceil repo items) x)
    as [_ Hty].
  destruct (add_item_fields Math_ceil (build_tree Math_ceil repo items) x)
    as (Hl & Hc & Hu).
  unfold plain_folder. by rewrite Hty, Hl, Hc, Hu.
Qed.

(** Every node of a walk is the node walked or one below it. *)
Lemma walk_all_below P node :
  ∀ parentId parent start v,
    all_below P node →
    v ∈ walk node parentId parent start →
    v_node v = node ∨ P (v_node v).
Proof.
  induction node as [node IH] using FileNode_children_ind.
  intros parentId parent start v Hall%all_below_unfold.
  rewrite walk_unfold. intros [->|Hv]%elem_of_cons; [by left|]. right.
  revert Hv. generalize (S start) as next.
  generalize (node_id node parentId) as pid.
  induction Hall as [|c cs [Hc Hbelow] Hall IHcs]; intros pid next; simpl.
  { by intros ?%elem_of_nil. }
  apply Forall_cons in IH as [IHc IH].
  intros [Hv|Hv]%elem_of_app.
  - by destruct (IHc _ _ _ _ Hbelow Hv) as [->|].
  - exact (IHcs IH pid _ Hv).
Qed.

(** X20: whatever the listing, the root of the tree of step 5 is a plain
    folder, and every node below it has a name without "/" and is a plain
    folder or the file made of an entry of type "blob", named by the last
    segment of the path of that entry. *)
Theorem fetched_tree_nodes Math_ceil repo items :
  plain_folder (build_tree Math_ceil repo items)
  ∧ all_below (from_listing Math_ceil items)
      (build_tree Math_ceil repo items).
Proof. split; [apply build_tree_plain|apply build_tree_all]. Qed.

(** X21: in the layout of a tree of step 5, whatever the listing, no record
    has a code snippet; a folder record has no url and [loc] 0; a file record
    has the url of an entry of type "blob" of the listing, and the [loc]
    computed from the size of that entry, or 0 when that is not a number. *)
Theorem fetched_records Math_ceil host repo items iterations :
  Forall
    (λ c,
       CityNode.codeSnippet c = None
       ∧ match CityNode.type c with
         | folder => CityNode.url c = None ∧ CityNode.loc c = 0%float
         | file =>
             ∃ x, x ∈ items ∧ GitHubTreeItem.type x = "blob"
                  ∧ CityNode.url c = Some (GitHubTreeItem.url x)
                  ∧ CityNode.loc c
                    = if JS.truthy_number (item_loc Math_ceil x)
                      then item_loc Math_ceil x else 0%float
         end)
    (generateCityLayout host (build_tree Math_ceil repo items) iterations).
Proof.
  set (root := build_tree Math_ceil repo items).
  apply Forall_lookup. intros k c Hc.
  pose proof (layout_visits_length host root iterations) as Hlen.
  destruct (take 400 (preorder root) !! k) as [v|] eqn:Hv.
  2:{ apply lookup_ge_None in Hv. apply lookup_lt_Some in Hc. lia. }
  pose proof (layout_observed host root iterations k v c Hv Hc) as Hobs.
  pose proof (f_equal o_type Hobs) as Htype.
  pose proof (f_equal o_codeSnippet Hobs) as Hcode.
  pose proof (f_equal o_url Hobs) as Hurl.
  pose proof (f_equal o_loc Hobs) as Hloc.
  cbn [observe toCityNode record_of_visit o_type o_codeSnippet o_url o_loc
       CityNode.type CityNode.codeSnippet CityNode.url CityNode.loc
       SimulationNode.type SimulationNode.codeSnippet SimulationNode.url
       SimulationNode.loc] in Htype, Hcode, Hurl, Hloc.
  rewrite Htype, Hcode, Hurl, Hloc. clear Hobs Htype Hcode Hurl Hloc Hc Hlen.
  apply lookup_take_Some in Hv as [Hv _].
  apply list_elem_of_lookup_2 in Hv.
  assert (plain_folder (v_node v)
          ∨ ∃ x fileName,
              x ∈ items ∧ GitHubTreeItem.type x = "blob"
              ∧ v_node v = file_of_item Math_ceil fileName x) as [Hn|Hn].
  { destruct (walk_all_below (from_listing Math_ceil items) root
                None None 0 v (build_tree_all Math_ceil repo items) Hv)
      as [->|[_ [Hn|(x & f & Hx & Hblob & _ & Hn)]]].
    - left. apply build_tree_plain.
    - by left.
    - right. by exists x, f. }
  - destruct Hn as (-> & Hl & -> & ->). split; [done|]. split; [done|].
    unfold node_loc. by rewrite Hl.
  - destruct Hn as (x & f & Hx & Hblob & ->). split; [done|].
    cbn [type file_of_item]. by exists x.
Qed.

(** ** Folders of the tree *)

Lemma folders_distinct_unfold t :
  folders_distinct t
  ↔ NoDup (folder_names (children_list t))
    ∧ Forall folders_distinct (children_list t).
Proof.
  destruct t as [n ty [cs|] l c u]; unfold children_list; simpl.
  - apply and_iff_compat_l.
    induction cs as [|c' cs IH]; [by rewrite Forall_nil|].
    by rewrite Forall_cons, IH.
  - split; [intros _; split; constructor|done].
Qed.

Lemma folder_names_insert cs :
  ∀ i f f',
    cs !! i = Some f → name f' = name f → type f' = type f →
    folder_names (<[i:=f']> cs) = folder_names cs.
Proof.
  unfold folder_names.
  induction cs as [|a cs IH]; intros [|i] f f' Hi Hname Hty; try done.
  - injection Hi as ->. simpl. rewrite !filter_cons, Hty.
    destruct (decide (type f = folder)); [|done]. simpl. by rewrite Hname.
  - simpl in *. rewrite !filter_cons.
    destruct (decide (type a = folder)); simpl; [f_equal|]; by eapply IH.
Qed.

Lemma folder_names_app cs cs' :
  folder_names (cs ++ cs') = folder_names cs ++ folder_names cs'.
Proof. unfold folder_names. by rewrite filter_app, fmap_app. Qed.

Lemma folder_names_fresh cs part :
  list_find (is_folder_named part) cs = None → part ∉ folder_names cs.
Proof.
  intros Hfind%list_find_None (c & -> & Hc)%list_elem_of_fmap.
  apply list_elem_of_filter in Hc as [Hty Hc].
  rewrite Forall_forall in Hfind. by apply (Hfind c Hc).
Qed.

Lemma descend_folders_distinct k parts :
  (∀ d, name (k d) = name d ∧ type (k d) = type d) →
  (∀ d, folders_distinct d → folders_distinct (k d)) →
  ∀ t, folders_distinct t → folders_distinct (descend k parts t).
Proof.
  intros Hname Hk. induction parts as [|part parts IH]; intros t Ht.
  { by apply Hk. }
  apply folders_distinct_unfold in Ht as [Hnd Hall].
  cbn [descend]. unfold findOrCreateFolder.
  destruct (list_find (is_folder_named part) (children_list t))
    as [[i f]|] eqn:Hfind; apply folders_distinct_unfold;
    change (children_list (with_children ?cs t)) with cs.
  - apply list_find_Some in Hfind as (Hi & _ & _).
    destruct (descend_name k parts f Hname) as [Hn Hty].
    split; [by rewrite (folder_names_insert _ i f)|].
    apply Forall_insert; [done|]. apply IH.
    rewrite Forall_forall in Hall.
    apply Hall, (list_elem_of_lookup_2 _ _ _ Hi).
  - apply folder_names_fresh in Hfind.
    destruct (descend_name k parts (new_folder part) Hname) as [Hn Hty].
    split.
    + rewrite folder_names_app. unfold folder_names at 2.
      rewrite filter_cons, filter_nil, Hty. simpl. rewrite Hn. simpl.
      apply NoDup_app. split; [done|]. split; [|apply NoDup_singleton].
      by intros x Hx ->%list_elem_of_singleton.
    + apply Forall_app. split; [done|]. apply Forall_singleton, IH.
      apply folders_distinct_unfold. simpl. split; constructor.
Qed.

Lemma place_item_folders_distinct Math_ceil fileName x d :
  folders_distinct d → folders_distinct (place_item Math_ceil fileName x d).
Proof.
  intros Hd. unfold place_item.
  destruct (String.eqb (GitHubTreeItem.type x) "blob").
  - apply folders_distinct_unfold in Hd as [Hnd Hall].
    apply folders_distinct_unfold. unfold push_file.
    change (children_list (with_children ?cs d)) with cs.
    split.
    + rewrite folder_names_app. unfold folder_names at 2.
      rewrite filter_cons, filter_nil. simpl. by rewrite app_nil_r.
    + apply Forall_app. split; [done|]. by apply Forall_singleton.
  - destruct (String.eqb (GitHubTreeItem.type x) "tree"); [|done].
    change (findOrCreateFolder id d fileName)
      with (descend id [fileName] d).
    by apply descend_folders_distinct.
Qed.

(** X22: whatever the listing, also with repeated or conflicting paths, no
    two folders of the tree of step 5 with the same parent share a name:
    [findOrCreateFolder] never makes a folder that is there already. *)
Theorem sibling_folders_distinct Math_ceil repo items :
  folders_distinct (build_tree Math_ceil repo items).
Proof.
  induction items as [|x items IH] using rev_ind.
  { apply folders_distinct_unfold. simpl. split; constructor. }
  rewrite build_tree_snoc. unfold add_item.
  apply descend_folders_distinct; [| |done].
  - intros d. apply place_item_name.
  - intros d. apply place_item_folders_distinct.
Qed.

(** ** The passes of an iteration *)

Lemma place_accelerate force n : place (accelerate force n) = place n.
Proof. done. Qed.

Lemma apply_force_places host sm st i :
  place <$> nodes (apply_force host sm st i) = place <$> nodes st.
Proof.
  unfold apply_force. destruct (nodes st !! i) as [node|]; [|done].
  destruct (net_force host sm (nodes st) node (draws st)) as [force k]. simpl.
  apply fmap_alter_inv, place_accelerate.
Qed.

Lemma resolve_pair_velocities sm ns i j :
  SimulationNode.velocity <$> resolve_pair sm ns i j
  = SimulationNode.velocity <$> ns.
Proof.
  unfold resolve_pair.
  destruct (ns !! i) as [node|]; [|done].
  destruct (ns !! j) as [other|]; [|done].
  case_decide; [done|].
  case (_ <? _)%float; [|done].
  rewrite fmap_alter_inv by done. by apply fmap_alter_inv.
Qed.

(** X23: within an iteration the force pass moves no record, so every
    force is computed from the positions the iteration started with, and the
    collision passes change no velocity. *)
Theorem passes_write_apart host sm st ns :
  SimulationNode.position <$> nodes (apply_forces host sm st)
  = SimulationNode.position <$> nodes st
  ∧ SimulationNode.velocity <$> resolve_collisions sm ns
    = SimulationNode.velocity <$> ns.
Proof.
  split.
  - unfold apply_forces.
    apply (fold_left_inv
             (λ s, SimulationNode.position <$> nodes s
                   = SimulationNode.position <$> nodes st)); [done|].
    intros s i Hs. rewrite <-Hs.
    trans (snd <$> (place <$> nodes (apply_force host sm s i))).
    { rewrite <-list_fmap_compose. by apply list_fmap_ext. }
    rewrite apply_force_places, <-list_fmap_compose. by apply list_fmap_ext.
  - unfold resolve_collisions.
    apply (fold_left_inv
             (λ l, SimulationNode.velocity <$> l
                   = SimulationNode.velocity <$> ns)); [done|].
    intros l i Hl. unfold resolve_node.
    apply (fold_left_inv
             (λ l', SimulationNode.velocity <$> l'
                    = SimulationNode.velocity <$> ns)); [done|].
    intros l' j Hl'. by rewrite resolve_pair_velocities.
Qed.

Lemma repel_draws host sm node acc other :
  apart node other → snd (repel host sm node acc other) = snd acc.
Proof.
  intros Hapart. unfold repel. destruct acc as [force k].
  case_decide; [done|]. destruct Hapart as [?| ->]; [done|].
  by case (_ <? _)%float.
Qed.

Lemma net_force_draws host sm ns node k :
  (∀ other, other ∈ ns → apart node other) →
  snd (net_force host sm ns node k) = k.
Proof.
  intros Hns. unfold net_force.
  assert (∀ acc, snd (fold_left (repel host sm node) ns acc) = snd acc) as H.
  { induction ns as [|other ns IH]; intros acc; [done|]. simpl.
    rewrite IH.
    - apply repel_draws, Hns, elem_of_cons. by left.
    - intros o Ho. apply Hns, elem_of_cons. by right. }
  specialize (H (Vector3.new, k)).
  by destruct (fold_left (repel host sm node) ns (Vector3.new, k)).
Qed.

Lemma all_apart_places ns ns' :
  place <$> ns' = place <$> ns → all_apart ns → all_apart ns'.
Proof.
  intros Hplaces Hns a b Ha Hb.
  assert (∀ r, r ∈ ns' → ∃ r0, r0 ∈ ns ∧ place r0 = place r) as Hback.
  { intros r Hr. apply (list_elem_of_fmap_2 place) in Hr.
    rewrite Hplaces in Hr. apply list_elem_of_fmap in Hr as (r0 & Heq & Hr0).
    by exists r0. }
  destruct (Hback a Ha) as (a0 & Ha0 & Hpa).
  destruct (Hback b Hb) as (b0 & Hb0 & Hpb).
  injection Hpa as Hia Hxa. injection Hpb as Hib Hxb.
  unfold apart. rewrite <-Hia, <-Hxa, <-Hib, <-Hxb. by apply Hns.
Qed.

(** X24: the force pass calls [Math.random] for the tie-break only: when no
    two records with different ids are within the range of the tie-break
    (squared horizontal distance below 0.1), it draws no random number. *)
Theorem no_draw_when_apart host sm st :
  all_apart (nodes st) → draws (apply_forces host sm st) = draws st.
Proof.
  intros Hst. unfold apply_forces.
  apply (fold_left_inv
           (λ s, place <$> nodes s = place <$> nodes st
                 ∧ draws s = draws st)); [done|].
  intros s i [Hplaces Hdraws]. split.
  { by rewrite apply_force_places. }
  unfold apply_force. destruct (nodes s !! i) as [node|] eqn:Hnode; [|done].
  pose proof (net_force_draws host sm (nodes s) node (draws s)) as Hk.
  destruct (net_force host sm (nodes s) node (draws s)) as [force k].
  simpl in *. rewrite Hk; [done|]. intros other Hother.
  apply (all_apart_places (nodes st) (nodes s) Hplaces Hst);
    [by apply list_elem_of_lookup_2 in Hnode|done].
Qed.

Lemma no_draw_when_apart_witness :
  draws (apply_forces (constant_host 0.25 0) 1
           (flatten (constant_host 0.25 0) repo_with_a_ts None empty_store))
  = 2.
Proof.
  rewrite (no_draw_when_apart (constant_host 0.25 0) 1); [reflexivity|].
  intros a b Ha Hb. vm_compute in Ha, Hb.
  apply elem_of_cons in Ha as [->|Ha];
    [|apply list_elem_of_singleton in Ha as ->];
    (apply elem_of_cons in Hb as [->|Hb];
     [|apply list_elem_of_singleton in Hb as ->]);
    first [by left|by right].
Defined.

(** ** The ids of the specification *)

Lemma spec_ids_unfold node parentId :
  spec_ids node parentId
  = path_id parentId node
    :: (children_list node ≫= λ c, spec_ids c (Some (path_id parentId node))).
Proof.
  destruct node as [n ty [cs|] l c u]; unfold children_list; simpl.
  - f_equal.
  - done.
Qed.

Lemma walk_all_spec_ids id parent cs :
  ∀ next,
    Forall (λ c, ∀ parent start,
                 visit_id <$> walk c (Some id) parent start
                 = spec_ids c (Some id)) cs →
    visit_id <$> walk_all id parent cs next
    = cs ≫= λ c, spec_ids c (Some id).
Proof.
  induction cs as [|c cs IH]; intros next Hcs; [done|].
  apply Forall_cons in Hcs as [Hc Hcs]. simpl.
  by rewrite fmap_app, Hc, IH.
Qed.

(** Where [flatten] is called with no parent or with a non-empty parent id,
    and gives a non-empty id, the ids of the engine are those of the
    specification. *)
Lemma walk_spec_ids node :
  ∀ parentId parent start,
    JS.truthy_ref parentId = parentId →
    JS.truthy_string (node_id node parentId) = true →
    visit_id <$> walk node parentId parent start = spec_ids node parentId.
Proof.
  induction node as [node IH] using FileNode_children_ind.
  intros parentId parent start Href Hid.
  assert (node_id node parentId = path_id parentId node) as Heq.
  { unfold node_id, path_id. by rewrite Href. }
  rewrite walk_unfold, spec_ids_unfold, fmap_cons, <-Heq. f_equal.
  apply walk_all_spec_ids.
  eapply Forall_impl; [exact IH|]. intros c Hc parent' start'.
  apply Hc; [by apply truthy_ref_truthy|].
  rewrite (node_id_child c _ Hid). apply truthy_string_path.
Qed.

Lemma preorder_spec_ids root :
  name root ≠ "" → visit_id <$> preorder root = spec_ids root None.
Proof.
  intros Hname. apply walk_spec_ids; [done|].
  unfold node_id, JS.truthy_string. simpl.
  by destruct (String.eqb_spec (name root) "").
Qed.

(** C1: the engine returns min(totalNodes, 400) records and none for a node
    visited after the cap was reached; and when the root has a non-empty
    name, the ids of the records are the ids the specification gives (the
    name of the root, the id of the parent, "/" and the name otherwise) to the
    first min(totalNodes, 400) nodes of the depth-first preorder traversal,
    children in input order. *)
Theorem C1_first_400_in_preorder host root iterations :
  length (generateCityLayout host root iterations)
  = Nat.min (totalNodes root) 400
  ∧ (name root ≠ "" →
     CityNode.id <$> generateCityLayout host root iterations
     = take (Nat.min (totalNodes root) 400) (spec_ids root None))
  ∧ ∀ k, 400 ≤ k → generateCityLayout host root iterations !! k = None.
Proof.
  split; [apply generateCityLayout_length|]. split.
  - intros Hname.
    rewrite layout_ids_of_visits, (preorder_spec_ids root Hname).
    assert (length (spec_ids root None) = totalNodes root) as Hlen.
    { by rewrite <-(preorder_spec_ids root Hname), length_fmap,
        preorder_length. }
    destruct (decide (totalNodes root ≤ 400)) as [Hle|Hgt].
    + rewrite Nat.min_l by done. by rewrite !take_ge by lia.
    + by rewrite Nat.min_r by lia.
  - intros k Hk. apply lookup_ge_None.
    rewrite generateCityLayout_length. lia.
Qed.

Lemma C1_first_400_in_preorder_witness :
  CityNode.id
    <$> generateCityLayout (constant_host 0.25 0) repo_with_a_ts
          default_iterations
  = ["repo"; "repo/a.ts"].
Proof.
  rewrite (proj1 (proj2 (C1_first_400_in_preorder (constant_host 0.25 0)
                           repo_with_a_ts default_iterations)));
    [reflexivity|discriminate].
Defined.

Lemma C1_first_400_in_preorder_counterexample :
  CityNode.id
    <$> generateCityLayout (constant_host 0.25 0) nameless_root
          default_iterations
  = [""; "a"]
  ∧ take (Nat.min (totalNodes nameless_root) 400) (spec_ids nameless_root None)
    = [""; "/a"].
Proof. split; vm_compute; reflexivity. Qed.

(** ** Runs that draw no number

    The simulation calls [Math.random] for the tie-break of the repulsion
    only.  A run in which the count of draws does not move never took the
    tie-break, and then every host with the same spacing computes the same
    records. *)

Section Quiet.

Variables h1 h2 : Host.
Variable sm : float.















End Quiet.


(** ** Scenario B: the two records end apart *)









Lemma horizontal_toCityNode h h' k k' i r :
  horizontal (toCityNode h k i r) = horizontal (toCityNode h' k' i r).
Proof. done. Qed.



